(** * MEGA SDK, generic host filesystem access (src/filesystem.cpp)

    A shallow embedding of the platform independent part of the
    filesystem layer: name escaping, NFC normalisation of names with
    embedded NULs, the directory notification queues, the deferred
    open/close protocol of [FileAccess] with its asynchronous contexts,
    and the prefix test on [LocalPath].

    Conventions.  A [std::string] is a list of characters ([ascii],
    one per byte).  Pointers are optional handles ([None] is [NULL]).
    Virtual methods of the platform binding are fields of a type class
    or of an environment record.  A dereference of [NULL] and a read
    past a buffer are failures ([None]). *)

From Stdlib Require Import ZArith Ascii String Lia.
From stdpp Require Import base option list gmap.
From Equations Require Import Equations.

Local Open Scope nat_scope.

(** ** Characters and strings *)

Abbreviation cppstring := (list ascii).

Definition NUL : ascii := "000"%char.

(** The code of a character as an [unsigned char]. *)
Definition code (c : ascii) : Z := Z.of_N (N_of_ascii c).

(** [static_cast<char>] of an [int]: the low eight bits. *)
Definition to_char (z : Z) : ascii := ascii_of_N (Z.to_N (z mod 256)).

(** A string literal of the source. *)
Definition lit (s : string) : cppstring := list_ascii_of_string s.

(** [s[i]]: the character at [i]; [s[s.size()]] is the terminator. *)
Definition char_at (s : cppstring) (i : nat) : ascii := default NUL (s !! i).

(** [std::string::replace(pos, len, str)] for [pos <= size]; [len] is
    clipped to the end of the string, as [drop] does. *)
Definition replace (s : cppstring) (pos len : nat) (r : cppstring) : cppstring :=
  take pos s ++ r ++ drop (pos + len) s.

(** [std::string::compare(lit) == 0]. *)
Definition str_eqb (a b : cppstring) : bool := bool_decide (a = b).

(** [int(name->size())]: conversion of a [size_t] to a 32-bit [int]. *)
Definition int_of_size (n : nat) : Z :=
  let m := (Z.of_nat n mod 2 ^ 32)%Z in
  if (m <? 2 ^ 31)%Z then m else (m - 2 ^ 32)%Z.

(** ** Character predicates *)

Module FileSystemAccess.

(** [islchex]: a lower case hexadecimal digit. *)
Definition islchex (c : ascii) : bool :=
  ((code "0" <=? code c) && (code c <=? code "9")
   || (code "a" <=? code c) && (code c <=? code "f"))%Z.

(** The characters refused by [islocalfscompatible], as the literal of
    the source: backslash, slash, colon, question mark, double quote,
    less, greater, bar, star. *)
Definition badchars : cppstring :=
  lit "\/:?" ++ ["034"%char] ++ lit "<>|*".

(** [strchr(s, c) != NULL]; the terminator of [s] is part of the search. *)
Definition strchr (s : cppstring) (c : ascii) : bool :=
  existsb (Ascii.eqb c) (s ++ [NUL]).

(** [islocalfscompatible]: is [c] allowed in local fs names? *)
Definition islocalfscompatible (c : ascii) : bool :=
  (code " " <=? code c)%Z && negb (strchr badchars c).

(** One lower case hexadecimal digit of [sprintf]'s [%02x]. *)
Definition hexdigit (d : Z) : ascii :=
  char_at (lit "0123456789abcdef") (Z.to_nat d).

(** [sprintf(buf, "%%%02x", c)] for an [unsigned char] [c]. *)
Definition sprintf_pct02x (c : ascii) : cppstring :=
  ["%"%char; hexdigit (code c / 16); hexdigit (code c mod 16)].

(** The loop of [escapefsincompatible]:
    [for (size_t i = name->size(); i--; )]. The counter is the value of
    [i] before the test; the body runs at [i - 1]. *)
Fixpoint escape_loop (i : nat) (name : cppstring) : cppstring :=
  match i with
  | 0 => name
  | S i' =>
      let c := char_at name i' in
      escape_loop i'
        (if islocalfscompatible c then name
         else replace name i' 1 (sprintf_pct02x c))
  end.

(** [escapefsincompatible]: replace characters that are not allowed in
    local fs names with a %xx escape sequence. *)
Definition escapefsincompatible (name : cppstring) : cppstring :=
  if str_eqb name (lit "..") then replace name 0 2 (lit "%2e%2e")
  else if str_eqb name (lit ".") then replace name 0 1 (lit "%2e")
  else escape_loop (length name) name.

(** Modelled from the spec: [MegaClient::hexval] is defined in
    megaclient.cpp, which is not among the sources.  The spec has the
    triplet decoded as two hexadecimal digits; this is the value of a
    digit accepted by [islchex]. *)
Definition hexval (c : ascii) : Z :=
  if (code "9" <? code c)%Z then (code c - code "a" + 10)%Z
  else (code c - code "0")%Z.

(** The body of the loop of [unescapefsincompatible] at index [i]. *)
Definition unescape_step (i : nat) (name : cppstring) : cppstring :=
  if Ascii.eqb (char_at name i) "%"
     && islchex (char_at name (i + 1)) && islchex (char_at name (i + 2))
  then
    let c := to_char (Z.shiftl (hexval (char_at name (i + 1))) 4
                      + hexval (char_at name (i + 2))) in
    if islocalfscompatible c then name else replace name i 3 [c]
  else name.

(** [for (int i = int(name->size()) - 2; i-- > 0; )]: the counter is
    the value of [i] before the test; the body runs at [i - 1]. *)
Fixpoint unescape_loop (i : nat) (name : cppstring) : cppstring :=
  match i with
  | 0 => name
  | S i' => unescape_loop i' (unescape_step i' name)
  end.

(** [unescapefsincompatible].  The index of the loop is an [int]: the
    model follows the source for names shorter than [2^31] bytes, where
    neither the conversion of the size nor the subtraction leaves the
    range of [int]. *)
Definition unescapefsincompatible (name : cppstring) : cppstring :=
  if str_eqb name (lit "%2e%2e") then replace name 0 6 (lit "..")
  else if str_eqb name (lit "%2e") then replace name 0 3 (lit ".")
  else unescape_loop (Z.to_nat (int_of_size (length name) - 2)) name.

(** What the loop of [escapefsincompatible] makes of one character. *)
Definition escape_char (c : ascii) : cppstring :=
  if islocalfscompatible c then [c] else sprintf_pct02x c.

(** The test of [unescape_step]: at [i] stands a well-formed triplet
    that encodes an incompatible character. *)
Definition decodes_at (name : cppstring) (i : nat) : bool :=
  Ascii.eqb (char_at name i) "%"
  && islchex (char_at name (i + 1)) && islchex (char_at name (i + 2))
  && negb (islocalfscompatible
             (to_char (Z.shiftl (hexval (char_at name (i + 1))) 4
                       + hexval (char_at name (i + 2))))).

(** Some position of [name] holds such a triplet. *)
Definition has_escape_triplet (name : cppstring) : bool :=
  existsb (decodes_at name) (seq 0 (length name)).

(** The platform binding of [FileSystemAccess]: its pure virtual
    encoding conversions and the separator of local paths. *)
Class Binding := {
  path2local : cppstring -> cppstring;
  local2path : cppstring -> cppstring;
  localseparator : cppstring
}.

(** The binding of a platform whose local encoding is the presentation
    encoding, with a one byte separator. *)
Definition posix_like : Binding :=
  {| path2local := fun s => s; local2path := fun s => s;
     localseparator := lit "/" |}.

(** A binding with a two byte separator (a backslash as one UTF-16
    code unit, low byte first); the conversions are kept trivial. *)
Definition wide_like : Binding :=
  {| path2local := fun s => s; local2path := fun s => s;
     localseparator := ["\"%char; NUL] |}.

(** [name2local]: escape forbidden characters, then convert to local
    encoding. *)
Definition name2local `{Binding} (filename : cppstring) : cppstring :=
  let filename := escapefsincompatible filename in
  let t := filename in
  path2local t.

(** [local2name]: convert from local encoding, then unescape escaped
    forbidden characters. *)
Definition local2name `{Binding} (filename : cppstring) : cppstring :=
  let t := filename in
  let filename := local2path t in
  unescapefsincompatible filename.

(** A [const char*] read as a C string: the bytes before the first NUL. *)
Fixpoint c_str (p : cppstring) : cppstring :=
  match p with
  | [] => []
  | c :: p' => if Ascii.eqb c NUL then [] else c :: c_str p'
  end.

Section Normalize.
(** [utf8proc_NFC]: the normaliser, an external pure function from a
    C string to a freshly allocated C string, or [NULL]. *)
Variable utf8proc_NFC : cppstring -> option cppstring.

(** The loop of [normalize] over the index [i] into
    [cfilename = filename->c_str()].  A NUL is copied and skipped;
    otherwise the C string at [i] is normalised and [i] advances by
    its [strlen], which is positive. *)
Equations? normalize_loop (cfilename : cppstring) (fnsize i : nat)
    (result : cppstring) : cppstring by wf (fnsize - i) lt :=
normalize_loop cfilename fnsize i result with decide (i < fnsize) := {
  | right _ := result;
  | left _ with Logic.inspect (Ascii.eqb (char_at cfilename i) NUL) := {
    | exist _ true _ :=
        normalize_loop cfilename fnsize (i + 1) (result ++ [NUL]);
    | exist _ false Hnz with utf8proc_NFC (c_str (drop i cfilename)) := {
      | None := [];
      | Some normalized :=
          normalize_loop cfilename fnsize
            (i + length (c_str (drop i cfilename)))
            (result ++ c_str normalized) } } }.
Proof.
  all: try lia.
  (* [strlen] of the C string at a non-NUL character is positive *)
  unfold char_at in Hnz.
  destruct (cfilename !! i) as [c|] eqn:E; simpl in Hnz; [|discriminate].
  apply list_elem_of_split_length in E as (l1 & l2 & -> & ->).
  rewrite drop_app_length. simpl. rewrite Hnz. simpl. lia.
Qed.

Definition normalize (filename : cppstring) : cppstring :=
  normalize_loop (filename ++ [NUL]) (length filename) 0 [].

(** The spec's words for [normalize]: split on NUL bytes, normalise
    each non-empty run, reassemble with the separators in place; any
    failure clears the result. *)
Fixpoint split_on_nul (s : cppstring) : list cppstring :=
  match s with
  | [] => [[]]
  | c :: s' =>
      if Ascii.eqb c NUL then [] :: split_on_nul s'
      else match split_on_nul s' with
           | [] => [[c]]
           | r :: rs => (c :: r) :: rs
           end
  end.

Definition normalize_run (run : cppstring) : option cppstring :=
  match run with [] => Some [] | _ => utf8proc_NFC run end.

Fixpoint join_with_nul (runs : list cppstring) : cppstring :=
  match runs with
  | [] => []
  | [r] => r
  | r :: rs => r ++ NUL :: join_with_nul rs
  end.

Definition normalize_spec (filename : cppstring) : cppstring :=
  match mapM normalize_run (split_on_nul filename) with
  | Some runs => join_with_nul runs
  | None => []
  end.

(** The same for a rest of the name, in front of which [result] has
    been assembled already. *)
Definition assembled (result rest : cppstring) : cppstring :=
  match mapM normalize_run (split_on_nul rest) with
  | Some runs => result ++ join_with_nul runs
  | None => []
  end.
End Normalize.

(** Another normaliser for examples: it writes a capital for every [e]
    of a C string. *)
Definition capital_e (c : ascii) : ascii :=
  if Ascii.eqb c "e" then "E"%char else c.
Definition capitalising_NFC (run : cppstring) : option cppstring :=
  if bool_decide (NUL ∈ run) then None else Some (capital_e <$> run).

(** [captimestamp]: the bound is [(uint32_t)-1]; [m_time_t] is a signed
    type wider than 32 bits, so both comparisons are signed. *)
Definition captimestamp (t : Z) : Z :=
  if (4294967295 <? t)%Z then 4294967295%Z
  else if (t <? 0)%Z then 0%Z
  else t.

(** What one round of the loop of [unescapefsincompatible] makes of a
    character [c] in front of a rest [z] that has been unescaped. *)
Definition unescape_cons (c : ascii) (z : cppstring) : cppstring :=
  if decodes_at (c :: z) 0
  then to_char (Z.shiftl (hexval (char_at z 0)) 4 + hexval (char_at z 1))
       :: drop 2 z
  else c :: z.

(** A normaliser for examples: it refuses the run [bad] and marks every
    other run. *)
Definition marking_NFC (run : cppstring) : option cppstring :=
  if bool_decide (run = lit "bad") || bool_decide (NUL ∈ run) then None
  else Some (run ++ lit "'").

End FileSystemAccess.

(** ** LocalPath *)

Module LocalPath.

Record t := mk { localpath : cppstring }.

#[global] Instance t_eq_dec : EqDecision t.
Proof. solve_decision. Defined.

(** [data()]: the bytes of a string, followed by its terminator. *)
Definition data (s : cppstring) : cppstring := s ++ [NUL].

(** [!memcmp(p, q, n)] on the readable regions that start at [p] and
    [q]: [Some true] when the first [n] bytes agree; reading past either
    region is undefined. *)
Definition memcmp_eq (p q : cppstring) (n : nat) : option bool :=
  if decide (n <= length p /\ n <= length q)
  then Some (bool_decide (take n p = take n q))
  else None.

Definition empty (p : t) : bool := bool_decide (localpath p = []).

Definition append (p additionalPath : t) : t :=
  mk (localpath p ++ localpath additionalPath).

Definition separatorAppend `{FileSystemAccess.Binding}
    (p additionalPath : t) (separatorAlways : bool) : t :=
  let lp :=
    if separatorAlways || negb (Nat.eqb (length (localpath p)) 0)
    then localpath p ++ FileSystemAccess.localseparator
    else localpath p in
  mk (lp ++ localpath additionalPath).

Definition fromLocalname (path : cppstring) : t := mk path.

Definition fromName `{FileSystemAccess.Binding} (path : cppstring) : t :=
  fromLocalname (FileSystemAccess.name2local path).

Definition toName `{FileSystemAccess.Binding} (p : t) : cppstring :=
  FileSystemAccess.local2name (localpath p).

(** [this->isContainingPathOf(path, fsaccess)], with the short circuit
    of [&&] and [||]. *)
Definition isContainingPathOf `{FileSystemAccess.Binding}
    (this path : t) : option bool :=
  let sep := FileSystemAccess.localseparator in
  if decide (length (localpath this) <= length (localpath path)) then
    match memcmp_eq (data (localpath path)) (data (localpath this))
            (length (localpath this)) with
    | None => None
    | Some false => Some false
    | Some true =>
        if Nat.eqb (length (localpath path)) (length (localpath this))
        then Some true
        else memcmp_eq (drop (length (localpath this)) (data (localpath path)))
               (data sep) (length sep)
    end
  else Some false.

(** The spec's words for the contract: [child] begins with [parent],
    and the lengths are equal or a complete separator follows. *)
Definition contains_spec (sep parent child : cppstring) : Prop :=
  parent `prefix_of` child /\
  (length child = length parent \/
   sep `prefix_of` drop (length parent) child).

(** Paths made of whole code units of the separator's size. *)
Definition aligned (sep : cppstring) (p : t) : Prop :=
  exists k, length (localpath p) = k * length sep.

(** [std::string::resize(n)]: truncate, or pad with NUL. *)
Definition string_resize (s : cppstring) (n : nat) : cppstring :=
  take n s ++ replicate (n - length s) NUL.

(** [separatorPrepend]: two [insert(0, ...)], the separator first. *)
Definition separatorPrepend `{FileSystemAccess.Binding}
    (p additionalPath : t) : t :=
  mk (localpath additionalPath ++ (FileSystemAccess.localseparator ++ localpath p)).

(** [(int(localpath.size()) & -int(separator.size())) - separator.size()],
    the offset both uses of [trimTrailingSeparator] compute: an [int]
    minus a [size_t]. *)
Definition trim_offset (size sepsize : nat) : Z :=
  (Z.land (int_of_size size) (- int_of_size sepsize) - Z.of_nat sepsize)%Z.

(** [trimTrailingSeparator].  The comparison starts at
    [data() + (int & -int) - size]: with a negative offset it reads
    before the buffer, which is undefined, as is the negation of the
    least [int]. *)
Definition trimTrailingSeparator `{FileSystemAccess.Binding} (p : t) : option t :=
  let sep := FileSystemAccess.localseparator in
  if decide (length sep <= length (localpath p)) then
    let o := trim_offset (length (localpath p)) (length sep) in
    if decide (int_of_size (length sep) = - 2 ^ 31)%Z then None
    else if decide (0 <= o)%Z then
      match memcmp_eq (drop (Z.to_nat o) (data (localpath p))) (data sep)
              (length sep) with
      | None => None
      | Some true => Some (mk (string_resize (localpath p) (Z.to_nat o)))
      | Some false => Some p
      end
    else None
  else Some p.

(** [sep] stands in [s] at [i]. *)
Definition occurs_at (s sep : cppstring) (i : nat) : Prop :=
  take (length sep) (drop i s) = sep /\ i + length sep <= length s.

#[global] Instance occurs_at_dec s sep i : Decision (occurs_at s sep i).
Proof. unfold occurs_at. apply _. Defined.

(** [std::string::find(str, pos)]: the lowest position not before [pos]
    at which [str] stands; [None] is [npos].  [find_from] tries the [n]
    positions from [i] on. *)
Fixpoint find_from (s sep : cppstring) (i n : nat) : option nat :=
  match n with
  | 0 => None
  | S n' =>
      if decide (occurs_at s sep i) then Some i
      else find_from s sep (S i) n'
  end.

Definition find (s sep : cppstring) (pos : nat) : option nat :=
  if decide (pos + length sep <= length s)
  then find_from s sep pos (S (length s - length sep - pos))
  else None.

(** [std::string::rfind(str, pos)]: the highest position not after
    [pos] at which [str] stands.  [rfind_down] tries [i], [i - 1], ...,
    [0]. *)
Fixpoint rfind_down (s sep : cppstring) (i : nat) : option nat :=
  if decide (occurs_at s sep i) then Some i
  else match i with
       | 0 => None
       | S i' => rfind_down s sep i'
       end.

Definition rfind (s sep : cppstring) (pos : nat) : option nat :=
  if decide (length sep <= length s)
  then rfind_down s sep (Nat.min pos (length s - length sep))
  else None.

(** The loop of [findNextSeparator].  Each round moves the position
    forward, so that [fuel] rounds, one more than the size of the path,
    are never used up.  [Some (Some r)]: true, with the position [r];
    [Some None]: false, the position is [npos]; [None]: undefined, the
    remainder of a division by the size of an empty separator. *)
Fixpoint findNextSeparator_loop (fuel : nat) (s sep : cppstring)
    (separatorBytePos : nat) : option (option nat) :=
  match fuel with
  | 0 => None
  | S fuel' =>
      match find s sep separatorBytePos with
      | None => Some None
      | Some r =>
          if decide (length sep = 0) then None
          else if Nat.eqb (r mod length sep) 0 then Some (Some r)
          else findNextSeparator_loop fuel' s sep (r + 1)
      end
  end.

Definition findNextSeparator `{FileSystemAccess.Binding} (p : t)
    (separatorBytePos : nat) : option (option nat) :=
  findNextSeparator_loop (S (length (localpath p))) (localpath p)
    FileSystemAccess.localseparator separatorBytePos.

(** The loop of [findPrevSeparator], likewise; a position that is not
    aligned is not 0, so that [separatorBytePos--] does not wrap. *)
Fixpoint findPrevSeparator_loop (fuel : nat) (s sep : cppstring)
    (separatorBytePos : nat) : option (option nat) :=
  match fuel with
  | 0 => None
  | S fuel' =>
      match rfind s sep separatorBytePos with
      | None => Some None
      | Some r =>
          if decide (length sep = 0) then None
          else if Nat.eqb (r mod length sep) 0 then Some (Some r)
          else findPrevSeparator_loop fuel' s sep (r - 1)
      end
  end.

Definition findPrevSeparator `{FileSystemAccess.Binding} (p : t)
    (separatorBytePos : nat) : option (option nat) :=
  findPrevSeparator_loop (S (length (localpath p))) (localpath p)
    FileSystemAccess.localseparator separatorBytePos.

(** The loop of [getLeafnameByteIndex]:
    [while (p && (p -= sepsize)) { if (!memcmp(...)) { p += sepsize; break; } }].
    A [p] below the size of the separator wraps around; the comparison
    then lies outside the buffer.  [fuel] bounds the rounds: [p] gets
    smaller in each unless the separator is empty, and then the first
    comparison succeeds. *)
Fixpoint getLeafnameByteIndex_loop (fuel : nat) (s sep : cppstring) (p : nat)
  : option nat :=
  match fuel with
  | 0 => None
  | S fuel' =>
      if Nat.eqb p 0 then Some p
      else if decide (p < length sep) then None
      else
        let p := p - length sep in
        if Nat.eqb p 0 then Some p
        else
          match memcmp_eq (drop p (data s)) (data sep) (length sep) with
          | None => None
          | Some true => Some (p + length sep)
          | Some false => getLeafnameByteIndex_loop fuel' s sep p
          end
  end.

Definition getLeafnameByteIndex `{FileSystemAccess.Binding} (p : t) : option nat :=
  getLeafnameByteIndex_loop (S (length (localpath p))) (localpath p)
    FileSystemAccess.localseparator (length (localpath p)).

(** [backEqual(bytePos, compareTo)], either overload: the sum is one of
    [size_t]; the result of [memcmp] is used as it is, so that it
    counts as true when the bytes differ. *)
Definition backEqual (p : t) (bytePos : nat) (compareTo : cppstring) : option bool :=
  let n := length compareTo in
  if bool_decide (((Z.of_nat bytePos + Z.of_nat n) mod 2 ^ 64)%Z
                  = Z.of_nat (length (localpath p)))
  then negb <$> memcmp_eq (data compareTo) (drop bytePos (data (localpath p))) n
  else Some false.

(** [subpathFrom]: [substr(bytePos)] throws [std::out_of_range] past
    the end ([None]). *)
Definition subpathFrom (p : t) (bytePos : nat) : option t :=
  if decide (bytePos <= length (localpath p))
  then Some (fromLocalname (drop bytePos (localpath p)))
  else None.

(** [substrTo]: [substr(0, bytePos)], clipped to the end. *)
Definition substrTo (p : t) (bytePos : nat) : cppstring :=
  take bytePos (localpath p).

End LocalPath.

(** ** DirNotify: the notification queues *)

Module DirNotify.

(** Modelled from the spec: the enumeration [notifyqueue] is declared in
    mega/filesystem.h, which is not among the sources.  [notify] names
    [DIREVENTS] (the primary directory-events queue) and [EXTRA] (the
    auxiliary queue) and tests [q] against both, so there are further
    queues; [RETRY] stands for them. *)
Inductive notifyqueue := DIREVENTS | EXTRA | RETRY.

#[global] Instance notifyqueue_eq_dec : EqDecision notifyqueue.
Proof. solve_decision. Defined.

(** Modelled from the spec: [nodetype_t] is declared in mega/types.h,
    which is not among the sources.  [notify] distinguishes file-type
    nodes ([FILENODE]) from the others. *)
Inductive nodetype_t := TYPE_UNKNOWN | FILENODE | FOLDERNODE.

#[global] Instance nodetype_eq_dec : EqDecision nodetype_t.
Proof. solve_decision. Defined.

(** A [LocalNode*] or [Node*]: [None] is [NULL], [Some a] the object at
    address [a]. *)
Definition ptr := option nat.

(** One queue entry: the debounce timestamp (0: process immediately),
    the node the event concerns, the path relative to that node. *)
Record Notification := mkNotification {
  timestamp : Z;
  localnode : ptr;
  path : LocalPath.t
}.

(** Modelled from the spec: [FileFingerprint] is declared in
    mega/filefingerprint.h, which is not among the sources: the
    signature (size, modification time, content checksum) that
    [LocalNode] and [Node] both derive from; [notify] reads [mtime] and
    [size] of a [LocalNode] and compares the two base objects. *)
Record FileFingerprint := mkFingerprint {
  size : Z;
  mtime : Z;
  crc : list Z;
  isvalid : bool
}.

(** The fields of a [LocalNode] that [notify] reads. *)
Record LocalNode := mkLocalNode {
  ln_fingerprint : FileFingerprint;
  ln_type : nodetype_t;
  ln_name : cppstring;
  ln_fsid : Z;
  ln_node : ptr
}.

(** The fields of a remote [Node] that [notify] reads; [attrs] is
    [attrs.map], keyed by attribute name id. *)
Record Node := mkNode {
  n_fingerprint : FileFingerprint;
  n_localnode : ptr;
  n_attrs : gmap N cppstring
}.

(** What [fa->fopen(tmppath, false, false)] leaves in a fresh
    [FileAccess]: its result and the fields [notify] reads. *)
Record FileStat := mkFileStat {
  fs_success : bool;
  fs_retry : bool;
  fs_fsidvalid : bool;
  fs_fsid : Z;
  fs_type : nodetype_t;
  fs_mtime : Z;
  fs_size : Z
}.

(** What [notify] reaches through [sync->client] and through the nodes:
    the filesystem binding, the stat of a path, the lookup of a local
    node by path, the two object stores, and the comparison of
    fingerprints ([operator==], defined outside the sources). *)
Record Engine := mkEngine {
  fsaccess : FileSystemAccess.Binding;
  getLocalPath : nat -> LocalPath.t;
  fopen : LocalPath.t -> FileStat;
  localnodebypath : ptr -> LocalPath.t -> ptr;
  localnode_at : nat -> LocalNode;
  node_at : nat -> Node;
  fingerprint_eq : FileFingerprint -> FileFingerprint -> bool
}.

(** The [Sync] a watcher belongs to: its [initializing] flag and
    [client->syncactivity]. *)
Record Sync := mkSync {
  initializing : bool;
  syncactivity : bool
}.

Record t := mkDirNotify {
  localbasepath : LocalPath.t;
  ignore : LocalPath.t;
  failed : Z;
  failreason : cppstring;
  error : Z;
  sync : option Sync;
  notifyq : notifyqueue -> list Notification
}.

(** [DirNotify::DirNotify]: no notification available. *)
Definition create (clocalbasepath cignore : LocalPath.t) : t :=
  {| localbasepath := clocalbasepath; ignore := cignore;
     failed := 1; failreason := lit "Not initialized"; error := 0;
     sync := None; notifyq := fun _ => [] |}.

Definition set_notifyq (d : t) (q : notifyqueue) (l : list Notification) : t :=
  {| localbasepath := localbasepath d; ignore := ignore d;
     failed := failed d; failreason := failreason d; error := error d;
     sync := sync d;
     notifyq := fun q' => if decide (q' = q) then l else notifyq d q' |}.

Definition set_sync (d : t) (s : option Sync) : t :=
  {| localbasepath := localbasepath d; ignore := ignore d;
     failed := failed d; failreason := failreason d; error := error d;
     sync := s; notifyq := notifyq d |}.

Definition set_timestamp (e : Notification) (ts : Z) : Notification :=
  {| timestamp := ts; localnode := localnode e; path := path e |}.

(** How a call of [notify] ends: at the first [return] ("Repeated
    notification skipped"), at the second ("Self filesystem
    notification skipped"), or at the end of the function. *)
Inductive outcome := RepeatedSkipped | SelfSkipped | Enqueued.

(** [q == DirNotify::DIREVENTS || q == DirNotify::EXTRA]. *)
Definition direvents_or_extra (q : notifyqueue) : bool :=
  bool_decide (q = DIREVENTS) || bool_decide (q = EXTRA).

(** The first condition of [notify]: the queue is not empty and its
    [back()] has this node and this path. *)
Definition repeated (d : t) (q : notifyqueue) (l : ptr) (p : LocalPath.t) : bool :=
  direvents_or_extra q
  && match last (notifyq d q) with
     | Some e => bool_decide (localnode e = l) && bool_decide (path e = p)
     | None => false
     end.

(** The refresh of [back().timestamp] on a repeated notification. *)
Definition refresh_back (ds : Z) (immediate : bool) (l : list Notification)
  : list Notification :=
  match last l with
  | Some e =>
      if bool_decide (timestamp e = 0%Z) then l
      else removelast l ++ [set_timestamp e (if immediate then 0%Z else ds)]
  | None => l
  end.

(** The path [notify] stats: the local path of [l], if any, with
    [path] appended after a separator. *)
Definition tmppath (E : Engine) (l : ptr) (p : LocalPath.t) : LocalPath.t :=
  let tmp := match l with
             | Some a => getLocalPath E a
             | None => LocalPath.mk []
             end in
  if LocalPath.empty p then tmp
  else @LocalPath.separatorAppend (fsaccess E) tmp p false.

(** The attribute ['n'] of a node: its name. *)
Definition attr_n : N := N_of_ascii "n".

(** The condition under which [notify] logs "Self filesystem
    notification skipped", with the short circuit of the source. *)
Definition self_notification (E : Engine) (l : ptr) (p : LocalPath.t) : bool :=
  let fa := fopen E (tmppath E l p) in
  let success := fs_success fa in
  let ll := localnodebypath E l p in
  match ll with
  | None => negb success && negb (fs_retry fa)           (* deleted file *)
  | Some a =>
      let lln := localnode_at E a in
      success
      && match ln_node lln with
         | None => false
         | Some na =>
             let node := node_at E na in
             bool_decide (n_localnode node = ll)
             && (negb (bool_decide (ln_type lln = FILENODE))
                 || fingerprint_eq E (ln_fingerprint lln) (n_fingerprint node))
             && match n_attrs node !! attr_n with
                | None => false
                | Some name => bool_decide (name = ln_name lln)
                end
             && fs_fsidvalid fa
             && bool_decide (fs_fsid fa = ln_fsid lln)
             && bool_decide (fs_type fa = ln_type lln)
             && (negb (bool_decide (ln_type lln = FILENODE))
                 || bool_decide (mtime (ln_fingerprint lln) = fs_mtime fa)
                    && bool_decide (size (ln_fingerprint lln) = fs_size fa))
         end
  end.

(** The guard of the self-notification check. *)
Definition self_check_applies (d : t) (q : notifyqueue) (immediate : bool) : bool :=
  negb immediate
  && match sync d with
     | Some s => negb (initializing s)
     | None => false
     end
  && bool_decide (q = DIREVENTS).

(** The tail of [notify]: resize the queue by one and fill [back()]. *)
Definition enqueue (ds : Z) (q : notifyqueue) (l : ptr) (p : LocalPath.t)
    (immediate : bool) (d : t) : t :=
  set_notifyq d q
    (notifyq d q ++ [mkNotification (if immediate then 0%Z else ds) l p]).

(** [DirNotify::notify], compiled with [ENABLE_SYNC]; [ds] is
    [Waiter::ds].  The result is [None] when [sync], which the
    constructor leaves [NULL], is dereferenced while [NULL]. *)
Definition notify (E : Engine) (ds : Z) (q : notifyqueue) (l : ptr)
    (p : LocalPath.t) (immediate : bool) (d : t) : option (outcome * t) :=
  if repeated d q l p then
    Some (RepeatedSkipped, set_notifyq d q (refresh_back ds immediate (notifyq d q)))
  else if self_check_applies d q immediate && self_notification E l p then
    Some (SelfSkipped, d)
  else if direvents_or_extra q then
    match sync d with
    | None => None
    | Some s =>
        Some (Enqueued,
              enqueue ds q l p immediate
                (set_sync d (Some (mkSync (initializing s) true))))
    end
  else Some (Enqueued, enqueue ds q l p immediate d).

(** The two situations in which an event on [DIREVENTS] is the
    engine's own, in words.  (a) The path resolves to no local node and
    its stat fails for good. *)
Definition deleted_consistently (E : Engine) (l : ptr) (p : LocalPath.t) : Prop :=
  localnodebypath E l p = None /\
  fs_success (fopen E (tmppath E l p)) = false /\
  fs_retry (fopen E (tmppath E l p)) = false.

(** (b) The path resolves to a local node [ll], the stat succeeds, [ll]
    has a remote node whose back reference is [ll] and whose name
    attribute is the name of [ll], the stat gives a valid filesystem
    identifier, that of [ll], and the type of [ll], and, when [ll] is a
    file, its fingerprint equals that of the remote node and its mtime
    and size are those of the stat. *)
Definition unchanged_on_disk (E : Engine) (l : ptr) (p : LocalPath.t) : Prop :=
  exists a na,
    let ll := localnode_at E a in
    let node := node_at E na in
    let fa := fopen E (tmppath E l p) in
    localnodebypath E l p = Some a /\
    fs_success fa = true /\
    ln_node ll = Some na /\
    n_localnode node = Some a /\
    n_attrs node !! attr_n = Some (ln_name ll) /\
    fs_fsidvalid fa = true /\
    fs_fsid fa = ln_fsid ll /\
    fs_type fa = ln_type ll /\
    (ln_type ll = FILENODE ->
     fingerprint_eq E (ln_fingerprint ll) (n_fingerprint node) = true /\
     mtime (ln_fingerprint ll) = fs_mtime fa /\
     size (ln_fingerprint ll) = fs_size fa).

(** Condition (b) as the specification words it: identifier, mtime and
    size match for every node, the fingerprint for files; nothing on
    the type or on the validity of the identifier. *)
Definition unchanged_as_specified (E : Engine) (l : ptr) (p : LocalPath.t) : Prop :=
  exists a na,
    let ll := localnode_at E a in
    let node := node_at E na in
    let fa := fopen E (tmppath E l p) in
    localnodebypath E l p = Some a /\
    fs_success fa = true /\
    ln_node ll = Some na /\
    n_localnode node = Some a /\
    n_attrs node !! attr_n = Some (ln_name ll) /\
    fs_fsid fa = ln_fsid ll /\
    mtime (ln_fingerprint ll) = fs_mtime fa /\
    size (ln_fingerprint ll) = fs_size fa /\
    (ln_type ll = FILENODE ->
     fingerprint_eq E (ln_fingerprint ll) (n_fingerprint node) = true).

#[global] Instance fingerprint_eq_dec : EqDecision FileFingerprint.
Proof. solve_decision. Defined.

(** An engine for examples: one local node [ll] at address 0, found
    (or not: [found]) under every path, its remote node [node] at
    address 0, every stat answering [st]. *)
Definition example_engine (found : bool) (ll : LocalNode) (node : Node)
    (st : FileStat) : Engine :=
  {| fsaccess := FileSystemAccess.posix_like;
     getLocalPath := fun _ => LocalPath.mk (lit "/sync");
     fopen := fun _ => st;
     localnodebypath := fun _ _ => if found then Some 0 else None;
     localnode_at := fun _ => ll;
     node_at := fun _ => node;
     fingerprint_eq := fun a b => bool_decide (a = b) |}.

(** A folder [d] known to the engine, and a watcher past its initial
    scan with empty queues. *)
Definition example_folder : LocalNode :=
  {| ln_fingerprint := mkFingerprint 0 100 [] false;
     ln_type := FOLDERNODE; ln_name := lit "d"; ln_fsid := 7;
     ln_node := Some 0 |}.
Definition example_node : Node :=
  {| n_fingerprint := mkFingerprint 0 100 [] false;
     n_localnode := Some 0;
     n_attrs := {[ attr_n := lit "d" ]} |}.
Definition example_watcher : t :=
  set_sync (create (LocalPath.mk (lit "/sync")) (LocalPath.mk []))
    (Some (mkSync false false)).

(** [fsfingerprint]: default, no fingerprint. *)
Definition fsfingerprint (d : t) : Z := 0.

Definition fsstableids (d : t) : bool := true.

(** Node and path of a queue entry: what [notify] compares with its
    arguments. *)
Definition target (e : Notification) : ptr * LocalPath.t :=
  (localnode e, path e).

(** No entry of a queue has the node and path of the entry before it. *)
Definition adjacent_distinct (l : list Notification) : Prop :=
  forall i e1 e2, l !! i = Some e1 -> l !! S i = Some e2 -> target e1 <> target e2.

(** One call of [notify]: the state of the engine at the time of the
    call, the tick, and the arguments. *)
Record call := mkCall {
  c_engine : Engine;
  c_ds : Z;
  c_q : notifyqueue;
  c_localnode : ptr;
  c_path : LocalPath.t;
  c_immediate : bool
}.

(** Calls of [notify] on one watcher, one after the other. *)
Fixpoint notify_all (calls : list call) (d : t) : option t :=
  match calls with
  | [] => Some d
  | c :: rest =>
      match notify (c_engine c) (c_ds c) (c_q c) (c_localnode c) (c_path c)
              (c_immediate c) d with
      | Some (_, d') => notify_all rest d'
      | None => None
      end
  end.

End DirNotify.

(** ** FileAccess and AsyncIOContext *)

Module FileAccess.

(** Modelled from the spec: the reply of the platform's stat,
    [(mtime, size) | error(retryable)]; [sysstat] is pure virtual. *)
Inductive stat_reply := StatOk (mtime size : Z) | StatError (retryable : bool).

(** The reply of the platform's open, likewise. *)
Inductive open_reply := OpenOk | OpenError (retryable : bool).

(** The platform binding of [FileAccess] over a state [W] of the
    platform (the handle and the filesystem as the process sees it):
    the pure virtual [sysstat], [sysopen] and [sysclose]. *)
Class Sys (W : Type) := {
  sysstat : LocalPath.t -> W -> stat_reply * W;
  sysopen : bool -> LocalPath.t -> W -> open_reply * W;
  sysclose : W -> W
}.

Inductive op_t := NONE | OPEN | READ | WRITE.

#[global] Instance op_eq_dec : EqDecision op_t.
Proof. solve_decision. Defined.

(** Modelled from the spec: the access rights of a context are bit
    flags declared in mega/filesystem.h, which is not among the
    sources. *)
Definition ACCESS_NONE : Z := 0.
Definition ACCESS_READ : Z := 1.
Definition ACCESS_WRITE : Z := 2.

(** The only callback the sources install: [FileAccess::asyncopfinished]. *)
Inductive callback := asyncopfinished.

(** [AsyncIOContext].  [buffer] holds the bytes the non-owning pointer
    refers to; [waiter] and [userData] are [Waiter*]; the back
    reference [fa] is the [FileAccess] passed along with the context. *)
Record AsyncIOContext := mkContext {
  op : op_t;
  access : Z;
  pos : Z;
  len : Z;
  pad : Z;
  buffer : option cppstring;
  ctx_waiter : option nat;
  userCallback : option callback;
  userData : option nat;
  finished : bool;
  failed : bool;
  ctx_retry : bool
}.

(** What a [FileAccess] does to the outside, in order: calls of the
    binding, invocations of a completion callback (with the context as
    it is at that moment), and calls on a waiter. *)
Inductive event :=
| EvSysStat | EvSysOpen (async : bool) | EvSysClose
| EvCallback (c : AsyncIOContext)
| EvWaiterNotify (w : nat) | EvWaiterInit (w : nat) | EvWaiterWait (w : nat).

#[global] Instance callback_eq_dec : EqDecision callback.
Proof. solve_decision. Defined.
#[global] Instance context_eq_dec : EqDecision AsyncIOContext.
Proof. solve_decision. Defined.
#[global] Instance event_eq_dec : EqDecision event.
Proof. solve_decision. Defined.

Definition is_callback (e : event) : bool :=
  match e with EvCallback _ => true | _ => false end.

Section WithSys.
Context {W : Type} `{Sys W}.

Record t := mk {
  waiter : option nat;
  nonblocking_localname : LocalPath.t;
  mtime : Z;
  size : Z;
  retry : bool;
  isAsyncOpened : bool;
  numAsyncReads : Z;
  os : W;
  trace : list event
}.

(** [FileAccess::FileAccess]: the constructor sets the
    waiter, [isAsyncOpened] and [numAsyncReads]; the name is a default
    constructed [LocalPath]; [mtime], [size] and [retry] are whatever
    the derived class makes them. *)
Definition create (w : option nat) (mtime0 size0 : Z) (retry0 : bool) (os0 : W) : t :=
  {| waiter := w; nonblocking_localname := LocalPath.mk [];
     mtime := mtime0; size := size0; retry := retry0;
     isAsyncOpened := false; numAsyncReads := 0; os := os0; trace := [] |}.

Definition set_name (fa : t) (n : LocalPath.t) : t :=
  mk (waiter fa) n (mtime fa) (size fa) (retry fa) (isAsyncOpened fa)
     (numAsyncReads fa) (os fa) (trace fa).
Definition set_stat (fa : t) (m s : Z) : t :=
  mk (waiter fa) (nonblocking_localname fa) m s (retry fa) (isAsyncOpened fa)
     (numAsyncReads fa) (os fa) (trace fa).
Definition set_retry (fa : t) (r : bool) : t :=
  mk (waiter fa) (nonblocking_localname fa) (mtime fa) (size fa) r
     (isAsyncOpened fa) (numAsyncReads fa) (os fa) (trace fa).
Definition set_isAsyncOpened (fa : t) (b : bool) : t :=
  mk (waiter fa) (nonblocking_localname fa) (mtime fa) (size fa) (retry fa) b
     (numAsyncReads fa) (os fa) (trace fa).
Definition set_numAsyncReads (fa : t) (n : Z) : t :=
  mk (waiter fa) (nonblocking_localname fa) (mtime fa) (size fa) (retry fa)
     (isAsyncOpened fa) n (os fa) (trace fa).
Definition set_os (fa : t) (w : W) : t :=
  mk (waiter fa) (nonblocking_localname fa) (mtime fa) (size fa) (retry fa)
     (isAsyncOpened fa) (numAsyncReads fa) w (trace fa).
Definition emit (fa : t) (e : event) : t :=
  mk (waiter fa) (nonblocking_localname fa) (mtime fa) (size fa) (retry fa)
     (isAsyncOpened fa) (numAsyncReads fa) (os fa) (trace fa ++ [e]).

(** A call of the virtual [sysstat(&m, &s)]: on success the two
    values it stores, on failure the retry flag it leaves. *)
Definition call_sysstat (fa : t) : option (Z * Z) * t :=
  let '(r, w) := sysstat (nonblocking_localname fa) (os fa) in
  let fa := emit (set_os fa w) EvSysStat in
  match r with
  | StatOk m s => (Some (m, s), fa)
  | StatError rt => (None, set_retry fa rt)
  end.

(** A call of the virtual [sysopen(async)]. *)
Definition call_sysopen (async : bool) (fa : t) : bool * t :=
  let '(r, w) := sysopen async (nonblocking_localname fa) (os fa) in
  let fa := emit (set_os fa w) (EvSysOpen async) in
  match r with
  | OpenOk => (true, fa)
  | OpenError rt => (false, set_retry fa rt)
  end.

(** A call of the virtual [sysclose()]. *)
Definition call_sysclose (fa : t) : t :=
  emit (set_os fa (sysclose (os fa))) EvSysClose.

(** [std::string::resize(n)]: truncate, or pad with NUL. *)
Definition resize (s : cppstring) (n : nat) : cppstring :=
  take n s ++ replicate (n - length s) NUL.

(** Modelled from the spec: [updatelocalname] is pure virtual; [fopen]
    "remembers the path for later reopen": a name that is kept (not
    empty) is replaced by the new one. *)
Definition updatelocalname (name : LocalPath.t) (fa : t) : t :=
  if LocalPath.empty (nonblocking_localname fa) then fa
  else set_name fa name.

(** [fopen(LocalPath&)]: open file for reading. *)
Definition fopen (name : LocalPath.t) (fa : t) : bool * t :=
  let fa := set_name fa
    (LocalPath.mk (resize (LocalPath.localpath (nonblocking_localname fa)) 1)) in
  let fa := updatelocalname name fa in
  match call_sysstat fa with
  | (Some (m, s), fa) => (true, set_stat fa m s)
  | (None, fa) => (false, fa)
  end.

(** [openf]: check if size and mtime are unchanged, then open for
    reading. *)
Definition openf (fa : t) : bool * t :=
  if LocalPath.empty (nonblocking_localname fa) then
    (* file was not opened in nonblocking mode *)
    (true, fa)
  else
    match call_sysstat fa with
    | (None, fa) => (false, fa)
    | (Some (curr_mtime, curr_size), fa) =>
        if negb (bool_decide (curr_mtime = mtime fa))
           || negb (bool_decide (curr_size = size fa))
        then (false, set_retry (set_stat fa curr_mtime curr_size) false)
        else call_sysopen false fa
    end.

Definition closef (fa : t) : t :=
  if negb (LocalPath.empty (nonblocking_localname fa)) then call_sysclose fa
  else fa.

(** [asyncopfinished(param)]: notify the waiter, if there is one. *)
Definition run_callback (cb : callback) (param : option nat) (fa : t) : t :=
  match cb, param with
  | asyncopfinished, Some w => emit fa (EvWaiterNotify w)
  | asyncopfinished, None => fa
  end.

(** [context->userCallback(context->userData)]; a [NULL] callback
    cannot be called. *)
Definition invoke (c : AsyncIOContext) (fa : t) : option t :=
  match userCallback c with
  | Some cb => Some (run_callback cb (userData c) (emit fa (EvCallback c)))
  | None => None
  end.

(** [if (context->userCallback) context->userCallback(context->userData)]. *)
Definition invoke_if_set (c : AsyncIOContext) (fa : t) : t :=
  match userCallback c with
  | Some cb => run_callback cb (userData c) (emit fa (EvCallback c))
  | None => fa
  end.

(** [AsyncIOContext::AsyncIOContext], through [newasynccontext]. *)
Definition newasynccontext : AsyncIOContext :=
  {| op := NONE; pos := 0; len := 0; pad := 0; buffer := None;
     ctx_waiter := None; access := ACCESS_NONE;
     userCallback := None; userData := None;
     finished := false; failed := false; ctx_retry := false |}.

(** The assignments every [async*] function makes to a new context. *)
Definition prepare (o : op_t) (acc pos' len' pad' : Z) (buf : option cppstring)
    (fa : t) : AsyncIOContext :=
  {| op := o; access := acc; pos := pos'; len := len'; pad := pad';
     buffer := buf; ctx_waiter := waiter fa;
     userCallback := Some asyncopfinished; userData := waiter fa;
     finished := finished newasynccontext;
     failed := failed newasynccontext;
     ctx_retry := ctx_retry newasynccontext |}.

(** [failed = f; retry = r; finished = true]. *)
Definition complete (c : AsyncIOContext) (f r : bool) : AsyncIOContext :=
  {| op := op c; access := access c; pos := pos c; len := len c; pad := pad c;
     buffer := buffer c; ctx_waiter := ctx_waiter c;
     userCallback := userCallback c; userData := userData c;
     finished := true; failed := f; ctx_retry := r |}.

(** [unsigned(size())]. *)
Definition unsigned_of_size (n : nat) : Z := (Z.of_nat n mod 2 ^ 32)%Z.

(** [asyncfopen(LocalPath&)]. *)
Definition asyncfopen1 (f : LocalPath.t) (fa : t) : option (AsyncIOContext * t) :=
  let fa := set_name fa
    (LocalPath.mk (resize (LocalPath.localpath (nonblocking_localname fa)) 1)) in
  let fa := updatelocalname f fa in
  let context :=
    prepare OPEN ACCESS_READ (size fa)
      (unsigned_of_size (length (LocalPath.localpath f))) 0
      (Some (LocalPath.localpath f)) fa in
  let '(r, fa) :=
    match call_sysstat fa with
    | (Some (m, s), fa) => (true, set_stat fa m s)
    | (None, fa) => (false, fa)
    end in
  let context := complete context (negb r) (retry fa) in
  fa ← invoke context fa;
  Some (context, fa).

(** [asyncopenf]. *)
Definition asyncopenf (fa : t) : bool * t :=
  let fa := set_numAsyncReads fa (numAsyncReads fa + 1) in
  if LocalPath.empty (nonblocking_localname fa) then (true, fa)
  else if isAsyncOpened fa then (true, fa)
  else
    match call_sysstat fa with
    | (None, fa) => (false, fa)
    | (Some (curr_mtime, curr_size), fa) =>
        if negb (bool_decide (curr_mtime = mtime fa))
           || negb (bool_decide (curr_size = size fa))
        then (false, set_retry (set_stat fa curr_mtime curr_size) false)
        else
          match call_sysopen true fa with
          | (true, fa) => (true, set_isAsyncOpened fa true)
          | (false, fa) => (false, fa)
          end
    end.

(** [asyncclosef]. *)
Definition asyncclosef (fa : t) : t :=
  let fa := set_numAsyncReads fa (numAsyncReads fa - 1) in
  if isAsyncOpened fa && bool_decide (numAsyncReads fa = 0%Z)
  then call_sysclose (set_isAsyncOpened fa false)
  else fa.

(** [asyncsysopen], [asyncsysread], [asyncsyswrite] of the base
    class: fail at once. *)
Definition asyncsysopen (context : AsyncIOContext) (fa : t) : AsyncIOContext * t :=
  let context := complete context true false in
  (context, invoke_if_set context fa).
Definition asyncsysread := asyncsysopen.
Definition asyncsyswrite := asyncsysopen.

(** [asyncfopen(LocalPath&, bool read, bool write, m_off_t pos)]. *)
Definition asyncfopen (f : LocalPath.t) (read write : bool) (pos' : Z) (fa : t)
  : AsyncIOContext * t :=
  let context :=
    prepare OPEN
      (Z.lor (Z.lor ACCESS_NONE (if read then ACCESS_READ else 0))
             (if write then ACCESS_WRITE else 0))
      pos' (unsigned_of_size (length (LocalPath.localpath f))) 0
      (Some (LocalPath.localpath f)) fa in
  asyncsysopen context fa.

(** [asyncfread(string* dst, unsigned len, unsigned pad, m_off_t pos)];
    [dst] is resized to the [unsigned] sum [len + pad]. *)
Definition asyncfread (dst : cppstring) (len' pad' : nat) (pos' : Z) (fa : t)
  : option (AsyncIOContext * t) :=
  let dst := resize dst (Z.to_nat (unsigned_of_size (len' + pad'))) in
  let context := prepare READ ACCESS_NONE pos' (Z.of_nat len') (Z.of_nat pad')
                   (Some dst) fa in
  match asyncopenf fa with
  | (false, fa) =>
      let context := complete context true (retry fa) in
      fa ← invoke context fa;
      Some (context, fa)
  | (true, fa) => Some (asyncsysread context fa)
  end.

(** [asyncfwrite(const byte* data, unsigned len, m_off_t pos)]. *)
Definition asyncfwrite (data : cppstring) (len' : nat) (pos' : Z) (fa : t)
  : AsyncIOContext * t :=
  let context := prepare WRITE ACCESS_NONE pos' (Z.of_nat len') 0 (Some data) fa in
  asyncsyswrite context fa.

(** [AsyncIOContext::finish]: when the context is not finished, the
    loop re-arms the waiter and waits until a backend has set
    [finished]: with [rounds = Some n] it does so during wait number
    [n + 1], with [None] never, and the loop does not end.  Then the
    waiter is notified again.  Without a waiter the loop dereferences
    [NULL]. *)
Fixpoint finish_wait (w : nat) (rounds : nat) (fa : t) : t :=
  match rounds with
  | 0 => fa
  | S n => finish_wait w n (emit (emit fa (EvWaiterInit w)) (EvWaiterWait w))
  end.

Definition finish (c : AsyncIOContext) (rounds : option nat) (fa : t)
  : option (AsyncIOContext * t) :=
  if finished c then Some (c, fa)
  else
    match ctx_waiter c, rounds with
    | Some w, Some n =>
        Some (complete c (failed c) (ctx_retry c),
              emit (finish_wait w (S n) fa) (EvWaiterNotify w))
    | _, _ => None
    end.

(** [AsyncIOContext::~AsyncIOContext]: [fa] is the [FileAccess] the
    context refers to. *)
Definition destroy (c : AsyncIOContext) (rounds : option nat) (fa : t) : option t :=
  '(c, fa) ← finish c rounds fa;
  if bool_decide (op c = READ) then Some (asyncclosef fa) else Some fa.

(** What happened between two states of a [FileAccess]. *)
Definition events_since (fa fa' : t) : list event :=
  drop (length (trace fa)) (trace fa').

(** Between [fa] and [fa'] the context [c] has been completed and its
    callback invoked once, with the context as it is returned. *)
Definition completed_once (fa fa' : t) (c : AsyncIOContext) : Prop :=
  finished c = true /\
  trace fa `prefix_of` trace fa' /\
  List.filter is_callback (events_since fa fa') = [EvCallback c].

(** [FileAccess::~FileAccess]: what its assertion asks for. *)
Definition destructor_assertion (fa : t) : Prop :=
  numAsyncReads fa = 0%Z /\ isAsyncOpened fa = false.

(** The asynchronous handle is open only while a reader is counted. *)
Definition readers_ok (fa : t) : Prop :=
  (0 <= numAsyncReads fa)%Z /\
  (isAsyncOpened fa = true -> (1 <= numAsyncReads fa)%Z).

End WithSys.

Arguments t W : clear implicits.

(** A scripted platform for examples: the replies of the coming stats,
    in order (a stat beyond the script fails for good); every open
    succeeds. *)
#[global] Instance scripted : Sys (list stat_reply) := {|
  sysstat := fun _ w =>
    match w with
    | r :: w' => (r, w')
    | [] => (StatError false, [])
    end;
  sysopen := fun _ _ w => (OpenOk, w);
  sysclose := fun w => w
|}.

(** *** Synchronous reads *)

(** Modelled from the spec: [sysread(dst, len, pos)] is pure virtual;
    it is to "read exactly [len] bytes at [pos]" and reports success.
    A reply is that report with the bytes the call has stored at [dst],
    of which the first [len] at most count. *)
Class SysRead (W : Type) := {
  sysread : nat -> Z -> W -> bool * cppstring * W
}.

(** Bytes stored at the start of a buffer; storing past its end is
    undefined. *)
Definition store (buf bytes : cppstring) : option cppstring :=
  if decide (length bytes <= length buf)
  then Some (bytes ++ drop (length bytes) buf)
  else None.

(** [memset(dst + len, 0, pad)]. *)
Definition memset0 (buf : cppstring) (len' pad' : nat) : option cppstring :=
  if decide (len' + pad' <= length buf)
  then Some (take len' buf ++ replicate pad' NUL ++ drop (len' + pad') buf)
  else None.

Section WithSysRead.
Context {W : Type} `{Sys W} `{SysRead W}.

(** A call of the virtual [sysread(dst, len, pos)]; the trace keeps no
    record of reads. *)
Definition call_sysread (dst : cppstring) (len' : nat) (pos' : Z) (fa : t W)
  : option (bool * cppstring * t W) :=
  let '(r, bytes, w) := sysread len' pos' (os fa) in
  dst ← store dst (take len' bytes);
  Some (r, dst, set_os fa w).

(** [fread(string* dst, unsigned len, unsigned pad, m_off_t pos)]: the
    result, [dst] and the [FileAccess] afterwards. *)
Definition fread (dst : cppstring) (len' pad' : nat) (pos' : Z) (fa : t W)
  : option (bool * cppstring * t W) :=
  match openf fa with
  | (false, fa) => Some (false, dst, fa)
  | (true, fa) =>
      let dst := resize dst (Z.to_nat (unsigned_of_size (len' + pad'))) in
      '(r, dst, fa) ← call_sysread dst len' pos' fa;
      dst ← (if r : bool then memset0 dst len' pad' else Some dst);
      Some (r, dst, closef fa)
  end.

(** [frawread(byte* dst, unsigned len, m_off_t pos, bool caller_opened)];
    [dst] is the buffer the pointer refers to. *)
Definition frawread (dst : cppstring) (len' : nat) (pos' : Z)
    (caller_opened : bool) (fa : t W) : option (bool * cppstring * t W) :=
  let '(opened, fa) := if caller_opened then (true, fa) else openf fa in
  if opened then
    '(r, dst, fa) ← call_sysread dst len' pos' fa;
    Some (r, dst, if caller_opened then fa else closef fa)
  else Some (false, dst, fa).

End WithSysRead.

(** A scripted platform for examples of reads: the file's bytes; a
    read succeeds when the file has [len] bytes from [pos] on. *)
Definition file_read (content : cppstring) (len' : nat) (pos' : Z)
  : bool * cppstring :=
  let bytes := take len' (drop (Z.to_nat pos') content) in
  (bool_decide (0 <= pos')%Z && Nat.eqb (length bytes) len', bytes).

Definition scripted_read (content : cppstring) : SysRead (list stat_reply) := {|
  sysread := fun len' pos' w => (file_read content len' pos', w)
|}.

End FileAccess.

(** * Properties *)

(** ** Escaping and unescaping of names *)

Module EscapeFacts.
Import FileSystemAccess.

Ltac all_chars c :=
  destruct c as [[|] [|] [|] [|] [|] [|] [|] [|]].

Lemma char_at_app_r (a z : cppstring) (k : nat) :
  char_at (a ++ z) (length a + k) = char_at z k.
Proof.
  unfold char_at. rewrite lookup_app_r by lia.
  replace (length a + k - length a) with k by lia. reflexivity.
Qed.

Lemma char_at_ge (s : cppstring) (i : nat) :
  length s <= i -> char_at s i = NUL.
Proof. intros Hi. unfold char_at. rewrite lookup_ge_None_2 by lia. reflexivity. Qed.

Lemma replace_middle (a m r z : cppstring) :
  replace (a ++ m ++ z) (length a) (length m) r = a ++ r ++ z.
Proof.
  unfold replace. rewrite take_app_length.
  rewrite drop_app_add', drop_app_length by reflexivity. reflexivity.
Qed.

(** The hexadecimal digits written for an incompatible character are
    lower case digits, none is a percent sign, and they decode to the
    character. *)
Lemma sprintf_decodes (c : ascii) :
  islocalfscompatible c = false ->
  let h := hexdigit (code c / 16) in
  let l := hexdigit (code c mod 16) in
  Ascii.eqb h "%" = false /\ Ascii.eqb l "%" = false /\
  islchex h = true /\ islchex l = true /\
  to_char (Z.shiftl (hexval h) 4 + hexval l) = c.
Proof.
  all_chars c; vm_compute; intros Hc; try discriminate Hc; repeat split.
Qed.

(** Every character of an escape sequence is compatible. *)
Lemma escape_char_compatible (c : ascii) :
  Forall (fun c' => islocalfscompatible c' = true) (escape_char c).
Proof.
  assert (Hb : forallb islocalfscompatible (escape_char c) = true)
    by (all_chars c; vm_compute; reflexivity).
  apply Forall_forall. intros x Hx%list_elem_of_In.
  revert x Hx. by apply forallb_forall.
Qed.

Lemma escape_char_not_nil (c : ascii) : escape_char c <> [].
Proof. unfold escape_char. destruct (islocalfscompatible c); discriminate. Qed.

(** The loop of [escapefsincompatible] escapes character by character. *)
Lemma escape_loop_app (p y : cppstring) :
  escape_loop (length p) (p ++ y) = flat_map escape_char p ++ y.
Proof.
  revert y. induction p as [|c p IH] using rev_ind; intros y; [reflexivity|].
  rewrite length_app, Nat.add_1_r. cbn [escape_loop].
  replace (char_at ((p ++ [c]) ++ y) (length p)) with c.
  2:{ rewrite <- (Nat.add_0_r (length p)), <- app_assoc, char_at_app_r.
      reflexivity. }
  rewrite flat_map_app. cbn [flat_map]. rewrite app_nil_r, <- !app_assoc.
  unfold escape_char. destruct (islocalfscompatible c).
  - apply IH.
  - pose proof (replace_middle p [c] (sprintf_pct02x c) y) as R.
    cbn [length app] in R |- *. rewrite R. apply IH.
Qed.

Lemma escape_loop_flat_map (x : cppstring) :
  escape_loop (length x) x = flat_map escape_char x.
Proof.
  rewrite <- (app_nil_r x) at 2. rewrite escape_loop_app. apply app_nil_r.
Qed.

Lemma flat_map_escape_compatible (x : cppstring) :
  Forall (fun c => islocalfscompatible c = true) (flat_map escape_char x).
Proof.
  induction x as [|c x IH]; cbn [flat_map]; [constructor|].
  apply Forall_app. split; [apply escape_char_compatible | exact IH].
Qed.

(** Compatible characters are left alone. *)
Lemma flat_map_escape_id (x : cppstring) :
  Forall (fun c => islocalfscompatible c = true) x ->
  flat_map escape_char x = x.
Proof.
  induction 1 as [|c x Hc _ IH]; [reflexivity|].
  cbn [flat_map]. unfold escape_char at 1. rewrite Hc, IH. reflexivity.
Qed.

(** An escaped name without a percent sign is the name itself. *)
Lemma flat_map_escape_no_percent (x : cppstring) :
  Forall (fun c => Ascii.eqb c "%" = false) (flat_map escape_char x) ->
  flat_map escape_char x = x.
Proof.
  induction x as [|c x IH]; [reflexivity|].
  cbn [flat_map]. intros [Hc Hx]%Forall_app.
  rewrite (IH Hx). unfold escape_char in *.
  destruct (islocalfscompatible c); [reflexivity|].
  inversion Hc as [|? ? H1 _]. discriminate H1.
Qed.

(** [escapefsincompatible], case by case. *)
Lemma escapefsincompatible_cases (x : cppstring) :
  (x = lit ".." /\ escapefsincompatible x = lit "%2e%2e") \/
  (x = lit "." /\ escapefsincompatible x = lit "%2e") \/
  (x <> lit ".." /\ x <> lit "." /\
   escapefsincompatible x = flat_map escape_char x).
Proof.
  unfold escapefsincompatible, str_eqb.
  destruct (bool_decide_reflect (x = lit "..")) as [->|H1]; [left; auto|].
  destruct (bool_decide_reflect (x = lit ".")) as [->|H2]; [right; left; auto|].
  right; right. rewrite escape_loop_flat_map. auto.
Qed.

(** The result of [escapefsincompatible] is never [.] or [..]. *)
Lemma escapefsincompatible_not_dots (x : cppstring) :
  escapefsincompatible x <> lit ".." /\ escapefsincompatible x <> lit ".".
Proof.
  destruct (escapefsincompatible_cases x)
    as [[_ ->]|[[_ ->]|(H1 & H2 & ->)]]; [split; discriminate..|].
  split; intros E; pose proof E as E'; rewrite flat_map_escape_no_percent in E';
    try (rewrite E; vm_compute; repeat constructor); congruence.
Qed.

Lemma escapefsincompatible_compatible (x : cppstring) :
  Forall (fun c => islocalfscompatible c = true) (escapefsincompatible x).
Proof.
  destruct (escapefsincompatible_cases x)
    as [[_ ->]|[[_ ->]|(H1 & H2 & ->)]];
    [vm_compute; repeat constructor..|apply flat_map_escape_compatible].
Qed.

(** C9.  A name that is the output of [escapefsincompatible] and holds
    no incompatible character is left unchanged by a second
    [escapefsincompatible]. *)
Theorem escapefsincompatible_idempotent (x name : cppstring) :
  name = escapefsincompatible x ->
  Forall (fun c => islocalfscompatible c = true) name ->
  escapefsincompatible name = name.
Proof.
  intros Hname Hcompat.
  destruct (escapefsincompatible_not_dots x) as [N2 N1]. rewrite <- Hname in N1, N2.
  destruct (escapefsincompatible_cases name)
    as [[E _]|[[E _]|(_ & _ & ->)]]; [congruence..|].
  apply flat_map_escape_id, Hcompat.
Qed.

Lemma escapefsincompatible_idempotent_witness :
  escapefsincompatible (lit "a/b:c*") = lit "a%2fb%3ac%2a" /\
  escapefsincompatible (lit "a%2fb%3ac%2a") = lit "a%2fb%3ac%2a".
Proof.
  split; [reflexivity|].
  apply (escapefsincompatible_idempotent (lit "a/b:c*")).
  - reflexivity.
  - vm_compute. repeat constructor.
Defined.

(** *** Unescaping *)

Lemma unescape_step_decodes (i : nat) (name : cppstring) :
  unescape_step i name =
  if decodes_at name i
  then replace name i 3
         [to_char (Z.shiftl (hexval (char_at name (i + 1))) 4
                   + hexval (char_at name (i + 2)))]
  else name.
Proof.
  unfold unescape_step, decodes_at.
  destruct (Ascii.eqb (char_at name i) "%"); [|reflexivity].
  destruct (islchex (char_at name (i + 1))); [|reflexivity].
  destruct (islchex (char_at name (i + 2))); [|reflexivity].
  cbn [andb]. destruct (islocalfscompatible _); reflexivity.
Qed.

(** The test at the end of a prefix looks at the rest only. *)
Lemma decodes_at_app (a z : cppstring) (k : nat) :
  decodes_at (a ++ z) (length a + k) = decodes_at z k.
Proof.
  unfold decodes_at.
  rewrite <- !Nat.add_assoc, !char_at_app_r. reflexivity.
Qed.

Lemma decodes_at_app0 (a z : cppstring) :
  decodes_at (a ++ z) (length a) = decodes_at z 0.
Proof. rewrite <- (decodes_at_app a z 0), Nat.add_0_r. reflexivity. Qed.

Lemma decodes_at_not_percent (s : cppstring) (i : nat) :
  Ascii.eqb (char_at s i) "%" = false -> decodes_at s i = false.
Proof. unfold decodes_at. intros ->. reflexivity. Qed.

Lemma has_escape_triplet_false (x : cppstring) :
  has_escape_triplet x = false -> forall i, decodes_at x i = false.
Proof.
  unfold has_escape_triplet. intros H i.
  destruct (decide (i < length x)) as [Hi|Hi].
  - destruct (decodes_at x i) eqn:E; [|reflexivity].
    rewrite <- H. symmetry. apply existsb_exists. exists i. split; [|exact E].
    apply in_seq. lia.
  - apply decodes_at_not_percent. rewrite char_at_ge by lia. reflexivity.
Qed.

(** Unescaping the escaped prefix [p] in front of a rest [y] that is
    already plain gives back [p], as long as the plain name holds no
    triplet of its own. *)
Lemma unescape_loop_escaped (p y : cppstring) :
  (forall i, decodes_at (p ++ y) i = false) ->
  unescape_loop (length (flat_map escape_char p)) (flat_map escape_char p ++ y)
  = p ++ y.
Proof.
  revert y. induction p as [|c p IH] using rev_ind; intros y Hno; [reflexivity|].
  rewrite <- app_assoc in Hno |- *. cbn [app] in Hno |- *.
  rewrite flat_map_app, <- app_assoc. cbn [flat_map]. rewrite app_nil_r.
  set (e := flat_map escape_char p) in *.
  unfold escape_char. destruct (islocalfscompatible c) eqn:Hc.
  - rewrite length_app, Nat.add_1_r. cbn [length unescape_loop app].
    rewrite unescape_step_decodes.
    rewrite decodes_at_app0, <- (decodes_at_app0 p), Hno. apply IH, Hno.
  - destruct (sprintf_decodes c Hc) as (Hh & Hl & Xh & Xl & Hdec).
    unfold sprintf_pct02x.
    set (h := hexdigit (code c / 16)) in *.
    set (l := hexdigit (code c mod 16)) in *.
    rewrite length_app. cbn [length].
    replace (length e + 3) with (S (S (S (length e)))) by lia.
    cbn [unescape_loop app].
    (* the two digits are no percent signs *)
    rewrite (unescape_step_decodes (S (S (length e)))).
    replace (S (S (length e))) with (length e + 2) at 1 by lia.
    rewrite decodes_at_app, decodes_at_not_percent by exact Hl.
    rewrite (unescape_step_decodes (S (length e))).
    replace (S (length e)) with (length e + 1) at 1 by lia.
    rewrite decodes_at_app, decodes_at_not_percent by exact Hh.
    (* the triplet decodes to [c] *)
    rewrite (unescape_step_decodes (length e)).
    rewrite decodes_at_app0.
    rewrite !char_at_app_r.
    assert (Hd : decodes_at ("%"%char :: h :: l :: y) 0 = true).
    { unfold decodes_at, char_at. cbn [lookup list_lookup Nat.add default from_option id].
      rewrite Xh, Xl, Hdec, Hc. reflexivity. }
    rewrite Hd. unfold char_at at 1 2.
    cbn [lookup list_lookup Nat.add default from_option id]. rewrite Hdec.
    pose proof (replace_middle e ["%"%char; h; l] [c] y) as R.
    cbn [length app] in R. rewrite R. cbn [app]. apply IH, Hno.
Qed.

(** The last two positions of a name cannot start a triplet. *)
Lemma unescape_step_end (n : nat) (s : cppstring) :
  length s <= n + 2 -> unescape_step n s = s.
Proof.
  intros Hn. unfold unescape_step.
  rewrite (char_at_ge s (n + 2)) by lia.
  rewrite andb_false_r. reflexivity.
Qed.

Lemma unescape_loop_end (k n : nat) (s : cppstring) :
  length s <= n + 2 -> unescape_loop (k + n) s = unescape_loop n s.
Proof.
  intros Hn. induction k as [|k IH]; [reflexivity|].
  cbn [Nat.add unescape_loop]. rewrite unescape_step_end by lia. exact IH.
Qed.

Lemma int_of_size_small (n : nat) :
  (Z.of_nat n < 2 ^ 31)%Z -> int_of_size n = Z.of_nat n.
Proof.
  intros Hn. unfold int_of_size.
  rewrite Z.mod_small by lia.
  destruct (Z.ltb_spec (Z.of_nat n) (2 ^ 31)); lia.
Qed.

(** The loop of [unescapefsincompatible] could as well start at the
    end of the name. *)
Lemma unescape_loop_from_size (s : cppstring) :
  (Z.of_nat (length s) < 2 ^ 31)%Z ->
  unescape_loop (Z.to_nat (int_of_size (length s) - 2)) s
  = unescape_loop (length s) s.
Proof.
  intros Hs. rewrite int_of_size_small by exact Hs.
  replace (Z.to_nat (Z.of_nat (length s) - 2)) with (length s - 2) by lia.
  symmetry.
  replace (length s) with ((length s - (length s - 2)) + (length s - 2)) at 1 by lia.
  apply unescape_loop_end. lia.
Qed.

(** Unescaping after escaping, without the conversions. *)
Lemma unescape_escape (x : cppstring) :
  x <> lit "%2e" -> x <> lit "%2e%2e" ->
  has_escape_triplet x = false ->
  (Z.of_nat (length (escapefsincompatible x)) < 2 ^ 31)%Z ->
  unescapefsincompatible (escapefsincompatible x) = x.
Proof.
  intros N1 N2 Hno Hlen.
  destruct (escapefsincompatible_cases x)
    as [[-> ->]|[[-> ->]|(_ & _ & E)]]; [reflexivity..|].
  rewrite E in *.
  assert (Hloop : unescape_loop (length (flat_map escape_char x))
                    (flat_map escape_char x) = x).
  { pose proof (unescape_loop_escaped x []) as L.
    rewrite !app_nil_r in L. apply L, has_escape_triplet_false, Hno. }
  unfold unescapefsincompatible, str_eqb.
  destruct (bool_decide_reflect (flat_map escape_char x = lit "%2e%2e")) as [E2|_].
  { rewrite E2 in Hloop. exfalso. apply N2. rewrite <- Hloop. reflexivity. }
  destruct (bool_decide_reflect (flat_map escape_char x = lit "%2e")) as [E1|_].
  { rewrite E1 in Hloop. exfalso. apply N1. rewrite <- Hloop. reflexivity. }
  rewrite unescape_loop_from_size by exact Hlen. exact Hloop.
Qed.

(** C1, as amended.  When [local2path] undoes [path2local],
    [local2name] undoes [name2local] on every presentation name
    (including [.] and [..]) that is not itself an escape of a dot name
    ([%2e], [%2e%2e]), holds no triplet of a percent sign and two lower
    case hexadecimal digits that encode an incompatible character, and
    whose escaped form is shorter than [2^31] bytes. *)
Theorem local2name_name2local (B : Binding) (x : cppstring) :
  (forall s, local2path (path2local s) = s) ->
  x <> lit "%2e" -> x <> lit "%2e%2e" ->
  has_escape_triplet x = false ->
  (Z.of_nat (length (escapefsincompatible x)) < 2 ^ 31)%Z ->
  local2name (name2local x) = x.
Proof.
  intros Hinv N1 N2 Hno Hlen. unfold local2name, name2local.
  rewrite Hinv. apply unescape_escape; assumption.
Qed.

Lemma local2name_name2local_witness :
  @local2name posix_like (@name2local posix_like (lit "50%: a/b?")) = lit "50%: a/b?"
  /\ @local2name posix_like (@name2local posix_like (lit "..")) = lit "..".
Proof.
  split; apply (local2name_name2local posix_like);
    first [ reflexivity | discriminate | (vm_compute; lia) | (intros s; reflexivity) ].
Defined.

(** C1, as stated, fails.  On a platform whose two conversions are the
    identity, a name that already holds an escape triplet comes back
    decoded, and the name [%2e] comes back as a dot. *)
Lemma local2name_name2local_counterexample :
  (forall s, @local2path posix_like (@path2local posix_like s) = s) /\
  (forall s, @path2local posix_like (@local2path posix_like s) = s) /\
  @local2name posix_like (@name2local posix_like (lit "%2f")) <> lit "%2f" /\
  @local2name posix_like (@name2local posix_like (lit "%2e")) <> lit "%2e".
Proof.
  split; [reflexivity|]. split; [reflexivity|].
  split; vm_compute; discriminate.
Qed.

End EscapeFacts.

(** ** Normalisation of names with embedded NULs *)

Module NormalizeFacts.
Import FileSystemAccess.

Lemma c_str_app_nul (run t : cppstring) :
  NUL ∉ run -> c_str (run ++ NUL :: t) = run.
Proof.
  induction run as [|c run IH]; intros Hr; [reflexivity|].
  apply not_elem_of_cons in Hr as [Hc Hr]. cbn [app c_str].
  destruct (Ascii.eqb_spec c NUL) as [->|_]; [done|].
  by rewrite IH.
Qed.

Lemma c_str_id (run : cppstring) : NUL ∉ run -> c_str run = run.
Proof.
  induction run as [|c run IH]; intros Hr; [reflexivity|].
  apply not_elem_of_cons in Hr as [Hc Hr]. cbn [c_str].
  destruct (Ascii.eqb_spec c NUL) as [->|_]; [done|].
  by rewrite IH.
Qed.

(** A string is the C string at its start followed by nothing or by a
    NUL and the rest. *)
Lemma c_str_split (l : cppstring) :
  (NUL ∉ c_str l) /\
  (l = c_str l \/ exists t, l = c_str l ++ NUL :: t).
Proof.
  induction l as [|c l (IH1 & IH2)]; cbn [c_str].
  - split; [apply not_elem_of_nil | by left].
  - destruct (Ascii.eqb_spec c NUL) as [->|Hc].
    + split; [apply not_elem_of_nil | right; by exists l].
    + split; [by apply not_elem_of_cons|].
      destruct IH2 as [E|[t E]]; [left | right; exists t];
        cbn [app]; by rewrite <- E.
Qed.

(** The terminator of the buffer ends the last C string. *)
Lemma c_str_terminated (l : cppstring) : c_str (l ++ [NUL]) = c_str l.
Proof.
  induction l as [|c l IH]; [reflexivity|]. cbn [app c_str].
  destruct (Ascii.eqb c NUL); [reflexivity|]. by rewrite IH.
Qed.

Lemma char_at_middle (pre : cppstring) (c : ascii) (rest : cppstring) :
  char_at (pre ++ c :: rest) (length pre) = c.
Proof.
  unfold char_at. by rewrite list_lookup_middle.
Qed.

Section Runs.
Variable NFC : cppstring -> option cppstring.

Lemma split_on_nul_not_nil (s : cppstring) : split_on_nul s <> [].
Proof.
  destruct s as [|c s]; cbn [split_on_nul]; [done|].
  destruct (Ascii.eqb c NUL); [done|]. by destruct (split_on_nul s).
Qed.

Lemma split_on_nul_app (run tail : cppstring) :
  NUL ∉ run ->
  split_on_nul (run ++ tail) =
  match split_on_nul tail with
  | r :: rs => (run ++ r) :: rs
  | [] => [run]
  end.
Proof.
  induction run as [|c run IH]; intros Hr; cbn [app].
  - pose proof (split_on_nul_not_nil tail). by destruct (split_on_nul tail).
  - apply not_elem_of_cons in Hr as [Hc Hr]. cbn [split_on_nul].
    destruct (Ascii.eqb_spec c NUL) as [->|_]; [done|].
    rewrite (IH Hr). by destruct (split_on_nul tail).
Qed.

Lemma assembled_nil (result : cppstring) : assembled NFC result [] = result.
Proof. unfold assembled. cbn. apply app_nil_r. Qed.

Lemma assembled_nul (result rest : cppstring) :
  assembled NFC result (NUL :: rest) = assembled NFC (result ++ [NUL]) rest.
Proof.
  unfold assembled. cbn [split_on_nul]. change (Ascii.eqb NUL NUL) with true.
  cbn [mapM normalize_run]. simpl mbind at 1.
  pose proof (split_on_nul_not_nil rest) as Hne.
  destruct (mapM (normalize_run NFC) (split_on_nul rest)) as [runs|] eqn:E;
    [|reflexivity].
  cbn. destruct runs as [|r rs].
  - apply length_mapM in E. destruct (split_on_nul rest); [done|discriminate].
  - by rewrite <- app_assoc.
Qed.

Lemma assembled_run (result run tail : cppstring) :
  run <> [] -> NUL ∉ run -> (tail = [] \/ exists t, tail = NUL :: t) ->
  assembled NFC result (run ++ tail) =
  match NFC run with
  | Some n => assembled NFC (result ++ n) tail
  | None => []
  end.
Proof.
  intros Hne Hr Ht. unfold assembled. rewrite (split_on_nul_app _ _ Hr).
  assert (Hs : exists rs, split_on_nul tail = [] :: rs).
  { destruct Ht as [->|[t ->]]; cbn [split_on_nul]; eauto. }
  destruct Hs as [rs ->]. rewrite app_nil_r.
  assert (Hrun : normalize_run NFC run = NFC run)
    by (destruct run; [done|reflexivity]).
  cbn [mapM]. rewrite Hrun. cbn [normalize_run].
  destruct (NFC run) as [n|]; [|reflexivity]. simpl.
  destruct (mapM (normalize_run NFC) rs) as [runs|]; [|reflexivity].
  simpl. destruct runs; rewrite ?app_nil_r; [reflexivity|].
  by rewrite <- app_assoc.
Qed.

Hypothesis NFC_c_string : forall run out, NFC run = Some out -> NUL ∉ out.

(** The state of the loop at a position between runs: the bytes left
    are [rest], and the loop returns what the spec's words assemble
    from them. *)
Lemma normalize_loop_assembled (cf : cppstring) (fnsize i : nat) (result : cppstring) :
  forall pre rest : cppstring,
    cf = pre ++ rest ++ [NUL] -> i = length pre ->
    fnsize = length pre + length rest ->
    normalize_loop NFC cf fnsize i result = assembled NFC result rest.
Proof.
  funelim (normalize_loop NFC cf fnsize i result).
  all: intros pre rest Hcf Hi Hsz; subst cfilename i fnsize.
  - (* the end of the name *)
    destruct rest; [|cbn [length] in *; lia].
    symmetry. apply assembled_nil.
  - (* a NUL byte *)
    destruct rest as [|c rest]; [cbn [length] in *; lia|].
    match goal with
    | H : Ascii.eqb _ NUL = true |- _ => pose proof H as Hc
    end.
    cbn [app] in Hc. rewrite char_at_middle in Hc.
    apply Ascii.eqb_eq in Hc. rewrite Hc in *. clear Hc.
    rewrite assembled_nul.
    match goal with
    | IH : forall pre rest : cppstring, _ |- _ => apply (IH (pre ++ [NUL]) rest)
    end.
    + by rewrite <- !app_assoc.
    + rewrite length_app. reflexivity.
    + rewrite length_app. cbn [length]. lia.
  - (* a run that is normalised *)
    match goal with
    | H : NFC _ = Some _ |- _ => pose proof H as HN
    end.
    match goal with
    | IH : forall pre rest : cppstring, _ |- _ => rename IH into IH'
    end.
    rewrite drop_app_length, c_str_terminated in HN, IH' |- *.
    destruct rest as [|c rest]; [cbn [length] in *; lia|].
    match goal with
    | H : Ascii.eqb _ NUL = false |- _ => pose proof H as Hc
    end.
    cbn [app] in Hc. rewrite char_at_middle in Hc.
    set (r := c :: rest) in *.
    destruct (c_str_split r) as [Hrun Hsplit].
    assert (Hne : c_str r <> []) by (subst r; cbn [c_str]; by rewrite Hc).
    assert (Htail : exists tail, r = c_str r ++ tail /\
                      (tail = [] \/ exists t, tail = NUL :: t)).
    { destruct Hsplit as [E|[t E]].
      - exists []. rewrite app_nil_r. eauto.
      - exists (NUL :: t). eauto. }
    destruct Htail as (tail & Er & Htail).
    rewrite (c_str_id normalized) in IH' |- *
      by (eapply NFC_c_string; exact HN).
    replace (assembled NFC result r)
      with (assembled NFC result (c_str r ++ tail)) by congruence.
    rewrite (assembled_run _ _ _ Hne Hrun Htail), HN.
    apply (IH' (pre ++ c_str r) tail).
    + rewrite <- !app_assoc. f_equal. rewrite app_assoc, <- Er. reflexivity.
    + rewrite length_app. reflexivity.
    + rewrite length_app. rewrite Er at 1. rewrite length_app. lia.
  - (* a run that is refused *)
    match goal with
    | H : NFC _ = None |- _ => pose proof H as HN
    end.
    rewrite drop_app_length, c_str_terminated in HN.
    destruct rest as [|c rest]; [cbn [length] in *; lia|].
    match goal with
    | H : Ascii.eqb _ NUL = false |- _ => pose proof H as Hc
    end.
    cbn [app] in Hc. rewrite char_at_middle in Hc.
    set (r := c :: rest) in *.
    destruct (c_str_split r) as [Hrun Hsplit].
    assert (Hne : c_str r <> []) by (subst r; cbn [c_str]; by rewrite Hc).
    assert (Htail : exists tail, r = c_str r ++ tail /\
                      (tail = [] \/ exists t, tail = NUL :: t)).
    { destruct Hsplit as [E|[t E]].
      - exists []. rewrite app_nil_r. eauto.
      - exists (NUL :: t). eauto. }
    destruct Htail as (tail & Er & Htail).
    replace (assembled NFC result r)
      with (assembled NFC result (c_str r ++ tail)) by congruence.
    rewrite (assembled_run _ _ _ Hne Hrun Htail), HN.
    reflexivity.
Qed.

Lemma normalize_is_spec (filename : cppstring) :
  normalize NFC filename = normalize_spec NFC filename.
Proof.
  unfold normalize.
  rewrite (normalize_loop_assembled _ _ _ _ [] filename); reflexivity.
Qed.
End Runs.

(** C8.  [normalize] splits its input on embedded NUL bytes, applies
    the normaliser (any function that returns a C string or fails) to
    each non-empty run and reassembles the results with every NUL in
    place; when the normaliser fails on a run the result is the empty
    string, whatever has been assembled before. *)
Theorem normalize_splits_on_nul (NFC : cppstring -> option cppstring) :
  (forall run out, NFC run = Some out -> NUL ∉ out) ->
  (forall filename,
     normalize NFC filename =
     match mapM (normalize_run NFC) (split_on_nul filename) with
     | Some runs => join_with_nul runs
     | None => []
     end) /\
  (forall filename,
     Exists (fun run => run <> [] /\ NFC run = None) (split_on_nul filename) ->
     normalize NFC filename = []).
Proof.
  intros Hc. split.
  - intros filename. apply (normalize_is_spec NFC Hc).
  - intros filename Hex. rewrite (normalize_is_spec NFC Hc). unfold normalize_spec.
    replace (mapM (normalize_run NFC) (split_on_nul filename)) with (@None (list cppstring));
      [reflexivity|].
    symmetry. apply mapM_None. eapply Exists_impl; [exact Hex|].
    intros run [Hne HN]. destruct run; [done|exact HN].
Qed.

Lemma normalize_splits_on_nul_witness :
  normalize marking_NFC (lit "ab" ++ [NUL; NUL] ++ lit "c" ++ [NUL])
    = lit "ab'" ++ [NUL; NUL] ++ lit "c'" ++ [NUL]
  /\ normalize marking_NFC (lit "ab" ++ [NUL] ++ lit "bad" ++ [NUL] ++ lit "c") = [].
Proof.
  assert (Hc : forall run out, marking_NFC run = Some out -> NUL ∉ out).
  { intros run out. unfold marking_NFC.
    destruct (bool_decide_reflect (run = lit "bad")); [discriminate|].
    destruct (bool_decide_reflect (NUL ∈ run)) as [|Hn]; [discriminate|].
    cbn [orb]. intros [= <-]. rewrite elem_of_app. intros [H|H]; [done|].
    vm_compute in H. by repeat (inversion H as [|? ? ? H']; clear H; rename H' into H). }
  destruct (normalize_splits_on_nul marking_NFC Hc) as [Hspec Hfail]. split.
  - rewrite Hspec. reflexivity.
  - apply Hfail. vm_compute. apply Exists_cons_tl, Exists_cons_hd. by split.
Defined.

End NormalizeFacts.

(** ** The prefix test on local paths *)

Module LocalPathFacts.
Import FileSystemAccess LocalPath.

Lemma prefix_of_take (a b : cppstring) :
  a `prefix_of` b <-> take (length a) b = a.
Proof.
  split.
  - intros [k ->]. by rewrite take_app_length.
  - intros E. exists (drop (length a) b). by rewrite <- E at 1; rewrite take_drop.
Qed.

(** Comparing [n] bytes inside the buffers compares the strings. *)
Lemma memcmp_eq_data (p q : cppstring) (n : nat) :
  n <= length p -> n <= length q ->
  memcmp_eq (data p) (data q) n = Some (bool_decide (take n p = take n q)).
Proof.
  intros Hp Hq. unfold memcmp_eq, data.
  rewrite !length_app. cbn [length].
  destruct (decide _) as [_|Hn]; [|lia].
  by rewrite !take_app_le by lia.
Qed.

(** The test agrees with the contract whenever the bytes compared with
    the separator lie inside the child. *)
Lemma isContainingPathOf_in_bounds (B : Binding) (this path : t) :
  length (localpath path) <= length (localpath this) \/
  length (localpath this) + length localseparator <= length (localpath path) ->
  is_Some (isContainingPathOf this path) /\
  (isContainingPathOf this path = Some true <->
   contains_spec localseparator (localpath this) (localpath path)).
Proof.
  destruct this as [a], path as [b]. cbn [localpath]. intros Hb.
  unfold isContainingPathOf, contains_spec. cbn [localpath].
  destruct (decide (length a <= length b)) as [Hle|Hgt].
  2:{ split; [eauto|]. split; [discriminate|].
      intros [Hp%prefix_length _]. lia. }
  rewrite memcmp_eq_data by lia. rewrite firstn_all.
  rewrite prefix_of_take.
  destruct (bool_decide_reflect (take (length a) b = a)) as [Ht|Ht].
  2:{ split; [eauto|]. split; [discriminate|]. by intros [? _]. }
  destruct (Nat.eqb_spec (length b) (length a)) as [He|Hne].
  { split; [eauto|]. split; auto. }
  assert (Hs : length a + length localseparator <= length b) by lia.
  assert (Ed : drop (length a) (data b) = data (drop (length a) b)).
  { unfold data. by rewrite drop_app_le by lia. }
  rewrite Ed, memcmp_eq_data by (rewrite ?length_drop; lia).
  rewrite firstn_all, prefix_of_take.
  split; [eauto|].
  destruct (bool_decide_reflect
              (take (length localseparator) (drop (length a) b) = localseparator));
    split; try done; try tauto.
Qed.

Lemma aligned_in_bounds (sep : cppstring) (this path : t) :
  aligned sep this -> aligned sep path ->
  length (localpath path) <= length (localpath this) \/
  length (localpath this) + length sep <= length (localpath path).
Proof.
  intros [k1 E1] [k2 E2]. rewrite E1, E2.
  destruct (le_lt_dec k2 k1) as [Hk|Hk].
  - left. by apply Nat.mul_le_mono_r.
  - right. transitivity (S k1 * length sep); [cbn [Nat.mul]; lia|].
    apply Nat.mul_le_mono_r. lia.
Qed.

(** C7.  [parent.isContainingPathOf(child)] returns, and returns true
    exactly when the bytes of [child] begin with those of [parent] and
    the lengths are equal or a complete separator follows in [child] at
    the length of [parent]: whenever the bytes compared with the
    separator lie inside [child], and so for all local paths made of
    whole code units of the separator's size.  With a slash as
    separator, [/a/b] contains [/a/b/c] and does not contain [/a/bc]. *)
Theorem isContainingPathOf_contract :
  (forall (B : Binding) (parent child : t),
     length (localpath child) <= length (localpath parent) \/
     length (localpath parent) + length localseparator
       <= length (localpath child) ->
     is_Some (isContainingPathOf parent child) /\
     (isContainingPathOf parent child = Some true <->
      localpath parent `prefix_of` localpath child /\
      (length (localpath child) = length (localpath parent) \/
       localseparator `prefix_of`
         drop (length (localpath parent)) (localpath child)))) /\
  (forall (B : Binding) (parent child : t),
     aligned localseparator parent -> aligned localseparator child ->
     is_Some (isContainingPathOf parent child) /\
     (isContainingPathOf parent child = Some true <->
      localpath parent `prefix_of` localpath child /\
      (length (localpath child) = length (localpath parent) \/
       localseparator `prefix_of`
         drop (length (localpath parent)) (localpath child)))) /\
  @isContainingPathOf posix_like (mk (lit "/a/b")) (mk (lit "/a/b/c")) = Some true /\
  @isContainingPathOf posix_like (mk (lit "/a/b")) (mk (lit "/a/bc")) = Some false.
Proof.
  split; [|split; [|split; reflexivity]].
  - intros B parent child Hb. by apply isContainingPathOf_in_bounds.
  - intros B parent child Hp Hc.
    apply isContainingPathOf_in_bounds, aligned_in_bounds; assumption.
Qed.

Lemma isContainingPathOf_contract_witness :
  let parent := mk (lit "a" ++ [NUL]) in
  let child := mk (lit "a" ++ [NUL] ++ lit "\" ++ [NUL] ++ lit "b" ++ [NUL]) in
  (@isContainingPathOf wide_like parent child = Some true /\
   @localseparator wide_like `prefix_of`
     drop (length (localpath parent)) (localpath child)) /\
  @isContainingPathOf wide_like (mk (lit "a")) (mk (lit "a\" ++ [NUL] ++ lit "b"))
  = Some true.
Proof.
  intros parent child. split.
  - destruct (proj1 (proj2 isContainingPathOf_contract) wide_like parent child)
      as [_ [Hfw _]].
    + exists 1. reflexivity.
    + exists 3. reflexivity.
    + split; [reflexivity|].
      destruct (Hfw eq_refl) as [_ [Hlen|Hsep]]; [discriminate Hlen|exact Hsep].
  - apply (proj1 isContainingPathOf_contract wide_like
             (mk (lit "a")) (mk (lit "a\" ++ [NUL] ++ lit "b"))).
    + right. vm_compute. lia.
    + split; [by exists (lit "\" ++ [NUL] ++ lit "b")|].
      right. by exists (lit "b").
Defined.

(** Outside these bounds the comparison with a two byte separator
    reads the terminator of the child: a child that ends in the first
    byte of the separator, half a code unit, passes the test. *)
Lemma isContainingPathOf_half_separator :
  @isContainingPathOf wide_like (mk (lit "a" ++ [NUL])) (mk (lit "a" ++ [NUL] ++ lit "\"))
  = Some true.
Proof. reflexivity. Qed.

End LocalPathFacts.

(** ** The notification queues *)

Module DirNotifyFacts.
Import DirNotify.

Lemma last_snoc_inv {A} (l : list A) (e : A) :
  last l = Some e -> l = removelast l ++ [e].
Proof.
  intros H. destruct l as [|x l] using rev_ind; [discriminate|].
  rewrite last_snoc in H. injection H as ->.
  by rewrite removelast_last.
Qed.

Lemma notifyq_set_same (d : t) (q : notifyqueue) (l : list Notification) :
  notifyq (set_notifyq d q l) q = l.
Proof. cbn. by rewrite decide_True. Qed.

Lemma notifyq_set_other (d : t) (q q' : notifyqueue) (l : list Notification) :
  q' <> q -> notifyq (set_notifyq d q l) q' = notifyq d q'.
Proof. intros Hq. cbn. by rewrite decide_False. Qed.

(** The first condition of [notify], in words. *)
Lemma repeated_true (d : t) (q : notifyqueue) (l : ptr) (p : LocalPath.t) :
  repeated d q l p = true <->
  direvents_or_extra q = true /\
  exists e, last (notifyq d q) = Some e /\ localnode e = l /\ path e = p.
Proof.
  unfold repeated. destruct (direvents_or_extra q); cbn [andb].
  2:{ split; [discriminate|intros [? _]; discriminate]. }
  destruct (last (notifyq d q)) as [e|].
  2:{ split; [discriminate|intros [_ (e & ? & _)]; discriminate]. }
  rewrite andb_true_iff, !bool_decide_eq_true. split.
  - intros [Hl Hp]. split; [reflexivity|]. exists e. auto.
  - intros [_ (e' & [= <-] & Hl & Hp)]. auto.
Qed.

(** The refresh, on a queue that ends in [e]. *)
Lemma refresh_back_last (ds : Z) (immediate : bool) (l : list Notification)
    (e : Notification) :
  last l = Some e ->
  refresh_back ds immediate l =
  removelast l ++
    [set_timestamp e (if bool_decide (timestamp e = 0%Z) then 0%Z
                      else if immediate then 0%Z else ds)].
Proof.
  intros H. unfold refresh_back. rewrite H.
  case_bool_decide as Hz; [|reflexivity].
  rewrite (last_snoc_inv _ _ H) at 1. do 2 f_equal.
  destruct e; cbn in *; by subst.
Qed.

Lemma removelast_snoc {A} (l : list A) (x : A) : removelast (l ++ [x]) = l.
Proof. apply removelast_last. Qed.

(** A repeated notification: the branch taken and the state left. *)
Lemma notify_repeated_branch (E : Engine) (ds : Z) (q : notifyqueue) (l : ptr)
    (p : LocalPath.t) (immediate : bool) (d : t) :
  repeated d q l p = true ->
  notify E ds q l p immediate d =
  Some (RepeatedSkipped, set_notifyq d q (refresh_back ds immediate (notifyq d q))).
Proof. intros H. unfold notify. by rewrite H. Qed.

(** An enqueued notification is the new [back()] of its queue. *)
Lemma notify_enqueued_inv (E : Engine) (ds : Z) (q : notifyqueue) (l : ptr)
    (p : LocalPath.t) (immediate : bool) (d d1 : t) :
  notify E ds q l p immediate d = Some (Enqueued, d1) ->
  notifyq d1 q =
  notifyq d q ++ [mkNotification (if immediate then 0%Z else ds) l p].
Proof.
  unfold notify.
  destruct (repeated d q l p); [discriminate|].
  destruct (self_check_applies d q immediate && self_notification E l p);
    [discriminate|].
  destruct (direvents_or_extra q).
  - destruct (sync d); [|discriminate].
    intros [= <-]. unfold enqueue. by rewrite notifyq_set_same.
  - intros [= <-]. unfold enqueue. by rewrite notifyq_set_same.
Qed.

(** C2, as amended.  On [DIREVENTS] and on [EXTRA], a notification for
    the node and path of the most recent entry of the queue enqueues
    nothing: all other entries and queues are left as they are, and the
    timestamp of that entry, when it is not 0, becomes 0 for an
    immediate call and the current tick otherwise; a timestamp that is
    0 stays 0.  So a non-immediate call right after a non-immediate
    call that enqueued the entry at a tick other than 0 leaves that one
    new entry, with the tick of the second call; and an immediate call
    right after a non-immediate call that enqueued the entry leaves
    that one new entry, with timestamp 0. *)
Theorem notify_repeated :
  (forall (E : Engine) (ds : Z) (q : notifyqueue) (l : ptr) (p : LocalPath.t)
          (immediate : bool) (d : t) (e : Notification),
     direvents_or_extra q = true ->
     last (notifyq d q) = Some e -> localnode e = l -> path e = p ->
     exists d',
       notify E ds q l p immediate d = Some (RepeatedSkipped, d') /\
       notifyq d' q =
         removelast (notifyq d q) ++
           [set_timestamp e (if bool_decide (timestamp e = 0%Z) then 0%Z
                             else if immediate then 0%Z else ds)] /\
       length (notifyq d' q) = length (notifyq d q) /\
       (forall q', q' <> q -> notifyq d' q' = notifyq d q') /\
       sync d' = sync d) /\
  (forall (E E' : Engine) (ds1 ds2 : Z) (q : notifyqueue) (l : ptr)
          (p : LocalPath.t) (d d1 : t),
     direvents_or_extra q = true -> ds1 <> 0%Z ->
     notify E ds1 q l p false d = Some (Enqueued, d1) ->
     exists d2,
       notify E' ds2 q l p false d1 = Some (RepeatedSkipped, d2) /\
       notifyq d2 q = notifyq d q ++ [mkNotification ds2 l p]) /\
  (forall (E E' : Engine) (ds1 ds2 : Z) (q : notifyqueue) (l : ptr)
          (p : LocalPath.t) (d d1 : t),
     direvents_or_extra q = true ->
     notify E ds1 q l p false d = Some (Enqueued, d1) ->
     exists d2,
       notify E' ds2 q l p true d1 = Some (RepeatedSkipped, d2) /\
       notifyq d2 q = notifyq d q ++ [mkNotification 0%Z l p]).
Proof.
  assert (Hmerge : forall (E : Engine) (ds : Z) (q : notifyqueue) (l : ptr)
            (p : LocalPath.t) (immediate : bool) (d : t) (e : Notification),
     direvents_or_extra q = true ->
     last (notifyq d q) = Some e -> localnode e = l -> path e = p ->
     exists d',
       notify E ds q l p immediate d = Some (RepeatedSkipped, d') /\
       notifyq d' q =
         removelast (notifyq d q) ++
           [set_timestamp e (if bool_decide (timestamp e = 0%Z) then 0%Z
                             else if immediate then 0%Z else ds)] /\
       length (notifyq d' q) = length (notifyq d q) /\
       (forall q', q' <> q -> notifyq d' q' = notifyq d q') /\
       sync d' = sync d).
  { intros E ds q l p immediate d e Hq Hlast Hl Hp.
    eexists. split.
    { apply notify_repeated_branch, repeated_true. split; [exact Hq|]. eauto. }
    rewrite notifyq_set_same, (refresh_back_last _ _ _ _ Hlast).
    split; [reflexivity|]. split.
    { rewrite (last_snoc_inv _ _ Hlast) at 2. rewrite !length_app. reflexivity. }
    split; [|reflexivity].
    intros q' Hq'. by apply notifyq_set_other. }
  split; [exact Hmerge|]. split.
  - intros E E' ds1 ds2 q l p d d1 Hq Hds Hfirst.
    apply notify_enqueued_inv in Hfirst.
    destruct (Hmerge E' ds2 q l p false d1 (mkNotification ds1 l p) Hq)
      as (d2 & Hn & Hq2 & _); [by rewrite Hfirst, last_snoc|reflexivity..|].
    exists d2. split; [exact Hn|].
    rewrite Hq2, Hfirst, removelast_snoc. cbn [timestamp].
    by rewrite bool_decide_eq_false_2.
  - intros E E' ds1 ds2 q l p d d1 Hq Hfirst.
    apply notify_enqueued_inv in Hfirst.
    destruct (Hmerge E' ds2 q l p true d1 (mkNotification ds1 l p) Hq)
      as (d2 & Hn & Hq2 & _); [by rewrite Hfirst, last_snoc|reflexivity..|].
    exists d2. split; [exact Hn|].
    rewrite Hq2, Hfirst, removelast_snoc. cbn [timestamp].
    destruct (bool_decide (ds1 = 0%Z)); reflexivity.
Qed.

Lemma notify_repeated_witness :
  let E := example_engine true example_folder example_node
             (mkFileStat false false false 0 TYPE_UNKNOWN 0 0) in
  let f := LocalPath.mk (lit "f") in
  exists d1 d2,
    notify E 3 EXTRA (Some 0) f false example_watcher = Some (Enqueued, d1) /\
    notify E 5 EXTRA (Some 0) f false d1 = Some (RepeatedSkipped, d2) /\
    notifyq d2 EXTRA = [mkNotification 5 (Some 0) f].
Proof.
  intros E f.
  assert (H1 : exists d1,
    notify E 3 EXTRA (Some 0) f false example_watcher = Some (Enqueued, d1))
    by (eexists; reflexivity).
  destruct H1 as [d1 H1].
  destruct (proj1 (proj2 notify_repeated) E E 3%Z 5%Z EXTRA (Some 0) f
              example_watcher d1) as (d2 & H2 & Hq); [reflexivity|lia|exact H1|].
  exists d1, d2. repeat split; assumption.
Defined.

(** C2, as stated, fails: an entry whose timestamp is 0 is not
    refreshed to the current tick by a non-immediate repetition. *)
Lemma notify_repeated_counterexample :
  ~ (forall (E : Engine) (ds : Z) (q : notifyqueue) (l : ptr) (p : LocalPath.t)
            (immediate : bool) (d : t) (e : Notification),
       direvents_or_extra q = true ->
       last (notifyq d q) = Some e -> localnode e = l -> path e = p ->
       exists d',
         notify E ds q l p immediate d = Some (RepeatedSkipped, d') /\
         notifyq d' q =
           removelast (notifyq d q) ++
             [set_timestamp e (if immediate then 0%Z else ds)]).
Proof.
  intros H.
  pose (f := LocalPath.mk (lit "f")).
  pose (e := mkNotification 0 (Some 0) f).
  destruct (H (example_engine true example_folder example_node
                 (mkFileStat false false false 0 TYPE_UNKNOWN 0 0))
              5%Z EXTRA (Some 0) f false
              (set_notifyq example_watcher EXTRA [e]) e)
    as (d' & Hn & Hq); [reflexivity..|].
  vm_compute in Hn. injection Hn as <-.
  vm_compute in Hq. discriminate Hq.
Qed.

(** *** Self-notification suppression *)

(** The condition of the source says (a) or (b). *)
Lemma self_notification_spec (E : Engine) (l : ptr) (p : LocalPath.t) :
  self_notification E l p = true <->
  deleted_consistently E l p \/ unchanged_on_disk E l p.
Proof.
  unfold self_notification, deleted_consistently, unchanged_on_disk.
  destruct (localnodebypath E l p) as [a|] eqn:Hll.
  - split.
    { intros H. right.
      destruct (fs_success (fopen E (tmppath E l p))) eqn:Hs; [|discriminate].
      destruct (ln_node (localnode_at E a)) as [na|] eqn:Hn; [|discriminate].
      cbn [andb] in H.
      destruct (n_attrs (node_at E na) !! attr_n) as [name|] eqn:Ha.
      2:{ rewrite andb_false_r in H. discriminate. }
      repeat (apply andb_true_iff in H as [H ?]).
      repeat match goal with
             | H : bool_decide _ = true |- _ => apply bool_decide_eq_true in H
             end.
      exists a, na. cbn zeta. rewrite Hn, Ha. subst name.
      repeat split; try assumption; try congruence.
      all: match goal with
           | Hf : ln_type _ = FILENODE |- _ =>
               repeat match goal with
                      | H : negb (bool_decide (_ = FILENODE)) || _ = true |- _ =>
                          rewrite (bool_decide_eq_true_2 _ Hf) in H;
                          cbn [negb orb] in H
                      end
           end.
      * assumption.
      * match goal with
        | H : bool_decide _ && bool_decide _ = true |- _ =>
            apply andb_true_iff in H as [H _]; by apply bool_decide_eq_true in H
        end.
      * match goal with
        | H : bool_decide _ && bool_decide _ = true |- _ =>
            apply andb_true_iff in H as [_ H]; by apply bool_decide_eq_true in H
        end. }
    intros [(Hn & _)|(a' & na & Ha & Hs & Hn & Hb & Hattr & Hv & Hid & Hty & Hfile)];
        [discriminate|].
      injection Ha as <-. rewrite Hs, Hn, Hattr, Hv. cbn [andb].
      destruct (bool_decide_reflect (ln_type (localnode_at E a) = FILENODE)) as [Hf|Hf];
        cbn [negb orb andb].
      + destruct (Hfile Hf) as (-> & Hm & Hz).
        rewrite !bool_decide_eq_true_2 by (assumption || reflexivity).
        reflexivity.
      + rewrite !bool_decide_eq_true_2 by (assumption || reflexivity).
        reflexivity.
  - split.
    + intros [Hs Hr]%andb_true_iff. left.
      apply negb_true_iff in Hs, Hr. auto.
    + intros [(_ & -> & ->)|(a & na & Ha & _)]; [reflexivity|discriminate].
Qed.

Lemma self_check_applies_direvents (d : t) (s : Sync) :
  sync d = Some s -> initializing s = false ->
  self_check_applies d DIREVENTS false = true.
Proof. intros Hs Hi. unfold self_check_applies. by rewrite Hs, Hi. Qed.

(** C3, as amended.  A non-immediate notification on [DIREVENTS], for a
    watcher whose sync has completed its initial scan, that does not
    repeat the most recent entry, is dropped (nothing is enqueued, the
    watcher is as before) exactly when (a) the path resolves to no
    local node and its stat fails non-retryably, or (b) it resolves to
    a local node, the stat succeeds, the node has a remote node whose
    back reference is this local node and whose name attribute is the
    name of the local node, the stat gives a valid filesystem
    identifier equal to the node's and the node's type, and, for a
    file, the fingerprints are equal and mtime and size are those of
    the stat; otherwise the event is appended to the queue. *)
Theorem notify_self_notification (E : Engine) (ds : Z) (l : ptr)
    (p : LocalPath.t) (d : t) (s : Sync) :
  sync d = Some s -> initializing s = false ->
  repeated d DIREVENTS l p = false ->
  (notify E ds DIREVENTS l p false d = Some (SelfSkipped, d) <->
   deleted_consistently E l p \/ unchanged_on_disk E l p) /\
  (~ (deleted_consistently E l p \/ unchanged_on_disk E l p) ->
   exists d',
     notify E ds DIREVENTS l p false d = Some (Enqueued, d') /\
     notifyq d' DIREVENTS = notifyq d DIREVENTS ++ [mkNotification ds l p]).
Proof.
  intros Hs Hi Hrep. rewrite <- self_notification_spec.
  unfold notify. rewrite Hrep, (self_check_applies_direvents d s Hs Hi), Hs.
  cbn [andb direvents_or_extra bool_decide decide_rel orb].
  destruct (self_notification E l p).
  - split; [tauto|]. intros H. by destruct H.
  - split; [split; discriminate|]. intros _. eexists. split; [reflexivity|].
    unfold enqueue. by rewrite notifyq_set_same.
Qed.

Lemma notify_self_notification_witness :
  let E := example_engine false example_folder example_node
             (mkFileStat false false false 0 TYPE_UNKNOWN 0 0) in
  notify E 5 DIREVENTS (Some 0) (LocalPath.mk (lit "gone")) false example_watcher
  = Some (SelfSkipped, example_watcher).
Proof.
  intros E.
  apply (notify_self_notification E 5%Z (Some 0) (LocalPath.mk (lit "gone"))
           example_watcher (mkSync false false)); try reflexivity.
  left. repeat split.
Defined.

(** C3, as stated, fails in three ways.  On [EXTRA] an event for a
    path that is consistently deleted is enqueued; on [DIREVENTS] an
    event for a folder whose mtime differs from the stat is dropped;
    and an event for a node whose stat has another type, all else being
    equal, is enqueued. *)
Lemma notify_self_notification_counterexample :
  let f := LocalPath.mk (lit "f") in
  let deleted := example_engine false example_folder example_node
                   (mkFileStat false false false 0 TYPE_UNKNOWN 0 0) in
  let touched := example_engine true example_folder example_node
                   (mkFileStat true false true 7 FOLDERNODE 200 0) in
  let retyped := example_engine true example_folder example_node
                   (mkFileStat true false true 7 FILENODE 100 0) in
  (deleted_consistently deleted (Some 0) f /\
   exists d', notify deleted 5 EXTRA (Some 0) f false example_watcher
              = Some (Enqueued, d')) /\
  (~ deleted_consistently touched (Some 0) f /\
   ~ unchanged_as_specified touched (Some 0) f /\
   notify touched 5 DIREVENTS (Some 0) f false example_watcher
   = Some (SelfSkipped, example_watcher)) /\
  (unchanged_as_specified retyped (Some 0) f /\
   exists d', notify retyped 5 DIREVENTS (Some 0) f false example_watcher
              = Some (Enqueued, d')).
Proof.
  intros f deleted touched retyped. repeat split.
  - eexists. reflexivity.
  - intros (H & _). discriminate H.
  - intros (a & na & _ & _ & _ & _ & _ & _ & Hm & _). discriminate Hm.
  - exists 0, 0. repeat split.
  - eexists. reflexivity.
Qed.

(** *** The other queues *)

(** C10.  A non-immediate notification on a queue other than
    [DIREVENTS] is never dropped by the self-notification check,
    whatever the watcher and the engine.  When it repeats the most
    recent entry of its queue, it is merged into that entry; when it
    does not, a call that returns has appended it to the queue.  The
    call fails to return in one case only: on [EXTRA], for a
    notification that is not merged, when the watcher has no sync,
    which the source then dereferences. *)
Theorem notify_other_queues (E : Engine) (ds : Z) (q : notifyqueue) (l : ptr)
    (p : LocalPath.t) (d : t) :
  q <> DIREVENTS ->
  (forall d', notify E ds q l p false d <> Some (SelfSkipped, d')) /\
  (repeated d q l p = true ->
   notify E ds q l p false d =
   Some (RepeatedSkipped, set_notifyq d q (refresh_back ds false (notifyq d q)))) /\
  (repeated d q l p = false ->
   forall o d',
     notify E ds q l p false d = Some (o, d') ->
     o = Enqueued /\ notifyq d' q = notifyq d q ++ [mkNotification ds l p]) /\
  (notify E ds q l p false d = None <->
   repeated d q l p = false /\ q = EXTRA /\ sync d = None).
Proof.
  intros Hq.
  assert (Hno : self_check_applies d q false = false).
  { unfold self_check_applies. rewrite (bool_decide_eq_false_2 _ Hq).
    apply andb_false_r. }
  unfold notify. rewrite Hno. cbn [andb].
  destruct (repeated d q l p).
  { split; [discriminate|]. split; [done|]. split; [discriminate|].
    split; [discriminate|]. by intros [? _]. }
  split; [|split; [discriminate|split]].
  - intros d'. destruct (direvents_or_extra q); [|discriminate].
    destruct (sync d); discriminate.
  - intros _ o d'. destruct q; [done| |]; cbn.
    + destruct (sync d) as [s|]; [|discriminate].
      intros [= <- <-]. split; [done|]. unfold enqueue. by rewrite notifyq_set_same.
    + intros [= <- <-]. split; [done|]. unfold enqueue. by rewrite notifyq_set_same.
  - destruct q; [done| |]; cbn.
    + destruct (sync d) as [s|]; [|done].
      split; [discriminate|]. by intros (_ & _ & ?).
    + split; [discriminate|]. by intros (_ & ? & _).
Qed.

Lemma notify_other_queues_witness :
  let E := example_engine false example_folder example_node
             (mkFileStat false false false 0 TYPE_UNKNOWN 0 0) in
  let p := LocalPath.mk (lit "gone") in
  (forall d', notify E 5 EXTRA (Some 0) p false example_watcher
              <> Some (SelfSkipped, d')) /\
  exists d',
    notify E 5 EXTRA (Some 0) p false example_watcher = Some (Enqueued, d') /\
    notifyq d' EXTRA = [mkNotification 5 (Some 0) p].
Proof.
  intros E p.
  destruct (notify_other_queues E 5%Z EXTRA (Some 0) p example_watcher)
    as (Hnever & _ & Happ & _); [discriminate|].
  split; [exact Hnever|].
  eexists. split; [vm_compute; reflexivity|].
  apply (Happ eq_refl Enqueued). vm_compute; reflexivity.
Defined.

End DirNotifyFacts.

(** ** FileAccess: deferred open and asynchronous contexts *)

Module FileAccessFacts.
Import FileAccess.

Section WithSys.
Context {W : Type} `{Sys W}.

Lemma events_since_app (fa fa' : t W) (evs : list event) :
  trace fa' = trace fa ++ evs -> events_since fa fa' = evs.
Proof. intros E. unfold events_since. by rewrite E, drop_app_length. Qed.

(** [fopen] remembers the name. *)
Lemma fopen_name (name : LocalPath.t) (fa0 fa : t W) (r : bool) :
  fopen name fa0 = (r, fa) -> nonblocking_localname fa = name.
Proof.
  unfold fopen, updatelocalname, call_sysstat. cbn.
  assert (Hne : LocalPath.empty
            (LocalPath.mk (resize (LocalPath.localpath (nonblocking_localname fa0)) 1))
          = false).
  { unfold LocalPath.empty, resize. cbn.
    destruct (LocalPath.localpath (nonblocking_localname fa0)); reflexivity. }
  rewrite Hne. cbn.
  destruct (sysstat name (os fa0)) as [[m s|rt] w]; intros [= <- <-]; reflexivity.
Qed.

(** C4.  After an [fopen] of a path that is not empty has captured
    mtime and size, whatever has happened to the file since, an
    [openf] whose stat succeeds with another mtime or another size
    returns false, leaves the retry flag false and caches the values
    just seen; when both values are unchanged, [openf] performs the
    real open: after that stat it calls [sysopen] of the binding, once,
    not asynchronously, on the state the stat has left, and its result
    is the reply of that call, with the cached values as they were. *)
Theorem openf_detects_modification (name : LocalPath.t) (fa0 fa : t W)
    (w w' : W) (m s : Z) :
  LocalPath.empty name = false ->
  fopen name fa0 = (true, fa) ->
  sysstat name w = (StatOk m s, w') ->
  (m <> mtime fa \/ s <> size fa ->
   exists fa',
     openf (set_os fa w) = (false, fa') /\
     retry fa' = false /\ mtime fa' = m /\ size fa' = s) /\
  (m = mtime fa /\ s = size fa ->
   forall (r : open_reply) (w'' : W),
     sysopen false name w' = (r, w'') ->
     exists fa',
       openf (set_os fa w)
       = (match r with OpenOk => true | OpenError _ => false end, fa') /\
       events_since (set_os fa w) fa' = [EvSysStat; EvSysOpen false] /\
       os fa' = w'' /\
       retry fa' = match r with OpenOk => retry fa | OpenError rt => rt end /\
       mtime fa' = mtime fa /\ size fa' = size fa).
Proof.
  intros Hname Hopen Hstat.
  pose proof (fopen_name _ _ _ _ Hopen) as Hn.
  unfold openf, call_sysstat. cbn. rewrite Hn, Hname, Hstat. cbn.
  split.
  - intros Hdiff. eexists. split.
    + destruct (bool_decide_reflect (m = mtime fa)),
               (bool_decide_reflect (s = size fa)); cbn; try reflexivity.
      tauto.
    + repeat split.
  - intros [Hm Hs] r w'' Hso.
    rewrite (bool_decide_eq_true_2 _ Hm), (bool_decide_eq_true_2 _ Hs). cbn.
    unfold call_sysopen. cbn. rewrite Hn, Hso.
    destruct r as [|rt]; (eexists; split; [reflexivity|]);
      (split; [apply events_since_app; cbn; by rewrite <- app_assoc|]);
      cbn; done.
Qed.

(** *** The count of concurrent asynchronous readers *)

Lemma numAsyncReads_finish_wait (w n : nat) (fa : t W) :
  numAsyncReads (finish_wait w n fa) = numAsyncReads fa.
Proof.
  revert fa. induction n as [|n IH]; intros fa; [reflexivity|].
  cbn [finish_wait]. by rewrite IH.
Qed.

(** C5, as amended.  [asyncopenf] adds one to the count of concurrent
    readers, and opens the handle only when a name is remembered, no
    asynchronous handle is open yet ([isAsyncOpened] is false, which
    the count reaching the call need not be zero for) and the stat
    has succeeded with the cached mtime and size, the check of
    [openf]; [asyncclosef] takes one from the count and closes the
    handle only when a handle is open and the count has returned to
    zero; destroying a context whose operation is READ, once it is
    finished, takes exactly one from the count of its [FileAccess]. *)
Theorem async_reader_count :
  (forall (fa fa' : t W) (r : bool),
     asyncopenf fa = (r, fa') ->
     numAsyncReads fa' = (numAsyncReads fa + 1)%Z /\
     (EvSysOpen true ∈ events_since fa fa' ->
      LocalPath.empty (nonblocking_localname fa) = false /\
      isAsyncOpened fa = false /\
      exists w, sysstat (nonblocking_localname fa) (os fa)
                = (StatOk (mtime fa) (size fa), w))) /\
  (forall (fa : t W),
     numAsyncReads (asyncclosef fa) = (numAsyncReads fa - 1)%Z /\
     (EvSysClose ∈ events_since fa (asyncclosef fa) ->
      isAsyncOpened fa = true /\
      numAsyncReads (asyncclosef fa) = 0%Z /\
      isAsyncOpened (asyncclosef fa) = false)) /\
  (forall (c : AsyncIOContext) (rounds : option nat) (fa : t W),
     op c = READ ->
     finished c = true \/ (is_Some (ctx_waiter c) /\ is_Some rounds) ->
     exists fa',
       destroy c rounds fa = Some fa' /\
       numAsyncReads fa' = (numAsyncReads fa - 1)%Z).
Proof.
  split; [|split].
  - intros fa fa' r. unfold asyncopenf, call_sysstat, call_sysopen. cbn.
    destruct (LocalPath.empty (nonblocking_localname fa)) eqn:Hname.
    { intros [= <- <-]. cbn. split; [reflexivity|].
      rewrite (events_since_app _ _ []) by (cbn; by rewrite app_nil_r).
      by intros ?%elem_of_nil. }
    destruct (isAsyncOpened fa) eqn:Hopened.
    { intros [= <- <-]. cbn. split; [reflexivity|].
      rewrite (events_since_app _ _ []) by (cbn; by rewrite app_nil_r).
      by intros ?%elem_of_nil. }
    destruct (sysstat (nonblocking_localname fa) (os fa)) as [[m s|rt] w] eqn:Hstat;
      cbn.
    2:{ intros [= <- <-]. cbn. split; [reflexivity|].
        rewrite (events_since_app _ _ [EvSysStat]) by reflexivity.
        intros [=]%list_elem_of_singleton. }
    destruct (bool_decide_reflect (m = mtime fa)) as [->|Hm]; cbn.
    2:{ intros [= <- <-]. cbn. split; [reflexivity|].
        rewrite (events_since_app _ _ [EvSysStat]) by reflexivity.
        intros [=]%list_elem_of_singleton. }
    destruct (bool_decide_reflect (s = size fa)) as [->|Hs]; cbn.
    2:{ intros [= <- <-]. cbn. split; [reflexivity|].
        rewrite (events_since_app _ _ [EvSysStat]) by reflexivity.
        intros [=]%list_elem_of_singleton. }
    destruct (sysopen true (nonblocking_localname fa) w) as [[|rt] w'];
      cbn; intros [= <- <-]; cbn; (split; [reflexivity|]); intros _; eauto.
  - intros fa. unfold asyncclosef, call_sysclose. cbn.
    destruct (isAsyncOpened fa) eqn:Hopened; cbn.
    2:{ split; [reflexivity|].
        rewrite (events_since_app _ _ []) by (cbn; by rewrite app_nil_r).
        by intros ?%elem_of_nil. }
    destruct (bool_decide_reflect (numAsyncReads fa - 1 = 0)%Z) as [Hz|Hz]; cbn.
    + auto.
    + split; [reflexivity|].
      rewrite (events_since_app _ _ []) by (cbn; by rewrite app_nil_r).
      by intros ?%elem_of_nil.
  - intros c rounds fa Hop Hfin.
    assert (Hfinish : exists c' fa1,
              finish c rounds fa = Some (c', fa1) /\ op c' = READ /\
              numAsyncReads fa1 = numAsyncReads fa).
    { unfold finish. destruct (finished c) eqn:Hf; [eauto|].
      destruct Hfin as [?|[[w ->] [n ->]]]; [discriminate|].
      eexists _, _. split; [reflexivity|]. split; [exact Hop|].
      cbn [emit numAsyncReads]. apply numAsyncReads_finish_wait. }
    destruct Hfinish as (c' & fa1 & Hfinish & Hop' & Hcount).
    unfold destroy. rewrite Hfinish. cbn.
    rewrite (bool_decide_eq_true_2 _ Hop').
    eexists. split; [reflexivity|]. rewrite <- Hcount.
    unfold asyncclosef, call_sysclose. cbn.
    destruct (isAsyncOpened fa1 && bool_decide (numAsyncReads fa1 - 1 = 0)%Z);
      reflexivity.
Qed.

(** *** Completion of the base class's asynchronous operations *)

Lemma trace_run_callback (cb : callback) (ud : option nat) (fa : t W) :
  trace (run_callback cb ud fa) =
  trace fa ++ match ud with Some w => [EvWaiterNotify w] | None => [] end.
Proof. destruct cb, ud; cbn; by rewrite ?app_nil_r. Qed.

Lemma completed_once_intro (fa fa' : t W) (c : AsyncIOContext)
    (pre post : list event) :
  finished c = true ->
  trace fa' = trace fa ++ pre ++ EvCallback c :: post ->
  List.filter is_callback pre = [] -> List.filter is_callback post = [] ->
  completed_once fa fa' c.
Proof.
  intros Hf Ht Hpre Hpost. split; [exact Hf|]. split.
  - rewrite Ht. by apply prefix_app_r.
  - rewrite (events_since_app _ _ _ Ht), List.filter_app, Hpre.
    cbn. by rewrite Hpost.
Qed.

Lemma filter_callback_notify (ud : option nat) :
  List.filter is_callback
    match ud with Some w => [EvWaiterNotify w] | None => [] end = [].
Proof. by destruct ud. Qed.

(** A context that the [async*] functions have prepared is completed
    at once by [asyncsysopen], [asyncsysread] and [asyncsyswrite]. *)
Lemma asyncsysopen_completes (o : op_t) (acc pos' len' pad' : Z)
    (buf : option cppstring) (fa0 fa : t W) :
  let r := asyncsysopen (prepare o acc pos' len' pad' buf fa0) fa in
  completed_once fa (snd r) (fst r) /\ failed (fst r) = true.
Proof.
  intros r. subst r. unfold asyncsysopen, invoke_if_set.
  cbn [fst snd userCallback userData complete prepare].
  split; [|reflexivity].
  eapply (completed_once_intro _ _ _ []); [reflexivity| |reflexivity|].
  - rewrite trace_run_callback. cbn [trace emit app]. rewrite <- app_assoc.
    reflexivity.
  - apply filter_callback_notify.
Qed.

(** [asyncopenf] calls the binding only. *)
Lemma asyncopenf_trace (fa fa' : t W) (r : bool) :
  asyncopenf fa = (r, fa') ->
  exists evs, trace fa' = trace fa ++ evs /\ List.filter is_callback evs = [].
Proof.
  unfold asyncopenf, call_sysstat, call_sysopen. cbn.
  destruct (LocalPath.empty (nonblocking_localname fa)).
  { intros [= <- <-]. exists []. cbn. by rewrite app_nil_r. }
  destruct (isAsyncOpened fa).
  { intros [= <- <-]. exists []. cbn. by rewrite app_nil_r. }
  destruct (sysstat (nonblocking_localname fa) (os fa)) as [[m s|rt] w]; cbn.
  2:{ intros [= <- <-]. by exists [EvSysStat]. }
  destruct (negb (bool_decide (m = mtime fa)) || negb (bool_decide (s = size fa))).
  { intros [= <- <-]. by exists [EvSysStat]. }
  destruct (sysopen true (nonblocking_localname fa) w) as [[|rt] w'];
    cbn; intros [= <- <-]; exists [EvSysStat; EvSysOpen true];
    cbn; by rewrite <- app_assoc.
Qed.

(** C6, as amended.  In the base implementation every context
    returned by [asyncfopen] (either overload), [asyncfread] or
    [asyncfwrite] is completed when it is returned: its completion
    flag is true, and during the call its callback has been invoked
    exactly once, with the context as it is returned, that is, right
    after the flag was set.  The failure flag is true for the four
    argument [asyncfopen], for [asyncfread] and for [asyncfwrite];
    for [asyncfopen(f)] it is true exactly when the stat of [f]
    fails. *)
Theorem async_completes_synchronously :
  (forall (f : LocalPath.t) (fa : t W),
     exists c fa',
       asyncfopen1 f fa = Some (c, fa') /\
       completed_once fa fa' c /\
       (failed c = true <->
        exists rt w, sysstat f (os fa) = (StatError rt, w))) /\
  (forall (f : LocalPath.t) (read write : bool) (pos' : Z) (fa : t W),
     let r := asyncfopen f read write pos' fa in
     completed_once fa (snd r) (fst r) /\ failed (fst r) = true) /\
  (forall (dst : cppstring) (len' pad' : nat) (pos' : Z) (fa : t W),
     exists c fa',
       asyncfread dst len' pad' pos' fa = Some (c, fa') /\
       completed_once fa fa' c /\ failed c = true) /\
  (forall (data : cppstring) (len' : nat) (pos' : Z) (fa : t W),
     let r := asyncfwrite data len' pos' fa in
     completed_once fa (snd r) (fst r) /\ failed (fst r) = true).
Proof.
  split; [|split; [|split]].
  - intros f fa. unfold asyncfopen1, updatelocalname, call_sysstat. cbn.
    assert (Hne : LocalPath.empty
              (LocalPath.mk (resize (LocalPath.localpath (nonblocking_localname fa)) 1))
            = false).
    { unfold LocalPath.empty, resize. cbn.
      destruct (LocalPath.localpath (nonblocking_localname fa)); reflexivity. }
    rewrite Hne. cbn.
    destruct (sysstat f (os fa)) as [[m s|rt] w] eqn:Hstat; cbn.
    + destruct (waiter fa); cbn;
        (eexists _, _; split; [reflexivity|]; split;
         [|split; [discriminate|intros (rt & w' & [=])]]);
        (eapply (completed_once_intro _ _ _ [EvSysStat]);
         [reflexivity|cbn; rewrite <- ?app_assoc; reflexivity
         |reflexivity|reflexivity]).
    + destruct (waiter fa); cbn;
        (eexists _, _; split; [reflexivity|]; split;
         [|split; [eauto|reflexivity]]);
        (eapply (completed_once_intro _ _ _ [EvSysStat]);
         [reflexivity|cbn; rewrite <- ?app_assoc; reflexivity
         |reflexivity|reflexivity]).
  - intros f read write pos' fa. apply asyncsysopen_completes.
  - intros dst len' pad' pos' fa. unfold asyncfread.
    destruct (asyncopenf fa) as [[|] fa1] eqn:Hopen.
    + (* no failure so far: [asyncsysread] *)
      destruct (asyncopenf_trace _ _ _ Hopen) as (evs & Ht & Hevs).
      unfold asyncsysread, asyncsysopen, invoke_if_set.
      cbn [userCallback userData complete prepare].
      eexists _, _. split; [reflexivity|]. split; [|reflexivity].
      eapply (completed_once_intro _ _ _ evs);
        [reflexivity| |exact Hevs|apply filter_callback_notify].
      rewrite trace_run_callback. cbn [trace emit]. rewrite Ht, <- !app_assoc.
      reflexivity.
    + (* [asyncopenf] has failed *)
      destruct (asyncopenf_trace _ _ _ Hopen) as (evs & Ht & Hevs).
      unfold invoke. cbn [userCallback userData complete prepare mbind option_bind].
      eexists _, _. split; [reflexivity|]. split; [|reflexivity].
      eapply (completed_once_intro _ _ _ evs);
        [reflexivity| |exact Hevs|apply filter_callback_notify].
      rewrite trace_run_callback. cbn [trace emit]. rewrite Ht, <- !app_assoc.
      reflexivity.
  - intros data len' pos' fa. apply asyncsysopen_completes.
Qed.

End WithSys.

Lemma async_reader_count_witness :
  let fa := FileAccess.mk None (LocalPath.mk (lit "/sync/f")) 10 20 false false 0
              [StatOk 10 20] [] in
  exists fa1,
    asyncopenf fa = (true, fa1) /\
    numAsyncReads fa1 = 1%Z /\ isAsyncOpened fa1 = true /\
    numAsyncReads (asyncclosef fa1) = 0%Z /\
    isAsyncOpened (asyncclosef fa1) = false.
Proof.
  intros fa.
  destruct (@async_reader_count (list stat_reply) scripted) as (Hopen & Hclose & _).
  assert (H1 : exists fa1, asyncopenf fa = (true, fa1) /\ isAsyncOpened fa1 = true
                 /\ EvSysClose ∈ events_since fa1 (asyncclosef fa1)).
  { eexists. split; [vm_compute; reflexivity|]. split; [reflexivity|].
    apply list_elem_of_In. vm_compute. left. reflexivity. }
  destruct H1 as (fa1 & H1 & Ho & Hin). exists fa1.
  destruct (Hopen fa fa1 true H1) as [Hcount _].
  destruct (Hclose fa1) as [_ Hev].
  destruct (Hev Hin) as (_ & Hz & Hc).
  split; [exact H1|]. split; [exact Hcount|]. split; [exact Ho|].
  split; [exact Hz|exact Hc].
Defined.

(** C5, as stated, fails: the handle is not always opened by the first
    concurrent reader.  After [asyncfopen] a first [asyncfread] whose
    stat fails leaves the count at 1 and no handle open; the
    [asyncopenf] of a second reader, whose stat succeeds, opens the
    handle while the count goes from 1 to 2. *)
Lemma async_reader_count_counterexample :
  let f := LocalPath.mk (lit "/sync/f") in
  let fa0 := create (Some 0) 0 0 false
               [StatOk 10 20; StatError true; StatOk 10 20] in
  exists c0 fa1 c1 fa2 fa3,
    asyncfopen1 f fa0 = Some (c0, fa1) /\
    asyncfread [] 4 0 0 fa1 = Some (c1, fa2) /\
    numAsyncReads fa2 = 1%Z /\ isAsyncOpened fa2 = false /\
    asyncopenf fa2 = (true, fa3) /\
    events_since fa2 fa3 = [EvSysStat; EvSysOpen true] /\
    numAsyncReads fa3 = 2%Z /\ isAsyncOpened fa3 = true.
Proof.
  intros f fa0. do 5 eexists.
  split; [vm_compute; reflexivity|]. split; [vm_compute; reflexivity|].
  split; [reflexivity|]. split; [reflexivity|].
  split; [vm_compute; reflexivity|]. split; [vm_compute; reflexivity|].
  split; reflexivity.
Qed.

Lemma async_completes_synchronously_witness :
  let fa0 := create (Some 0) 0 0 false [StatError true] in
  exists c fa',
    asyncfopen1 (LocalPath.mk (lit "/sync/f")) fa0 = Some (c, fa') /\
    finished c = true /\ failed c = true /\
    events_since fa0 fa' = [EvSysStat; EvCallback c; EvWaiterNotify 0].
Proof.
  intros fa0.
  destruct (proj1 (@async_completes_synchronously (list stat_reply) scripted)
              (LocalPath.mk (lit "/sync/f")) fa0)
    as (c & fa' & Hopen & (Hfin & _) & Hfail).
  exists c, fa'. split; [exact Hopen|]. split; [exact Hfin|]. split.
  - apply Hfail. exists true, []. reflexivity.
  - vm_compute in Hopen. injection Hopen as <- <-. reflexivity.
Defined.

(** C6, as stated, fails: the context that [asyncfopen(f)] returns
    when the stat of [f] succeeds is completed without failure. *)
Lemma async_completes_synchronously_counterexample :
  let fa0 := create (Some 0) 0 0 false [StatOk 10 20] in
  exists c fa',
    asyncfopen1 (LocalPath.mk (lit "/sync/f")) fa0 = Some (c, fa') /\
    finished c = true /\ failed c = false.
Proof.
  intros fa0. eexists _, _.
  split; [vm_compute; reflexivity|]. split; reflexivity.
Qed.

Lemma openf_detects_modification_witness :
  let fa0 := create None 0 0 true [StatOk 10 20] in
  let name := LocalPath.mk (lit "/sync/f") in
  exists fa fa' fa'',
    fopen name fa0 = (true, fa) /\
    (openf (set_os fa [StatOk 11 20]) = (false, fa') /\
     retry fa' = false /\ mtime fa' = 11%Z /\ size fa' = 20%Z) /\
    (openf (set_os fa [StatOk 10 20]) = (true, fa'') /\
     events_since (set_os fa [StatOk 10 20]) fa'' = [EvSysStat; EvSysOpen false]).
Proof.
  intros fa0 name.
  assert (Hopen : exists fa, fopen name fa0 = (true, fa)) by (eexists; reflexivity).
  destruct Hopen as [fa Hopen].
  destruct (openf_detects_modification name fa0 fa [StatOk 11 20] [] 11 20)
    as [Hdiff _]; [reflexivity|exact Hopen|reflexivity|].
  destruct (openf_detects_modification name fa0 fa [StatOk 10 20] [] 10 20)
    as [_ Hsame]; [reflexivity|exact Hopen|reflexivity|].
  destruct Hdiff as (fa' & Hf & Hr & Hm & Hs).
  { left. injection Hopen as <-. cbn. lia. }
  destruct (Hsame ltac:(injection Hopen as <-; split; reflexivity) OpenOk [] eq_refl)
    as (fa'' & Ho & He & _).
  exists fa, fa', fa''.
  split; [exact Hopen|]. split; [auto|]. split; [exact Ho|exact He].
Defined.

End FileAccessFacts.


(** * Further properties *)

(** ** Timestamps, escaping and unescaping *)

Module FileSystemAccessMore.
Import FileSystemAccess EscapeFacts.

(** X1.  [captimestamp] clamps to the range of an unsigned 32-bit
    number: the result lies in it, a timestamp in it is left alone, and
    the order of timestamps is kept. *)
Theorem captimestamp_clamps (t u : Z) :
  (0 <= captimestamp t <= 2 ^ 32 - 1)%Z /\
  ((0 <= t <= 2 ^ 32 - 1)%Z -> captimestamp t = t) /\
  ((t <= u)%Z -> (captimestamp t <= captimestamp u)%Z).
Proof.
  unfold captimestamp.
  destruct (Z.ltb_spec 4294967295 t), (Z.ltb_spec t 0),
           (Z.ltb_spec 4294967295 u), (Z.ltb_spec u 0); lia.
Qed.

Lemma captimestamp_clamps_witness :
  captimestamp 1700000000 = 1700000000%Z /\
  (captimestamp (-5) <= captimestamp 5000000000)%Z.
Proof.
  destruct (captimestamp_clamps 1700000000 1700000000) as (_ & Hid & _).
  destruct (captimestamp_clamps (-5) 5000000000) as (_ & _ & Hmono).
  split; [apply Hid; lia | apply Hmono; lia].
Defined.

(** *** The size of an escaped name *)

Lemma length_escape_char (c : ascii) :
  1 <= length (escape_char c) <= 3.
Proof. unfold escape_char. destruct (islocalfscompatible c); cbn; lia. Qed.

Lemma length_flat_map_escape (x : cppstring) :
  length x <= length (flat_map escape_char x) <= 3 * length x.
Proof.
  induction x as [|c x IH]; cbn [flat_map length]; [lia|].
  rewrite length_app. pose proof (length_escape_char c). lia.
Qed.

(** X2.  [escapefsincompatible] leaves no incompatible character in a
    name, never shortens it and at most triples its length. *)
Theorem escapefsincompatible_output (x : cppstring) :
  Forall (fun c => islocalfscompatible c = true) (escapefsincompatible x) /\
  length x <= length (escapefsincompatible x) <= 3 * length x.
Proof.
  split; [apply escapefsincompatible_compatible|].
  destruct (escapefsincompatible_cases x)
    as [[-> ->]|[[-> ->]|(_ & _ & ->)]]; [cbn; lia..|].
  apply length_flat_map_escape.
Qed.

(** *** The loop of [unescapefsincompatible] as a fold *)

Lemma char_at_cons_S (c : ascii) (z : cppstring) (i : nat) :
  char_at (c :: z) (S i) = char_at z i.
Proof. reflexivity. Qed.

Lemma decodes_at_cons_S (c : ascii) (z : cppstring) (i : nat) :
  decodes_at (c :: z) (S i) = decodes_at z i.
Proof. reflexivity. Qed.

(** A triplet needs its two digits: it lies inside the name. *)
Lemma decodes_at_inside (s : cppstring) (i : nat) :
  decodes_at s i = true -> i + 2 < length s.
Proof.
  unfold decodes_at. intros H.
  destruct (decide (i + 2 < length s)) as [|Hge]; [assumption|].
  rewrite (char_at_ge s (i + 2)) in H by lia.
  rewrite andb_false_r in H. discriminate H.
Qed.

(** One round of the loop, on the name split at the index. *)
Lemma unescape_step_cons (p : cppstring) (c : ascii) (z : cppstring) :
  unescape_step (length p) (p ++ c :: z) = p ++ unescape_cons c z.
Proof.
  rewrite unescape_step_decodes, decodes_at_app0. unfold unescape_cons.
  destruct (decodes_at (c :: z) 0) eqn:Hd; [|reflexivity].
  rewrite !char_at_app_r, !char_at_cons_S.
  unfold replace. rewrite take_app_length.
  rewrite drop_app_add' by reflexivity. reflexivity.
Qed.

(** The loop started at the end of a prefix [p] handles the characters
    of [p] from the last to the first. *)
Lemma unescape_loop_foldr (p z : cppstring) :
  unescape_loop (length p) (p ++ z) = foldr unescape_cons z p.
Proof.
  revert z. induction p as [|c p IH] using rev_ind; intros z; [reflexivity|].
  rewrite length_app, Nat.add_1_r. cbn [unescape_loop].
  rewrite <- app_assoc. cbn [app]. rewrite unescape_step_cons.
  rewrite foldr_app. cbn [foldr]. apply IH.
Qed.

(** [unescapefsincompatible], case by case. *)
Lemma unescapefsincompatible_cases (y : cppstring) :
  (Z.of_nat (length y) < 2 ^ 31)%Z ->
  (y = lit "%2e%2e" /\ unescapefsincompatible y = lit "..") \/
  (y = lit "%2e" /\ unescapefsincompatible y = lit ".") \/
  (y <> lit "%2e%2e" /\ y <> lit "%2e" /\
   unescapefsincompatible y = foldr unescape_cons [] y).
Proof.
  intros Hlen. unfold unescapefsincompatible, str_eqb.
  destruct (bool_decide_reflect (y = lit "%2e%2e")) as [->|H2]; [left; auto|].
  destruct (bool_decide_reflect (y = lit "%2e")) as [->|H1]; [right; left; auto|].
  right; right. split; [assumption|]. split; [assumption|].
  rewrite unescape_loop_from_size by exact Hlen.
  rewrite <- (app_nil_r y) at 2. apply unescape_loop_foldr.
Qed.

Lemma length_unescape_cons (c : ascii) (z : cppstring) :
  length (unescape_cons c z) <= S (length z).
Proof.
  unfold unescape_cons. destruct (decodes_at (c :: z) 0); cbn [length];
    [rewrite length_drop|]; lia.
Qed.

Lemma length_foldr_unescape (y : cppstring) :
  length (foldr unescape_cons [] y) <= length y.
Proof.
  induction y as [|c y IH]; cbn [foldr length]; [lia|].
  pose proof (length_unescape_cons c (foldr unescape_cons [] y)). lia.
Qed.

(** A decoded character is no percent sign. *)
Lemma incompatible_not_percent (d : ascii) :
  islocalfscompatible d = false -> Ascii.eqb d "%" = false.
Proof.
  intros Hd. destruct (Ascii.eqb_spec d "%") as [->|]; [|reflexivity].
  discriminate Hd.
Qed.

Lemma decodes_at_0_inv (c : ascii) (z : cppstring) :
  decodes_at (c :: z) 0 = true ->
  c = "%"%char /\ islchex (char_at z 0) = true /\ islchex (char_at z 1) = true /\
  islocalfscompatible
    (to_char (Z.shiftl (hexval (char_at z 0)) 4 + hexval (char_at z 1))) = false /\
  z = char_at z 0 :: char_at z 1 :: drop 2 z.
Proof.
  intros H. pose proof (decodes_at_inside _ _ H) as Hin.
  unfold decodes_at in H. cbn [Nat.add] in H. rewrite !char_at_cons_S in H.
  apply andb_true_iff in H as [H H4]. apply andb_true_iff in H as [H H3].
  apply andb_true_iff in H as [H1 H2].
  apply Ascii.eqb_eq in H1. apply negb_true_iff in H4.
  repeat split; try assumption.
  destruct z as [|h [|l z]]; cbn [length] in Hin; try lia. reflexivity.
Qed.

(** The result of the loop holds no triplet that it would decode. *)
Lemma foldr_unescape_no_triplet (y : cppstring) (i : nat) :
  decodes_at (foldr unescape_cons [] y) i = false.
Proof.
  revert i. induction y as [|c y IH]; intros i; cbn [foldr].
  { apply decodes_at_not_percent. rewrite char_at_ge by (cbn; lia). reflexivity. }
  set (r := foldr unescape_cons [] y) in *.
  unfold unescape_cons. destruct (decodes_at (c :: r) 0) eqn:Hd.
  - destruct (decodes_at_0_inv _ _ Hd) as (_ & _ & _ & Hinc & Hr).
    destruct i as [|i].
    + apply decodes_at_not_percent. apply incompatible_not_percent, Hinc.
    + rewrite decodes_at_cons_S.
      specialize (IH (S (S i))). rewrite Hr in IH.
      rewrite !decodes_at_cons_S in IH. exact IH.
  - destruct i as [|i]; [exact Hd|]. rewrite decodes_at_cons_S. apply IH.
Qed.

(** Without a triplet nothing is decoded, wherever the loop starts. *)
Lemma unescape_loop_no_triplet (n : nat) (y : cppstring) :
  (forall i, decodes_at y i = false) -> unescape_loop n y = y.
Proof.
  intros Hno. induction n as [|n IH]; [reflexivity|].
  cbn [unescape_loop]. rewrite unescape_step_decodes, Hno. exact IH.
Qed.

(** X3.  A name that holds no triplet of a percent sign and two lower
    case hexadecimal digits encoding an incompatible character, and is
    not one of the two escaped dot names, is returned unchanged by
    [unescapefsincompatible], when it is shorter than [2^31] bytes: a
    literal percent sign followed by other characters is not
    corrupted. *)
Theorem unescapefsincompatible_literal (y : cppstring) :
  (Z.of_nat (length y) < 2 ^ 31)%Z ->
  has_escape_triplet y = false ->
  y <> lit "%2e" -> y <> lit "%2e%2e" ->
  unescapefsincompatible y = y.
Proof.
  intros _ Hno N1 N2. unfold unescapefsincompatible, str_eqb.
  rewrite (bool_decide_eq_false_2 _ N2), (bool_decide_eq_false_2 _ N1).
  apply unescape_loop_no_triplet, has_escape_triplet_false, Hno.
Qed.

Lemma unescapefsincompatible_literal_witness :
  unescapefsincompatible (lit "100%41 %zz %2F%") = lit "100%41 %zz %2F%".
Proof.
  apply unescapefsincompatible_literal;
    [vm_compute; reflexivity|reflexivity|discriminate..].
Defined.

(** *** Escaping what has been unescaped *)

(** A lower case hexadecimal digit is compatible, has a value below 16
    and is the digit [sprintf] writes for that value. *)
Lemma hexval_digit (h : ascii) :
  islchex h = true ->
  (0 <= hexval h < 16)%Z /\ hexdigit (hexval h) = h /\
  islocalfscompatible h = true.
Proof.
  all_chars h; vm_compute; intros Hh; try discriminate Hh;
    repeat split; discriminate.
Qed.

Lemma code_to_char (z : Z) : (0 <= z < 256)%Z -> code (to_char z) = z.
Proof.
  intros Hz. unfold code, to_char. rewrite Z.mod_small by lia.
  rewrite N_ascii_embedding by lia. lia.
Qed.

(** The escape of a decoded character is the triplet it came from. *)
Lemma sprintf_decoded (h l : ascii) :
  islchex h = true -> islchex l = true ->
  sprintf_pct02x (to_char (Z.shiftl (hexval h) 4 + hexval l))
  = ["%"%char; h; l].
Proof.
  intros Hh Hl.
  destruct (hexval_digit h Hh) as (Rh & Dh & _).
  destruct (hexval_digit l Hl) as (Rl & Dl & _).
  unfold sprintf_pct02x. rewrite Z.shiftl_mul_pow2 by lia.
  rewrite code_to_char by lia.
  replace ((hexval h * 2 ^ 4 + hexval l) / 16)%Z with (hexval h)
    by (apply Z.div_unique with (r := hexval l); lia).
  replace ((hexval h * 2 ^ 4 + hexval l) mod 16)%Z with (hexval l)
    by (apply Z.mod_unique with (q := hexval h); lia).
  by rewrite Dh, Dl.
Qed.

Lemma flat_map_escape_unescape_cons (c : ascii) (r : cppstring) :
  islocalfscompatible c = true ->
  flat_map escape_char (unescape_cons c r) = c :: flat_map escape_char r.
Proof.
  intros Hc. unfold unescape_cons.
  destruct (decodes_at (c :: r) 0) eqn:Hd.
  - destruct (decodes_at_0_inv _ _ Hd) as (-> & Hh & Hl & Hinc & Hr).
    remember (char_at r 0) as h eqn:Eh. remember (char_at r 1) as l eqn:El.
    remember (drop 2 r) as r' eqn:Er. clear Eh El Er Hd. subst r.
    destruct (hexval_digit _ Hh) as (_ & _ & Ch).
    destruct (hexval_digit _ Hl) as (_ & _ & Cl).
    cbn [flat_map]. unfold escape_char at 1 3 4. rewrite Hinc, Ch, Cl.
    by rewrite sprintf_decoded.
  - cbn [flat_map]. unfold escape_char at 1. by rewrite Hc.
Qed.

Lemma flat_map_escape_foldr_unescape (y : cppstring) :
  Forall (fun c => islocalfscompatible c = true) y ->
  flat_map escape_char (foldr unescape_cons [] y) = y.
Proof.
  induction 1 as [|c y Hc _ IH]; [reflexivity|].
  cbn [foldr]. by rewrite flat_map_escape_unescape_cons, IH.
Qed.

(** The other round trip, without the conversions. *)
Lemma escape_unescape (y : cppstring) :
  Forall (fun c => islocalfscompatible c = true) y ->
  y <> lit "." -> y <> lit ".." ->
  (Z.of_nat (length y) < 2 ^ 31)%Z ->
  escapefsincompatible (unescapefsincompatible y) = y.
Proof.
  intros Hc N1 N2 Hlen.
  destruct (unescapefsincompatible_cases y Hlen)
    as [[-> ->]|[[-> ->]|(_ & _ & ->)]]; [reflexivity..|].
  pose proof (flat_map_escape_foldr_unescape y Hc) as Hesc.
  destruct (escapefsincompatible_cases (foldr unescape_cons [] y))
    as [[E _]|[[E _]|(_ & _ & ->)]]; [| |exact Hesc].
  - rewrite E in Hesc. exfalso. apply N2. rewrite <- Hesc. reflexivity.
  - rewrite E in Hesc. exfalso. apply N1. rewrite <- Hesc. reflexivity.
Qed.

(** X4.  When [path2local] undoes [local2path], [name2local] undoes
    [local2name] on every local name whose presentation form holds
    compatible characters only, is neither [.] nor [..] and is shorter
    than [2^31] bytes: such a name on disk is found again under the
    name it was listed by. *)
Theorem name2local_local2name (B : Binding) (y : cppstring) :
  (forall s, path2local (local2path s) = s) ->
  Forall (fun c => islocalfscompatible c = true) (local2path y) ->
  local2path y <> lit "." -> local2path y <> lit ".." ->
  (Z.of_nat (length (local2path y)) < 2 ^ 31)%Z ->
  name2local (local2name y) = y.
Proof.
  intros Hinv Hc N1 N2 Hlen. unfold name2local, local2name.
  rewrite escape_unescape by assumption. apply Hinv.
Qed.

Lemma name2local_local2name_witness :
  @local2name posix_like (lit "a%2fb %41%") = lit "a/b %41%" /\
  @name2local posix_like (@local2name posix_like (lit "a%2fb %41%"))
  = lit "a%2fb %41%".
Proof.
  split; [reflexivity|].
  apply (name2local_local2name posix_like).
  - intros s. reflexivity.
  - apply Forall_forall. intros c Hc%list_elem_of_In.
    revert c Hc. apply forallb_forall. vm_compute. reflexivity.
  - discriminate.
  - discriminate.
  - vm_compute. reflexivity.
Defined.

(** *** Unescaping twice *)

Lemma foldr_unescape_compatible (y : cppstring) :
  Forall (fun c => islocalfscompatible c = true) (foldr unescape_cons [] y) ->
  foldr unescape_cons [] y = y.
Proof.
  induction y as [|c y IH]; [reflexivity|]. cbn [foldr].
  set (r := foldr unescape_cons [] y) in *. unfold unescape_cons.
  destruct (decodes_at (c :: r) 0) eqn:Hd.
  - destruct (decodes_at_0_inv _ _ Hd) as (_ & _ & _ & Hinc & _).
    intros Hall. apply Forall_cons_1 in Hall as [Hx _]. congruence.
  - intros Hall. apply Forall_cons_1 in Hall as [_ Hall]. by rewrite IH.
Qed.

(** X5.  [unescapefsincompatible] never lengthens a name, and on a
    name shorter than [2^31] bytes a second application changes nothing:
    a decoded character never becomes part of another triplet. *)
Theorem unescapefsincompatible_stable (y : cppstring) :
  (Z.of_nat (length y) < 2 ^ 31)%Z ->
  length (unescapefsincompatible y) <= length y /\
  unescapefsincompatible (unescapefsincompatible y) = unescapefsincompatible y.
Proof.
  intros Hlen.
  destruct (unescapefsincompatible_cases y Hlen)
    as [[-> ->]|[[-> ->]|(N2 & N1 & ->)]];
    [split; [cbn; lia|reflexivity]..|].
  split; [apply length_foldr_unescape|].
  set (u := foldr unescape_cons [] y).
  assert (Hu : forall v, u = lit v ->
            Forall (fun c => islocalfscompatible c = true) (lit v) -> y = lit v).
  { intros v E Hv. rewrite <- E in Hv.
    rewrite <- (foldr_unescape_compatible y Hv). exact E. }
  unfold unescapefsincompatible, str_eqb.
  destruct (bool_decide_reflect (u = lit "%2e%2e")) as [E|_].
  { exfalso. apply N2, (Hu _ E). apply Forall_forall.
    intros c Hc%list_elem_of_In. revert c Hc. by apply forallb_forall. }
  destruct (bool_decide_reflect (u = lit "%2e")) as [E|_].
  { exfalso. apply N1, (Hu _ E). apply Forall_forall.
    intros c Hc%list_elem_of_In. revert c Hc. by apply forallb_forall. }
  apply unescape_loop_no_triplet. intros i. apply foldr_unescape_no_triplet.
Qed.

Lemma unescapefsincompatible_stable_witness :
  unescapefsincompatible (lit "%%2f2f") = lit "%/2f" /\
  unescapefsincompatible (unescapefsincompatible (lit "%%2f2f")) = lit "%/2f".
Proof.
  destruct (unescapefsincompatible_stable (lit "%%2f2f")) as [_ H];
    [vm_compute; reflexivity|].
  split; [reflexivity|]. rewrite H. reflexivity.
Defined.

End FileSystemAccessMore.

(** ** Normalisation *)

Module NormalizeMore.
Import FileSystemAccess NormalizeFacts.

(** Joining runs that hold no NUL and splitting again gives the runs. *)
Lemma split_on_nul_join (outs : list cppstring) :
  outs <> [] -> Forall (fun r => NUL ∉ r) outs ->
  split_on_nul (join_with_nul outs) = outs.
Proof.
  intros Hne Hall. induction Hall as [|r outs Hr Hall IH]; [done|].
  destruct outs as [|r2 outs].
  - cbn [join_with_nul]. rewrite <- (app_nil_r r) at 1.
    rewrite (split_on_nul_app _ _ Hr). cbn. by rewrite app_nil_r.
  - change (join_with_nul (r :: r2 :: outs))
      with (r ++ NUL :: join_with_nul (r2 :: outs)).
    rewrite (split_on_nul_app _ _ Hr). cbn [split_on_nul].
    change (Ascii.eqb NUL NUL) with true. cbn match.
    rewrite app_nil_r, IH by done. reflexivity.
Qed.

(** X6.  For a normaliser that returns C strings and leaves its own
    non-empty results alone, [normalize] is idempotent: a name that has
    been normalised, or cleared, is not changed by normalising again. *)
Theorem normalize_idempotent (NFC : cppstring -> option cppstring) :
  (forall run out, NFC run = Some out -> NUL ∉ out) ->
  (forall run out, NFC run = Some out -> out <> [] -> NFC out = Some out) ->
  forall filename,
    normalize NFC (normalize NFC filename) = normalize NFC filename.
Proof.
  intros Hc Hfix filename. rewrite !(normalize_is_spec NFC Hc).
  assert (Hr : normalize_spec NFC filename =
               match mapM (normalize_run NFC) (split_on_nul filename) with
               | Some outs => join_with_nul outs
               | None => []
               end) by reflexivity.
  rewrite Hr. clear Hr.
  destruct (mapM (normalize_run NFC) (split_on_nul filename)) as [outs|] eqn:E;
    [|reflexivity].
  pose proof (mapM_Some_1 _ _ _ E) as HF.
  assert (Hne : outs <> []).
  { apply length_mapM in E. pose proof (split_on_nul_not_nil filename).
    destruct outs; [|done]. by destruct (split_on_nul filename). }
  assert (Hall : Forall (fun out => (NUL ∉ out) /\ normalize_run NFC out = Some out) outs).
  { clear E Hne. induction HF as [|run out runs outs Hrun _ IH]; constructor; [|exact IH].
    destruct run as [|c run].
    - injection Hrun as <-. split; [apply not_elem_of_nil|reflexivity].
    - cbn in Hrun. split; [by eapply Hc|].
      destruct out as [|c' out]; [reflexivity|]. cbn. by eapply Hfix. }
  unfold normalize_spec. rewrite split_on_nul_join.
  - replace (mapM (normalize_run NFC) outs) with (Some outs); [reflexivity|].
    symmetry. apply mapM_Some_2. apply Forall_Forall2_diag.
    eapply Forall_impl; [exact Hall|]. by intros out [_ ?].
  - exact Hne.
  - eapply Forall_impl; [exact Hall|]. by intros out [? _].
Qed.

Lemma capital_e_not_nul (run : cppstring) :
  NUL ∉ run -> NUL ∉ capital_e <$> run.
Proof.
  intros Hn [c [Hc Hin]]%list_elem_of_fmap. apply Hn.
  unfold capital_e in Hc. destruct (Ascii.eqb c "e"); [discriminate|].
  by subst c.
Qed.

Lemma capital_e_twice (run : cppstring) :
  capital_e <$> (capital_e <$> run) = capital_e <$> run.
Proof.
  rewrite <- list_fmap_compose. apply list_fmap_ext. intros _ c _. cbn.
  unfold capital_e. destruct (Ascii.eqb c "e") eqn:E; [reflexivity|by rewrite E].
Qed.

Lemma normalize_idempotent_witness :
  normalize capitalising_NFC (lit "ee" ++ [NUL] ++ lit "x")
    = lit "EE" ++ [NUL] ++ lit "x" /\
  normalize capitalising_NFC
    (normalize capitalising_NFC (lit "ee" ++ [NUL] ++ lit "x"))
  = lit "EE" ++ [NUL] ++ lit "x".
Proof.
  assert (H1 : normalize capitalising_NFC (lit "ee" ++ [NUL] ++ lit "x")
               = lit "EE" ++ [NUL] ++ lit "x") by (vm_compute; reflexivity).
  split; [exact H1|].
  rewrite (normalize_idempotent capitalising_NFC); [exact H1| |].
  - intros run out. unfold capitalising_NFC.
    destruct (bool_decide_reflect (NUL ∈ run)) as [|Hn]; [discriminate|].
    intros [= <-]. by apply capital_e_not_nul.
  - intros run out. unfold capitalising_NFC.
    destruct (bool_decide_reflect (NUL ∈ run)) as [|Hn]; [discriminate|].
    intros [= <-] _.
    rewrite (bool_decide_eq_false_2 _ (capital_e_not_nul _ Hn)).
    by rewrite capital_e_twice.
Defined.

(** X7.  A name that consists of NUL bytes only, the empty name
    included, is returned as it is by [normalize], whatever the
    normaliser does: it is not consulted. *)
Theorem normalize_nul_only (NFC : cppstring -> option cppstring) (n : nat) :
  normalize NFC (replicate n NUL) = replicate n NUL.
Proof.
  unfold normalize. rewrite length_replicate.
  enough (G : forall cf fnsize i result (pre : cppstring) (k : nat),
            cf = pre ++ replicate k NUL ++ [NUL] -> i = length pre ->
            fnsize = length pre + k ->
            normalize_loop NFC cf fnsize i result = result ++ replicate k NUL).
  { rewrite (G _ _ _ _ [] n); reflexivity. }
  clear n. intros cf fnsize i result.
  funelim (normalize_loop NFC cf fnsize i result);
    intros pre k Hcf Hi Hsz; subst cfilename i fnsize.
  - destruct k; [|lia]. by rewrite app_nil_r.
  - destruct k as [|k]; [lia|].
    match goal with
    | IH : forall (pre : cppstring) (k : nat), _ |- _ =>
        rewrite (IH (pre ++ [NUL]) k)
    end.
    + by rewrite <- app_assoc.
    + by rewrite <- !app_assoc.
    + rewrite length_app. reflexivity.
    + rewrite length_app. cbn [length]. lia.
  - exfalso.
    match goal with
    | H : Ascii.eqb _ NUL = false |- _ => pose proof H as Hchar
    end.
    destruct k as [|k]; [lia|].
    cbn [replicate app] in Hchar. rewrite char_at_middle in Hchar. discriminate.
  - exfalso.
    match goal with
    | H : Ascii.eqb _ NUL = false |- _ => pose proof H as Hchar
    end.
    destruct k as [|k]; [lia|].
    cbn [replicate app] in Hchar. rewrite char_at_middle in Hchar. discriminate.
Qed.

End NormalizeMore.


(** ** Local paths: separators, leaf names, trimming *)

Module LocalPathMore.
Import FileSystemAccess LocalPath LocalPathFacts.

Lemma drop_data (s : cppstring) (i : nat) :
  i <= length s -> drop i (data s) = data (drop i s).
Proof. intros Hi. unfold data. by rewrite drop_app_le. Qed.

(** Inside the buffer, [!memcmp] against the separator tells whether
    the separator stands there. *)
Lemma memcmp_eq_occurs (s sep : cppstring) (i : nat) :
  i + length sep <= length s ->
  memcmp_eq (drop i (data s)) (data sep) (length sep)
  = Some (bool_decide (occurs_at s sep i)).
Proof.
  intros Hi. rewrite drop_data by lia.
  rewrite memcmp_eq_data by (rewrite ?length_drop; lia).
  rewrite firstn_all. f_equal. apply bool_decide_ext.
  unfold occurs_at. tauto.
Qed.

Lemma isContainingPathOf_refl_aux (B : Binding) (p : t) :
  isContainingPathOf p p = Some true.
Proof.
  unfold isContainingPathOf.
  destruct (decide _) as [_|N]; [|lia].
  rewrite memcmp_eq_data by lia.
  rewrite bool_decide_eq_true_2 by done.
  by rewrite Nat.eqb_refl.
Qed.

(** What a true answer of [isContainingPathOf] always means, aligned
    or not: the bytes of the parent begin the child. *)
Lemma isContainingPathOf_prefix (B : Binding) (this path : t) :
  isContainingPathOf this path = Some true ->
  localpath this `prefix_of` localpath path.
Proof.
  unfold isContainingPathOf.
  destruct (decide _) as [Hle|]; [|discriminate].
  rewrite memcmp_eq_data by lia. rewrite firstn_all.
  destruct (bool_decide_reflect
              (take (length (localpath this)) (localpath path) = localpath this))
    as [E|]; [|discriminate].
  intros _. by apply prefix_of_take.
Qed.

(** X8. [isContainingPathOf] is reflexive on every path, and
    antisymmetric: two paths that contain each other are the same
    path. *)
Theorem isContainingPathOf_refl_antisym (B : Binding) :
  (forall p : t, isContainingPathOf p p = Some true) /\
  (forall p q : t,
     isContainingPathOf p q = Some true ->
     isContainingPathOf q p = Some true -> p = q).
Proof.
  split; [apply isContainingPathOf_refl_aux|].
  intros [a] [b] H1%isContainingPathOf_prefix H2%isContainingPathOf_prefix.
  cbn [localpath] in *. f_equal.
  apply (anti_symm prefix); done.
Qed.

Lemma isContainingPathOf_refl_antisym_witness :
  @isContainingPathOf posix_like (mk (lit "/a")) (mk (lit "/a")) = Some true /\
  mk (lit "/a") = mk (lit "/a").
Proof.
  split; [reflexivity|].
  apply (proj2 (isContainingPathOf_refl_antisym posix_like));
    vm_compute; reflexivity.
Defined.

Lemma contains_spec_trans (sep a b c : cppstring) :
  contains_spec sep a b -> contains_spec sep b c -> contains_spec sep a c.
Proof.
  intros [Pab Hab] [Pbc Hbc]. split; [by etrans|].
  destruct Hab as [Hab|Hab].
  - assert (a = b) as ->.
    { destruct Pab as [k ->]. rewrite length_app in Hab.
      destruct k; [by rewrite app_nil_r|cbn in Hab; lia]. }
    done.
  - right. etrans; [exact Hab|].
    destruct Pbc as [k ->].
    assert (length a <= length b) by by apply prefix_length.
    rewrite drop_app_le by done. by apply prefix_app_r.
Qed.

(** X9. On paths made of whole code units, [isContainingPathOf] is
    transitive. *)
Theorem isContainingPathOf_trans (B : Binding) (a b c : t) :
  aligned localseparator a -> aligned localseparator b ->
  aligned localseparator c ->
  isContainingPathOf a b = Some true ->
  isContainingPathOf b c = Some true ->
  isContainingPathOf a c = Some true.
Proof.
  intros Ha Hb Hc Hab Hbc.
  apply (isContainingPathOf_in_bounds B a b (aligned_in_bounds _ a b Ha Hb)) in Hab.
  apply (isContainingPathOf_in_bounds B b c (aligned_in_bounds _ b c Hb Hc)) in Hbc.
  apply (isContainingPathOf_in_bounds B a c (aligned_in_bounds _ a c Ha Hc)).
  by eapply contains_spec_trans.
Qed.

Lemma isContainingPathOf_trans_witness :
  @isContainingPathOf posix_like (mk (lit "/a")) (mk (lit "/a/b/c")) = Some true.
Proof.
  apply (isContainingPathOf_trans posix_like
           (mk (lit "/a")) (mk (lit "/a/b")) (mk (lit "/a/b/c"))).
  - exists 2. reflexivity.
  - exists 4. reflexivity.
  - exists 6. reflexivity.
  - vm_compute; reflexivity.
  - vm_compute; reflexivity.
Defined.

(** A path contains itself with a separator and anything after it. *)
Lemma isContainingPathOf_separator (B : Binding) (p : t) (rest : cppstring) :
  isContainingPathOf p (mk (localpath p ++ (localseparator ++ rest))) = Some true.
Proof.
  unfold isContainingPathOf. cbn [localpath].
  rewrite length_app.
  destruct (decide _) as [_|N]; [|lia].
  rewrite memcmp_eq_data by (rewrite ?length_app; lia).
  rewrite firstn_all, take_app_length.
  rewrite bool_decide_eq_true_2 by done.
  destruct (Nat.eqb_spec (length (localpath p) + length (localseparator ++ rest))
              (length (localpath p))) as [_|_]; [done|].
  unfold data at 1. rewrite <- !app_assoc, drop_app_length.
  unfold memcmp_eq, data. rewrite !length_app. cbn [length].
  destruct (decide _) as [_|N]; [|lia].
  rewrite !take_app_length.
  by rewrite bool_decide_eq_true_2.
Qed.

(** X10. A path contains whatever [separatorAppend] makes of it, once
    a separator is put in: always when the path is not empty or the
    separator is asked for. *)
Theorem separatorAppend_contained (B : Binding) (p q : t) (separatorAlways : bool) :
  separatorAlways = true \/ localpath p <> [] ->
  isContainingPathOf p (separatorAppend p q separatorAlways) = Some true.
Proof.
  intros Hs.
  assert (E : separatorAppend p q separatorAlways
              = mk (localpath p ++ (localseparator ++ localpath q))).
  { unfold separatorAppend.
    destruct Hs as [->|Hp]; cbn [orb].
    - by rewrite <- app_assoc.
    - destruct (localpath p) as [|x l]; [done|].
      cbn [length Nat.eqb negb]. rewrite orb_true_r. by rewrite <- app_assoc. }
  rewrite E. apply isContainingPathOf_separator.
Qed.

Lemma separatorAppend_contained_witness :
  @isContainingPathOf wide_like (mk [])
    (@separatorAppend wide_like (mk []) (mk (lit "x")) true) = Some true.
Proof.
  apply (separatorAppend_contained wide_like (mk []) (mk (lit "x")) true).
  left. reflexivity.
Defined.

(** X11. [separatorPrepend] is [separatorAppend] seen from the other
    path, with the separator always put in; the path that is put in
    front contains the result. *)
Theorem separatorPrepend_separatorAppend (B : Binding) (p q : t) :
  separatorPrepend p q = separatorAppend q p true /\
  isContainingPathOf q (separatorPrepend p q) = Some true.
Proof.
  assert (E : separatorPrepend p q = separatorAppend q p true).
  { unfold separatorPrepend, separatorAppend. cbn [orb]. by rewrite <- app_assoc. }
  split; [done|]. unfold separatorPrepend. apply isContainingPathOf_separator.
Qed.

(** *** Searching for separators *)

Lemma find_from_spec (s sep : cppstring) (n : nat) : forall i,
  match find_from s sep i n with
  | Some r => i <= r < i + n /\ occurs_at s sep r /\
              forall j, i <= j < r -> ~ occurs_at s sep j
  | None => forall j, i <= j < i + n -> ~ occurs_at s sep j
  end.
Proof.
  induction n as [|n IH]; intros i; cbn [find_from].
  - intros j Hj. lia.
  - destruct (decide (occurs_at s sep i)) as [Ho|Ho].
    + split; [lia|]. split; [done|]. intros j Hj. lia.
    + specialize (IH (S i)). destruct (find_from s sep (S i) n) as [r|].
      * destruct IH as (Hr & Hor & Hmin). split; [lia|]. split; [done|].
        intros j Hj. destruct (decide (j = i)) as [->|]; [done|].
        apply Hmin. lia.
      * intros j Hj. destruct (decide (j = i)) as [->|]; [done|].
        apply IH. lia.
Qed.

Lemma find_spec (s sep : cppstring) (pos : nat) :
  match find s sep pos with
  | Some r => pos <= r /\ occurs_at s sep r /\
              forall j, pos <= j < r -> ~ occurs_at s sep j
  | None => forall j, pos <= j -> ~ occurs_at s sep j
  end.
Proof.
  unfold find. destruct (decide _) as [Hle|Hgt].
  - pose proof (find_from_spec s sep (S (length s - length sep - pos)) pos) as F.
    destruct (find_from _ _ _ _) as [r|].
    + destruct F as (Hr & Ho & Hmin). split; [lia|]. done.
    + intros j Hj Ho. apply (F j); [destruct Ho; lia|done].
  - intros j Hj [_ Hb]. lia.
Qed.

Lemma rfind_down_spec (s sep : cppstring) (i : nat) :
  match rfind_down s sep i with
  | Some r => r <= i /\ occurs_at s sep r /\
              forall j, r < j <= i -> ~ occurs_at s sep j
  | None => forall j, j <= i -> ~ occurs_at s sep j
  end.
Proof.
  induction i as [|i IH]; cbn [rfind_down].
  - destruct (decide (occurs_at s sep 0)) as [Ho|Ho].
    + split; [lia|]. split; [done|]. intros j Hj. lia.
    + intros j Hj. by replace j with 0 by lia.
  - destruct (decide (occurs_at s sep (S i))) as [Ho|Ho].
    + split; [lia|]. split; [done|]. intros j Hj. lia.
    + destruct (rfind_down s sep i) as [r|].
      * destruct IH as (Hr & Hor & Hmax). split; [lia|]. split; [done|].
        intros j Hj. destruct (decide (j = S i)) as [->|]; [done|].
        apply Hmax. lia.
      * intros j Hj. destruct (decide (j = S i)) as [->|]; [done|].
        apply IH. lia.
Qed.

Lemma rfind_spec (s sep : cppstring) (pos : nat) :
  match rfind s sep pos with
  | Some r => r <= pos /\ occurs_at s sep r /\
              forall j, r < j <= pos -> ~ occurs_at s sep j
  | None => forall j, j <= pos -> ~ occurs_at s sep j
  end.
Proof.
  unfold rfind. destruct (decide _) as [Hle|Hgt].
  - pose proof (rfind_down_spec s sep (Nat.min pos (length s - length sep))) as F.
    destruct (rfind_down _ _ _) as [r|].
    + destruct F as (Hr & Ho & Hmax). split; [lia|]. split; [done|].
      intros j Hj [E Hb]. apply (Hmax j); [lia|]. by split.
    + intros j Hj [E Hb]. apply (F j); [lia|]. by split.
  - intros j Hj [_ Hb]. lia.
Qed.

Lemma findNextSeparator_loop_spec (s sep : cppstring) (fuel : nat) :
  sep <> [] ->
  forall pos, 0 < fuel -> length s < fuel + pos ->
  match findNextSeparator_loop fuel s sep pos with
  | Some (Some r) =>
      pos <= r /\ r mod length sep = 0 /\ occurs_at s sep r /\
      forall j, pos <= j < r -> j mod length sep = 0 -> ~ occurs_at s sep j
  | Some None =>
      forall j, pos <= j -> j mod length sep = 0 -> ~ occurs_at s sep j
  | None => False
  end.
Proof.
  intros Hsep.
  assert (Hn : 0 < length sep) by (destruct sep; [done|cbn; lia]).
  induction fuel as [|fuel IH]; intros pos Hf Hlen; [lia|].
  cbn [findNextSeparator_loop].
  pose proof (find_spec s sep pos) as F.
  destruct (find s sep pos) as [r|].
  2:{ intros j Hj _. by apply F. }
  destruct F as (Hr & Ho & Hmin).
  destruct (decide (length sep = 0)) as [?|_]; [lia|].
  destruct (Nat.eqb_spec (r mod length sep) 0) as [Hm|Hm].
  { split; [done|]. split; [done|]. split; [done|].
    intros j Hj _. by apply Hmin. }
  assert (Hb : r + length sep <= length s) by apply Ho.
  specialize (IH (r + 1)).
  destruct (findNextSeparator_loop fuel s sep (r + 1)) as [[r'|]|].
  - destruct IH as (Hr' & Hm' & Ho' & Hmin'); [lia|lia|].
    split; [lia|]. split; [done|]. split; [done|].
    intros j Hj Hjm. destruct (decide (j < r)) as [Hlt|Hge].
    + apply Hmin. lia.
    + destruct (decide (j = r)) as [->|]; [done|].
      apply Hmin'; [lia|done].
  - intros j Hj Hjm. destruct (decide (j < r)) as [Hlt|Hge].
    + apply Hmin. lia.
    + destruct (decide (j = r)) as [->|]; [done|].
      apply IH; [lia|lia|lia|done].
  - apply IH; lia.
Qed.

(** X12. With a separator that is not empty, [findNextSeparator]
    returns from every position, and finds the first aligned position
    not before [separatorBytePos] at which the separator stands:
    true with that position, or false when there is none. *)
Theorem findNextSeparator_spec (B : Binding) (p : t) (separatorBytePos : nat) :
  localseparator <> [] ->
  match findNextSeparator p separatorBytePos with
  | Some (Some r) =>
      separatorBytePos <= r /\ r mod length localseparator = 0 /\
      occurs_at (localpath p) localseparator r /\
      forall j, separatorBytePos <= j < r -> j mod length localseparator = 0 ->
                ~ occurs_at (localpath p) localseparator j
  | Some None =>
      forall j, separatorBytePos <= j -> j mod length localseparator = 0 ->
                ~ occurs_at (localpath p) localseparator j
  | None => False
  end.
Proof.
  intros Hsep. unfold findNextSeparator.
  apply findNextSeparator_loop_spec; [done|lia|lia].
Qed.

Lemma findNextSeparator_spec_witness :
  1 <= 4 /\ 4 mod 2 = 0 /\
  occurs_at (lit "a\" ++ [NUL] ++ lit "b\" ++ [NUL] ++ lit "\" ++ [NUL])
    (@localseparator wide_like) 4 /\
  forall j, 1 <= j < 4 -> j mod 2 = 0 ->
    ~ occurs_at (lit "a\" ++ [NUL] ++ lit "b\" ++ [NUL] ++ lit "\" ++ [NUL])
        (@localseparator wide_like) j.
Proof.
  apply (findNextSeparator_spec wide_like
           (mk (lit "a\" ++ [NUL] ++ lit "b\" ++ [NUL] ++ lit "\" ++ [NUL])) 1).
  discriminate.
Defined.

Lemma findPrevSeparator_loop_spec (s sep : cppstring) (fuel : nat) :
  sep <> [] ->
  forall pos, Nat.min pos (length s) < fuel ->
  match findPrevSeparator_loop fuel s sep pos with
  | Some (Some r) =>
      r <= pos /\ r mod length sep = 0 /\ occurs_at s sep r /\
      forall j, r < j <= pos -> j mod length sep = 0 -> ~ occurs_at s sep j
  | Some None =>
      forall j, j <= pos -> j mod length sep = 0 -> ~ occurs_at s sep j
  | None => False
  end.
Proof.
  intros Hsep.
  assert (Hn : 0 < length sep) by (destruct sep; [done|cbn; lia]).
  induction fuel as [|fuel IH]; intros pos Hf; [lia|].
  cbn [findPrevSeparator_loop].
  pose proof (rfind_spec s sep pos) as F.
  destruct (rfind s sep pos) as [r|].
  2:{ intros j Hj _. by apply F. }
  destruct F as (Hr & Ho & Hmax).
  destruct (decide (length sep = 0)) as [?|_]; [lia|].
  destruct (Nat.eqb_spec (r mod length sep) 0) as [Hm|Hm].
  { split; [done|]. split; [done|]. split; [done|].
    intros j Hj _. by apply Hmax. }
  assert (Hb : r + length sep <= length s) by apply Ho.
  assert (Hr0 : r <> 0).
  { intros ->. apply Hm. by apply Nat.Div0.mod_0_l. }
  specialize (IH (r - 1)).
  destruct (findPrevSeparator_loop fuel s sep (r - 1)) as [[r'|]|].
  - destruct IH as (Hr' & Hm' & Ho' & Hmax'); [lia|].
    split; [lia|]. split; [done|]. split; [done|].
    intros j Hj Hjm. destruct (decide (r < j)) as [Hlt|Hge].
    + apply Hmax. lia.
    + destruct (decide (j = r)) as [->|]; [done|].
      apply Hmax'; [lia|done].
  - intros j Hj Hjm. destruct (decide (r < j)) as [Hlt|Hge].
    + apply Hmax. lia.
    + destruct (decide (j = r)) as [->|]; [done|].
      apply IH; [lia|lia|done].
  - apply IH; lia.
Qed.

(** X13. With a separator that is not empty, [findPrevSeparator]
    returns from every position, and finds the last aligned position
    not after [separatorBytePos] at which the separator stands: true
    with that position, or false when there is none. *)
Theorem findPrevSeparator_spec (B : Binding) (p : t) (separatorBytePos : nat) :
  localseparator <> [] ->
  match findPrevSeparator p separatorBytePos with
  | Some (Some r) =>
      r <= separatorBytePos /\ r mod length localseparator = 0 /\
      occurs_at (localpath p) localseparator r /\
      forall j, r < j <= separatorBytePos -> j mod length localseparator = 0 ->
                ~ occurs_at (localpath p) localseparator j
  | Some None =>
      forall j, j <= separatorBytePos -> j mod length localseparator = 0 ->
                ~ occurs_at (localpath p) localseparator j
  | None => False
  end.
Proof.
  intros Hsep. unfold findPrevSeparator.
  apply findPrevSeparator_loop_spec; [done|lia].
Qed.

Lemma findPrevSeparator_spec_witness :
  2 <= 4 /\ 2 mod 1 = 0 /\
  occurs_at (lit "/a/bc") (@localseparator posix_like) 2 /\
  forall j, 2 < j <= 4 -> j mod 1 = 0 ->
    ~ occurs_at (lit "/a/bc") (@localseparator posix_like) j.
Proof.
  apply (findPrevSeparator_spec posix_like (mk (lit "/a/bc")) 4).
  discriminate.
Defined.

(** *** The leaf name *)

Lemma getLeafnameByteIndex_loop_spec (s sep : cppstring) (fuel : nat) :
  0 < length sep ->
  forall m, m * length sep <= length s -> m < fuel ->
  exists r, getLeafnameByteIndex_loop fuel s sep (m * length sep) = Some r /\
    ((r = 0 /\ forall k, 1 <= k < m -> ~ occurs_at s sep (k * length sep)) \/
     (exists k, 1 <= k < m /\ r = S k * length sep /\
        occurs_at s sep (k * length sep) /\
        forall k', k < k' < m -> ~ occurs_at s sep (k' * length sep))).
Proof.
  intros Hn. induction fuel as [|fuel IH]; intros m Hm Hf; [lia|].
  cbn [getLeafnameByteIndex_loop].
  destruct m as [|m].
  { exists 0. split; [done|]. left. split; [done|]. intros k Hk. lia. }
  destruct (Nat.eqb_spec (S m * length sep) 0) as [E|_]; [cbn in E; lia|].
  destruct (decide (S m * length sep < length sep)) as [E|_]; [cbn in E; lia|].
  replace (S m * length sep - length sep) with (m * length sep) by (cbn; lia).
  destruct m as [|m].
  { exists 0. split; [done|]. left. split; [done|]. intros k Hk. lia. }
  destruct (Nat.eqb_spec (S m * length sep) 0) as [E|_]; [cbn in E; lia|].
  rewrite memcmp_eq_occurs by (cbn in Hm |- *; lia).
  destruct (bool_decide_reflect (occurs_at s sep (S m * length sep))) as [Ho|Ho].
  - exists (S m * length sep + length sep). split; [done|]. right.
    exists (S m). split; [lia|]. split; [cbn; lia|]. split; [done|].
    intros k' Hk'. lia.
  - destruct (IH (S m)) as (r & -> & Hr); [cbn in Hm |- *; lia|lia|].
    exists r. split; [done|].
    destruct Hr as [[-> Hno]|(k & Hk & -> & Hok & Hno)].
    + left. split; [done|]. intros k Hk.
      destruct (decide (k = S m)) as [->|]; [done|]. apply Hno. lia.
    + right. exists k. split; [lia|]. split; [done|]. split; [done|].
      intros k' Hk'.
      destruct (decide (k' = S m)) as [->|]; [done|]. apply Hno. lia.
Qed.

(** X14. On a path of [n] whole code units, with a separator that is
    not empty, [getLeafnameByteIndex] returns the index just after the
    last separator that stands at a unit from the second one on, and 0
    when there is none: a separator at the very start of the path is
    never looked at.  The index lies inside the path. *)
Theorem getLeafnameByteIndex_spec (B : Binding) (p : t) (n : nat) :
  localseparator <> [] ->
  length (localpath p) = n * length localseparator ->
  exists r, getLeafnameByteIndex p = Some r /\
    r <= length (localpath p) /\
    ((r = 0 /\
      forall k, 1 <= k < n ->
        ~ occurs_at (localpath p) localseparator (k * length localseparator)) \/
     (exists k, 1 <= k < n /\ r = S k * length localseparator /\
        occurs_at (localpath p) localseparator (k * length localseparator) /\
        forall k', k < k' < n ->
          ~ occurs_at (localpath p) localseparator (k' * length localseparator))).
Proof.
  intros Hsep Hlen.
  assert (Hn : 0 < length localseparator)
    by (destruct localseparator; [done|cbn; lia]).
  unfold getLeafnameByteIndex. rewrite Hlen.
  destruct (getLeafnameByteIndex_loop_spec (localpath p) localseparator
              (S (n * length localseparator)) Hn n) as (r & E & Hr);
    [lia|nia|].
  exists r. split; [done|]. split; [|done].
  destruct Hr as [[-> _]|(k & Hk & -> & _)]; [lia|].
  apply Nat.mul_le_mono_r. lia.
Qed.

Lemma getLeafnameByteIndex_spec_witness :
  exists r, @getLeafnameByteIndex posix_like (mk (lit "/a/bc")) = Some r /\
    r <= 5 /\
    ((r = 0 /\
      forall k, 1 <= k < 5 -> ~ occurs_at (lit "/a/bc") (lit "/") (k * 1)) \/
     (exists k, 1 <= k < 5 /\ r = S k * 1 /\
        occurs_at (lit "/a/bc") (lit "/") (k * 1) /\
        forall k', k < k' < 5 -> ~ occurs_at (lit "/a/bc") (lit "/") (k' * 1))).
Proof.
  apply (getLeafnameByteIndex_spec posix_like (mk (lit "/a/bc")) 5).
  - discriminate.
  - reflexivity.
Defined.

(** *** Trimming *)

Lemma land_neg_pow2 (m : Z) (k : nat) :
  Z.land (m * 2 ^ Z.of_nat k) (- 2 ^ Z.of_nat k) = (m * 2 ^ Z.of_nat k)%Z.
Proof.
  rewrite <- Z.shiftl_mul_pow2 by lia.
  replace (- 2 ^ Z.of_nat k)%Z with (Z.shiftl (-1) (Z.of_nat k))
    by (rewrite Z.shiftl_mul_pow2; lia).
  by rewrite <- Z.shiftl_land, Z.land_m1_r.
Qed.

Lemma occurs_at_end (s sep : cppstring) :
  length sep <= length s ->
  occurs_at s sep (length s - length sep) <-> sep `suffix_of` s.
Proof.
  intros Hle. unfold occurs_at. split.
  - intros [E _].
    assert (Hd : drop (length s - length sep) s = sep).
    { rewrite <- E at 2. symmetry. apply take_ge. rewrite length_drop. lia. }
    exists (take (length s - length sep) s).
    rewrite <- Hd at 2. symmetry. apply take_drop.
  - intros [k ->]. rewrite length_app.
    replace (length k + length sep - length sep) with (length k) by lia.
    rewrite drop_app_length, firstn_all. split; [done|lia].
Qed.

Lemma trimTrailingSeparator_cases (B : Binding) (p : t) (k : nat) :
  length localseparator = 2 ^ k ->
  aligned localseparator p ->
  (Z.of_nat (length (localpath p)) < 2 ^ 31)%Z ->
  trimTrailingSeparator p
  = Some (if bool_decide (localseparator `suffix_of` localpath p)
          then mk (take (length (localpath p) - length localseparator) (localpath p))
          else p).
Proof.
  intros Hk [m Hm] Hsmall. unfold trimTrailingSeparator.
  destruct (decide (length localseparator <= length (localpath p))) as [Hle|Hgt].
  2:{ rewrite bool_decide_eq_false_2; [done|].
      intros Hs%suffix_length. lia. }
  assert (Hpos : 0 < 2 ^ k) by (apply Nat.neq_0_lt_0, Nat.pow_nonzero; lia).
  assert (Hz : Z.of_nat (length localseparator) = (2 ^ Z.of_nat k)%Z).
  { rewrite Hk, Nat2Z.inj_pow. done. }
  assert (Ho : trim_offset (length (localpath p)) (length localseparator)
               = Z.of_nat (length (localpath p) - length localseparator)).
  { unfold trim_offset.
    rewrite !EscapeFacts.int_of_size_small by lia.
    rewrite Hm at 1. rewrite Nat2Z.inj_mul, Hz, land_neg_pow2.
    rewrite <- Hz, <- Nat2Z.inj_mul, <- Hm. lia. }
  rewrite Ho.
  destruct (decide _) as [E|_].
  { rewrite EscapeFacts.int_of_size_small in E by lia. lia. }
  destruct (decide _) as [_|N]; [|lia].
  rewrite Nat2Z.id.
  rewrite memcmp_eq_occurs by lia.
  rewrite (bool_decide_ext _ _ (occurs_at_end _ _ Hle)).
  destruct (bool_decide _); [|done].
  unfold string_resize.
  replace (length (localpath p) - length localseparator - length (localpath p))
    with 0 by lia.
  by rewrite app_nil_r.
Qed.

(** X15. With a separator of a power-of-two size and paths of whole
    code units (below 2^31 bytes), [trimTrailingSeparator] undoes the
    separator that [separatorAppend] puts at the end, and leaves a path
    that does not end in a separator as it is. *)
Theorem trimTrailingSeparator_separatorAppend (B : Binding) (p : t) (k : nat) :
  length localseparator = 2 ^ k ->
  aligned localseparator p ->
  (Z.of_nat (length (localpath p) + length localseparator) < 2 ^ 31)%Z ->
  trimTrailingSeparator (separatorAppend p (mk []) true) = Some p /\
  (~ localseparator `suffix_of` localpath p -> trimTrailingSeparator p = Some p).
Proof.
  intros Hk Ha Hsmall. split.
  - assert (E : separatorAppend p (mk []) true = mk (localpath p ++ localseparator)).
    { unfold separatorAppend. cbn [orb localpath]. by rewrite app_nil_r. }
    rewrite E.
    rewrite (trimTrailingSeparator_cases B _ k Hk).
    + cbn [localpath].
      rewrite bool_decide_eq_true_2 by by apply suffix_app_r.
      rewrite length_app.
      replace (length (localpath p) + length localseparator - length localseparator)
        with (length (localpath p)) by lia.
      rewrite take_app_length. by destruct p.
    + destruct Ha as [m Hm]. exists (S m). cbn [localpath].
      rewrite length_app, Hm. cbn. lia.
    + cbn [localpath]. rewrite length_app. lia.
  - intros Hns. rewrite (trimTrailingSeparator_cases B p k Hk Ha) by lia.
    by rewrite bool_decide_eq_false_2.
Qed.

Lemma trimTrailingSeparator_separatorAppend_witness :
  @trimTrailingSeparator wide_like
    (@separatorAppend wide_like (mk (lit "a" ++ [NUL])) (mk []) true)
  = Some (mk (lit "a" ++ [NUL])) /\
  (~ @localseparator wide_like `suffix_of` (lit "a" ++ [NUL]) ->
   @trimTrailingSeparator wide_like (mk (lit "a" ++ [NUL]))
   = Some (mk (lit "a" ++ [NUL]))).
Proof.
  apply (trimTrailingSeparator_separatorAppend wide_like (mk (lit "a" ++ [NUL])) 1).
  - reflexivity.
  - exists 1. reflexivity.
  - vm_compute; reflexivity.
Defined.

(** *** Tails and substrings *)

(** X16. As long as the sum of position and length does not wrap
    around, [backEqual] returns, and returns true exactly when
    [compareTo] has the length of the tail of the path from [bytePos]
    and is different from that tail: the result of [memcmp] is not
    negated. *)
Theorem backEqual_spec (p : t) (bytePos : nat) (compareTo : cppstring) :
  (Z.of_nat bytePos + Z.of_nat (length compareTo) < 2 ^ 64)%Z ->
  backEqual p bytePos compareTo
  = Some (bool_decide (bytePos + length compareTo = length (localpath p) /\
                       drop bytePos (localpath p) <> compareTo)).
Proof.
  intros Hsmall. unfold backEqual. rewrite Z.mod_small by lia.
  destruct (bool_decide_reflect
              ((Z.of_nat bytePos + Z.of_nat (length compareTo))%Z
               = Z.of_nat (length (localpath p)))) as [E|E].
  - assert (E' : bytePos + length compareTo = length (localpath p)) by lia.
    rewrite drop_data by lia.
    rewrite memcmp_eq_data by (rewrite ?length_drop; lia).
    rewrite firstn_all, take_ge by (rewrite length_drop; lia).
    cbn [fmap option_fmap option_map]. f_equal.
    destruct (bool_decide_reflect (compareTo = drop bytePos (localpath p)))
      as [Eq|Ne]; cbn [negb].
    + rewrite bool_decide_eq_false_2; [done|]. intros [_ N]. by apply N.
    + rewrite bool_decide_eq_true_2; [done|]. split; [done|].
      intros Eq. by apply Ne.
  - rewrite bool_decide_eq_false_2; [done|]. intros [E' _]. lia.
Qed.

Lemma backEqual_spec_witness :
  backEqual (mk (lit "a/b")) 1 (lit "/b") = Some false /\
  backEqual (mk (lit "a/b")) 1 (lit "/c") = Some true.
Proof.
  split.
  - rewrite (backEqual_spec (mk (lit "a/b")) 1 (lit "/b")) by (vm_compute; reflexivity).
    vm_compute; reflexivity.
  - rewrite (backEqual_spec (mk (lit "a/b")) 1 (lit "/c")) by (vm_compute; reflexivity).
    vm_compute; reflexivity.
Defined.

(** X17. At a position inside the path, [substrTo] and [subpathFrom]
    cut the path in two: [subpathFrom] does not throw, the first part
    has [bytePos] bytes, and the two parts put together are the path.
    Past the end [subpathFrom] throws, and [substrTo] is the whole
    path. *)
Theorem substrTo_subpathFrom (p : t) (bytePos : nat) :
  (bytePos <= length (localpath p) ->
   exists q, subpathFrom p bytePos = Some q /\
     length (substrTo p bytePos) = bytePos /\
     substrTo p bytePos ++ localpath q = localpath p) /\
  (length (localpath p) < bytePos ->
   subpathFrom p bytePos = None /\ substrTo p bytePos = localpath p).
Proof.
  unfold subpathFrom, substrTo, fromLocalname. split; intros Hb.
  - destruct (decide _) as [_|N]; [|lia].
    eexists. split; [done|]. cbn [localpath].
    split; [rewrite length_take; lia|apply take_drop].
  - destruct (decide _) as [N|_]; [lia|].
    split; [done|]. apply take_ge. lia.
Qed.

Lemma substrTo_subpathFrom_witness :
  (exists q, subpathFrom (mk (lit "/a/b")) 2 = Some q /\
     length (substrTo (mk (lit "/a/b")) 2) = 2 /\
     substrTo (mk (lit "/a/b")) 2 ++ localpath q = lit "/a/b") /\
  subpathFrom (mk (lit "/a/b")) 5 = None /\
  substrTo (mk (lit "/a/b")) 5 = lit "/a/b".
Proof.
  split.
  - apply (proj1 (substrTo_subpathFrom (mk (lit "/a/b")) 2)). vm_compute; lia.
  - apply (proj2 (substrTo_subpathFrom (mk (lit "/a/b")) 5)). vm_compute; lia.
Defined.

End LocalPathMore.

(** ** The notification queues: invariants of [notify] *)

Module DirNotifyMore.
Import DirNotify DirNotifyFacts.

Lemma target_set_timestamp (e : Notification) (ts : Z) :
  target (set_timestamp e ts) = target e.
Proof. reflexivity. Qed.

(** The three ways through [notify], with what each leaves. *)
Lemma notify_cases (E : Engine) (ds : Z) (q : notifyqueue) (l : ptr)
    (p : LocalPath.t) (immediate : bool) (d d' : t) (o : outcome) :
  notify E ds q l p immediate d = Some (o, d') ->
  (o = RepeatedSkipped /\ direvents_or_extra q = true /\
   d' = set_notifyq d q (refresh_back ds immediate (notifyq d q)) /\
   exists e, last (notifyq d q) = Some e /\ localnode e = l /\ path e = p) \/
  (o = SelfSkipped /\ d' = d /\ immediate = false /\ q = DIREVENTS /\
   repeated d q l p = false) \/
  (o = Enqueued /\ repeated d q l p = false /\
   exists d0, d' = enqueue ds q l p immediate d0 /\
     notifyq d0 = notifyq d /\
     localbasepath d0 = localbasepath d /\ ignore d0 = ignore d /\
     failed d0 = failed d /\ failreason d0 = failreason d /\
     error d0 = error d /\
     if direvents_or_extra q
     then exists s, sync d = Some s /\ sync d0 = Some (mkSync (initializing s) true)
     else sync d0 = sync d).
Proof.
  unfold notify.
  destruct (repeated d q l p) eqn:Hrep.
  { intros [= <- <-]. left. apply repeated_true in Hrep as [Hq He]. auto. }
  destruct (self_check_applies d q immediate && self_notification E l p) eqn:Hself.
  { intros [= <- <-]. right; left.
    apply andb_true_iff in Hself as [Hs _]. unfold self_check_applies in Hs.
    apply andb_true_iff in Hs as [Hs Hq%bool_decide_eq_true].
    apply andb_true_iff in Hs as [Hi _].
    destruct immediate; [discriminate|]. auto. }
  destruct (direvents_or_extra q).
  - destruct (sync d) as [s|] eqn:Hsync; [|discriminate].
    intros [= <- <-]. right; right. split; [done|]. split; [done|].
    eexists. split; [reflexivity|]. cbn. repeat split; eauto.
  - intros [= <- <-]. right; right. split; [done|]. split; [done|].
    exists d. repeat split; done.
Qed.

(** X18. [notify] dereferences [sync] exactly where it enqueues on
    [DIREVENTS] or [EXTRA]: it is undefined exactly when [sync] is
    [NULL] there, as the constructor leaves it; when it returns, the
    activity flag of the client is set exactly by a notification
    enqueued on one of these two queues, and [sync] is otherwise left
    as it is. *)
Theorem notify_sync (E : Engine) (ds : Z) (q : notifyqueue) (l : ptr)
    (p : LocalPath.t) (immediate : bool) (d : t) :
  (notify E ds q l p immediate d = None <->
   sync d = None /\ direvents_or_extra q = true /\ repeated d q l p = false) /\
  (forall a b, notify E ds DIREVENTS l p immediate (create a b) = None) /\
  (forall o d',
     notify E ds q l p immediate d = Some (o, d') ->
     match o with
     | Enqueued =>
         if direvents_or_extra q
         then exists s, sync d = Some s /\
                sync d' = Some (mkSync (initializing s) true)
         else sync d' = sync d
     | _ => sync d' = sync d
     end).
Proof.
  split; [|split].
  - unfold notify, self_check_applies.
    destruct (repeated d q l p); [split; [discriminate|intros (_ & _ & [=])]|].
    destruct (sync d) as [s|].
    + split; [|intros ([=] & _)].
      destruct (_ && _); [discriminate|].
      destruct (direvents_or_extra q); discriminate.
    + rewrite andb_false_r. cbn [andb].
      destruct (direvents_or_extra q); [done|].
      split; [discriminate|intros (_ & [=] & _)].
  - intros a b. by destruct immediate.
  - intros o d' Hn.
    destruct (notify_cases _ _ _ _ _ _ _ _ _ Hn)
      as [(-> & _ & -> & _)|[(-> & -> & _)|(-> & _ & d0 & -> & _ & _ & _ & _ & _ & _ & Hs)]].
    + reflexivity.
    + reflexivity.
    + destruct (direvents_or_extra q); exact Hs.
Qed.

Lemma notify_sync_witness :
  let E := example_engine false example_folder example_node
             (mkFileStat true false true 7 FOLDERNODE 0 0) in
  let p := LocalPath.mk (lit "x") in
  exists s, sync example_watcher = Some s /\
    sync (enqueue 5 DIREVENTS None p false
            (set_sync example_watcher (Some (mkSync false true))))
    = Some (mkSync (initializing s) true).
Proof.
  intros E p.
  apply (proj2 (proj2 (notify_sync E 5 DIREVENTS None p false example_watcher))
           Enqueued).
  vm_compute; reflexivity.
Defined.

Lemma prefix_removelast_refresh (ds : Z) (immediate : bool) (l : list Notification) :
  removelast l `prefix_of` refresh_back ds immediate l /\
  target <$> refresh_back ds immediate l = target <$> l /\
  length (refresh_back ds immediate l) = length l.
Proof.
  unfold refresh_back. destruct (last l) as [e|] eqn:He.
  2:{ split; [|done]. destruct l as [|x l] using rev_ind; [done|].
      by rewrite last_snoc in He. }
  pose proof (last_snoc_inv _ _ He) as El.
  destruct (bool_decide (timestamp e = 0%Z)).
  { split; [|done]. rewrite El at 2. by apply prefix_app_r. }
  split; [by apply prefix_app_r|]. split.
  - rewrite El at 2. by rewrite !fmap_app.
  - rewrite El at 2. by rewrite !length_app.
Qed.

(** X19. Whatever way [notify] takes, it only works at the end of its
    queue: the other queues and the other fields of the watcher are
    left alone, every entry but the last stays, the nodes and paths of
    the entries stay in their order, and the queue grows by at most one
    entry. *)
Theorem notify_frame (E : Engine) (ds : Z) (q : notifyqueue) (l : ptr)
    (p : LocalPath.t) (immediate : bool) (d d' : t) (o : outcome) :
  notify E ds q l p immediate d = Some (o, d') ->
  (forall q', q' <> q -> notifyq d' q' = notifyq d q') /\
  (localbasepath d' = localbasepath d /\ ignore d' = ignore d /\
   failed d' = failed d /\ failreason d' = failreason d /\ error d' = error d) /\
  removelast (notifyq d q) `prefix_of` notifyq d' q /\
  (target <$> notifyq d q) `prefix_of` (target <$> notifyq d' q) /\
  length (notifyq d q) <= length (notifyq d' q) <= S (length (notifyq d q)).
Proof.
  intros Hn.
  destruct (notify_cases _ _ _ _ _ _ _ _ _ Hn)
    as [(-> & _ & -> & _)
       |[(-> & -> & _)
        |(-> & _ & d0 & -> & Hq0 & Hb & Hi & Hf & Hr & He & _)]].
  - destruct (prefix_removelast_refresh ds immediate (notifyq d q))
      as (Hp & Ht & Hl).
    split; [intros q' Hq'; by apply notifyq_set_other|].
    split; [done|]. rewrite notifyq_set_same.
    split; [done|]. split; [by rewrite Ht|lia].
  - split; [done|]. split; [done|].
    split.
    { destruct (notifyq d q) as [|x k] using rev_ind; [done|].
      rewrite removelast_snoc. by apply prefix_app_r. }
    split; [done|lia].
  - unfold enqueue.
    split; [intros q' Hq'; rewrite notifyq_set_other by done; by rewrite Hq0|].
    split; [done|]. rewrite notifyq_set_same, Hq0.
    split.
    { etrans; [|by apply prefix_app_r].
      destruct (notifyq d q) as [|x k] using rev_ind; [done|].
      rewrite removelast_snoc. by apply prefix_app_r. }
    split; [rewrite fmap_app; by apply prefix_app_r|].
    rewrite length_app. cbn. lia.
Qed.

Lemma notify_frame_witness :
  let E := example_engine false example_folder example_node
             (mkFileStat true false true 7 FOLDERNODE 0 0) in
  let p := LocalPath.mk (lit "x") in
  let d' := enqueue 5 DIREVENTS None p false
              (set_sync example_watcher (Some (mkSync false true))) in
  (forall q', q' <> DIREVENTS -> notifyq d' q' = notifyq example_watcher q') /\
  (localbasepath d' = localbasepath example_watcher /\
   ignore d' = ignore example_watcher /\
   failed d' = failed example_watcher /\
   failreason d' = failreason example_watcher /\
   error d' = error example_watcher) /\
  removelast (notifyq example_watcher DIREVENTS) `prefix_of` notifyq d' DIREVENTS /\
  (target <$> notifyq example_watcher DIREVENTS)
    `prefix_of` (target <$> notifyq d' DIREVENTS) /\
  length (notifyq example_watcher DIREVENTS) <= length (notifyq d' DIREVENTS)
    <= S (length (notifyq example_watcher DIREVENTS)).
Proof.
  intros E p d'.
  apply (notify_frame E 5 DIREVENTS None p false example_watcher d' Enqueued).
  vm_compute; reflexivity.
Defined.

(** X20. A notification that is not skipped as the engine's own is
    the last entry of its queue when [notify] returns, with a timestamp
    of 0 or the current tick; an immediate notification is never
    skipped as the engine's own, and its timestamp is 0. *)
Theorem notify_leaves_back (E : Engine) (ds : Z) (q : notifyqueue) (l : ptr)
    (p : LocalPath.t) (immediate : bool) (d d' : t) (o : outcome) :
  notify E ds q l p immediate d = Some (o, d') ->
  (immediate = true -> o <> SelfSkipped) /\
  (o <> SelfSkipped ->
   exists e, last (notifyq d' q) = Some e /\
     localnode e = l /\ path e = p /\
     (timestamp e = 0%Z \/ timestamp e = ds) /\
     (immediate = true -> timestamp e = 0%Z)).
Proof.
  intros Hn.
  destruct (notify_cases _ _ _ _ _ _ _ _ _ Hn)
    as [(-> & _ & -> & e & He & Hl & Hp)
       |[(-> & -> & -> & _)
        |(-> & _ & d0 & -> & Hq0 & _)]].
  - split; [done|]. intros _. rewrite notifyq_set_same.
    rewrite (refresh_back_last _ _ _ _ He), last_snoc.
    eexists. split; [reflexivity|]. cbn.
    split; [done|]. split; [done|].
    destruct (bool_decide (timestamp e = 0%Z)), immediate;
      (split; [auto|]); try done.
  - split; [done|]. done.
  - split; [done|]. intros _. unfold enqueue.
    rewrite notifyq_set_same, last_snoc.
    eexists. split; [reflexivity|]. cbn.
    destruct immediate; (split; [done|]); (split; [done|]);
      (split; [auto|]); done.
Qed.

Lemma notify_leaves_back_witness :
  let E := example_engine true example_folder example_node
             (mkFileStat true false true 7 FOLDERNODE 0 0) in
  let p := LocalPath.mk (lit "x") in
  let d' := enqueue 5 DIREVENTS None p true
              (set_sync example_watcher (Some (mkSync false true))) in
  (true = true -> Enqueued <> SelfSkipped) /\
  (Enqueued <> SelfSkipped ->
   exists e, last (notifyq d' DIREVENTS) = Some e /\
     localnode e = None /\ path e = p /\
     (timestamp e = 0%Z \/ timestamp e = 5%Z) /\
     (true = true -> timestamp e = 0%Z)).
Proof.
  intros E p d'.
  apply (notify_leaves_back E 5 DIREVENTS None p true example_watcher d' Enqueued).
  vm_compute; reflexivity.
Defined.

(** *** No entry repeats the one before it *)

Lemma adjacent_distinct_snoc (k : list Notification) (e : Notification) :
  adjacent_distinct k ->
  (forall e0, last k = Some e0 -> target e0 <> target e) ->
  adjacent_distinct (k ++ [e]).
Proof.
  intros Hk Hlast i e1 e2 H1 H2.
  destruct (decide (S i < length k)) as [Hi|Hi].
  - rewrite lookup_app_l in H1 by lia. rewrite lookup_app_l in H2 by lia.
    by apply (Hk i).
  - assert (Hlen : S i = length k).
    { apply lookup_lt_Some in H2. rewrite length_app in H2. cbn in H2. lia. }
    rewrite lookup_app_l in H1 by lia.
    rewrite lookup_app_r in H2 by lia.
    replace (S i - length k) with 0 in H2 by lia. injection H2 as <-.
    apply Hlast. rewrite last_lookup.
    by replace (Nat.pred (length k)) with i by lia.
Qed.

Lemma adjacent_distinct_targets (k k' : list Notification) :
  target <$> k' = target <$> k -> adjacent_distinct k -> adjacent_distinct k'.
Proof.
  intros Ht Hk i e1 e2 H1 H2.
  assert (G : forall j e, k' !! j = Some e ->
              exists e', k !! j = Some e' /\ target e' = target e).
  { intros j e He.
    assert (Hj : (target <$> k) !! j = Some (target e))
      by (rewrite <- Ht, list_lookup_fmap, He; done).
    rewrite list_lookup_fmap in Hj.
    destruct (k !! j) as [e'|]; [|discriminate].
    cbn in Hj. exists e'. split; [done|]. congruence. }
  destruct (G _ _ H1) as (e1' & H1' & <-).
  destruct (G _ _ H2) as (e2' & H2' & <-).
  by apply (Hk i).
Qed.

Lemma notify_adjacent_distinct (E : Engine) (ds : Z) (q q0 : notifyqueue)
    (l : ptr) (p : LocalPath.t) (immediate : bool) (d d' : t) (o : outcome) :
  direvents_or_extra q0 = true ->
  adjacent_distinct (notifyq d q0) ->
  notify E ds q l p immediate d = Some (o, d') ->
  adjacent_distinct (notifyq d' q0).
Proof.
  intros Hq0 Hd Hn.
  destruct (decide (q0 = q)) as [->|Hne].
  2:{ destruct (notify_cases _ _ _ _ _ _ _ _ _ Hn)
        as [(_ & _ & -> & _)|[(_ & -> & _)|(_ & _ & d0 & -> & Hq & _)]].
      - by rewrite notifyq_set_other.
      - done.
      - unfold enqueue. rewrite notifyq_set_other by done. by rewrite Hq. }
  destruct (notify_cases _ _ _ _ _ _ _ _ _ Hn)
    as [(_ & _ & -> & _)|[(_ & -> & _)|(_ & Hrep & d0 & -> & Hq & _)]].
  - rewrite notifyq_set_same.
    apply (adjacent_distinct_targets (notifyq d q)); [|done].
    apply prefix_removelast_refresh.
  - done.
  - unfold enqueue. rewrite notifyq_set_same, Hq.
    apply adjacent_distinct_snoc; [done|].
    intros e0 He0 Ht. injection Ht as Hl Hp.
    assert (Hr : repeated d q l p = true).
    { apply repeated_true. split; [done|]. eauto. }
    congruence.
Qed.

(** X21. On [DIREVENTS] and on [EXTRA] no entry ever has the node and
    path of the entry before it: this holds of the empty queues that
    the constructor leaves, and every sequence of calls of [notify]
    keeps it, whatever the engine does in between. *)
Theorem notify_all_adjacent_distinct (calls : list call) (q : notifyqueue) :
  direvents_or_extra q = true ->
  (forall a b, adjacent_distinct (notifyq (create a b) q)) /\
  (forall d d',
     adjacent_distinct (notifyq d q) ->
     notify_all calls d = Some d' ->
     adjacent_distinct (notifyq d' q)).
Proof.
  intros Hq. split.
  { intros a b i e1 e2 H1. discriminate. }
  induction calls as [|c calls IH]; intros d d' Hd; cbn [notify_all].
  - by intros [= <-].
  - destruct (notify _ _ _ _ _ _ d) as [[o d1]|] eqn:Hn; [|discriminate].
    apply IH. by eapply notify_adjacent_distinct.
Qed.

Lemma notify_all_adjacent_distinct_witness :
  let E := example_engine false example_folder example_node
             (mkFileStat true false true 7 FOLDERNODE 0 0) in
  let x := LocalPath.mk (lit "x") in
  let y := LocalPath.mk (lit "y") in
  exists d',
    notify_all [mkCall E 5 DIREVENTS None x false;
                mkCall E 6 DIREVENTS None x true;
                mkCall E 7 DIREVENTS None y false;
                mkCall E 8 DIREVENTS None x false] example_watcher = Some d' /\
    notifyq d' DIREVENTS
    = [mkNotification 0 None x; mkNotification 7 None y; mkNotification 8 None x] /\
    adjacent_distinct (notifyq d' DIREVENTS).
Proof.
  intros E x y. eexists. split; [vm_compute; reflexivity|].
  split; [vm_compute; reflexivity|].
  eapply (proj2 (notify_all_adjacent_distinct
                   [mkCall E 5 DIREVENTS None x false;
                    mkCall E 6 DIREVENTS None x true;
                    mkCall E 7 DIREVENTS None y false;
                    mkCall E 8 DIREVENTS None x false] DIREVENTS eq_refl)
            example_watcher).
  - intros i e1 e2 H1. discriminate.
  - vm_compute; reflexivity.
Defined.

End DirNotifyMore.

(** ** FileAccess: handles, readers and reads *)

Module FileAccessMore.
Import FileAccess FileAccessFacts.

Section WithSys.
Context {W : Type} `{Sys W}.

(** X22. [openf] makes at most one stat and then at most one open, in
    this order, and nothing else: without a remembered name it returns
    true and leaves the [FileAccess] as it is; with one it fails after
    the stat alone, or its result is that of the synchronous open that
    follows the stat.  It never touches the remembered name, the
    asynchronous handle or the count of readers. *)
Theorem openf_calls (fa fa' : t W) (r : bool) :
  openf fa = (r, fa') ->
  (LocalPath.empty (nonblocking_localname fa) = true -> r = true /\ fa' = fa) /\
  (LocalPath.empty (nonblocking_localname fa) = false ->
   (events_since fa fa' = [EvSysStat] /\ r = false) \/
   events_since fa fa' = [EvSysStat; EvSysOpen false]) /\
  nonblocking_localname fa' = nonblocking_localname fa /\
  isAsyncOpened fa' = isAsyncOpened fa /\
  numAsyncReads fa' = numAsyncReads fa.
Proof.
  unfold openf, call_sysstat, call_sysopen.
  destruct (LocalPath.empty (nonblocking_localname fa)) eqn:Hname.
  { intros [= <- <-]. split; [done|]. split; [done|]. done. }
  destruct (sysstat (nonblocking_localname fa) (os fa)) as [[m s|rt] w]; cbn.
  2:{ intros [= <- <-]. split; [done|]. split; [|done]. intros _. left.
      split; [|done]. by apply events_since_app. }
  destruct (negb (bool_decide (m = mtime fa)) || negb (bool_decide (s = size fa))).
  { intros [= <- <-]. split; [done|]. split; [|done]. intros _. left.
    split; [|done]. by apply events_since_app. }
  destruct (sysopen false (nonblocking_localname fa) w) as [[|rt] w'];
    cbn; intros [= <- <-]; (split; [done|]); (split; [|done]); intros _; right;
    apply events_since_app; cbn; by rewrite <- app_assoc.
Qed.

(** X23. The asynchronous handle is open only while a reader is
    counted, and the count is never negative: [asyncopenf] keeps this
    and leaves a reader counted, [asyncclosef] keeps it when a reader
    is counted, and with no reader left it is what the destructor of
    [FileAccess] asserts; a new [FileAccess] has it. *)
Theorem readers_ok_invariant :
  (forall (w : option nat) (m s : Z) (rt : bool) (os0 : W),
     readers_ok (create w m s rt os0)) /\
  (forall (fa fa' : t W) (r : bool),
     readers_ok fa -> asyncopenf fa = (r, fa') ->
     readers_ok fa' /\ (1 <= numAsyncReads fa')%Z) /\
  (forall fa : t W,
     readers_ok fa -> (1 <= numAsyncReads fa)%Z -> readers_ok (asyncclosef fa)) /\
  (forall fa : t W,
     readers_ok fa -> numAsyncReads fa = 0%Z -> destructor_assertion fa).
Proof.
  split; [|split; [|split]].
  - intros w m s rt os0. split; cbn; [lia|discriminate].
  - intros fa fa' r [Hn Ho].
    unfold readers_ok, asyncopenf, call_sysstat, call_sysopen. cbn.
    destruct (LocalPath.empty (nonblocking_localname fa)).
    { intros [= <- <-]. cbn. split; [split|]; intros; lia. }
    destruct (isAsyncOpened fa) eqn:Hopened.
    { intros [= <- <-]. cbn. split; [split|]; intros; lia. }
    destruct (sysstat (nonblocking_localname fa) (os fa)) as [[m s|rt] w]; cbn.
    2:{ intros [= <- <-]. cbn. rewrite Hopened.
        split; [split|]; [lia|discriminate|lia]. }
    destruct (negb (bool_decide (m = mtime fa)) || negb (bool_decide (s = size fa))).
    { intros [= <- <-]. cbn. rewrite Hopened.
      split; [split|]; [lia|discriminate|lia]. }
    destruct (sysopen true (nonblocking_localname fa) w) as [[|rt] w'];
      cbn; intros [= <- <-]; cbn; rewrite ?Hopened;
      (split; [split|]); try lia; try discriminate; intros; lia.
  - intros fa [Hn Ho] H1. unfold readers_ok, asyncclosef. cbn.
    destruct (isAsyncOpened fa) eqn:Hopened; cbn.
    + destruct (bool_decide_reflect ((numAsyncReads fa - 1)%Z = 0%Z)) as [E|E];
        cbn; rewrite ?Hopened; (split; [lia|]); [discriminate|intros; lia].
    + rewrite Hopened. split; [lia|discriminate].
  - intros fa [Hn Ho] H0. split; [done|].
    destruct (isAsyncOpened fa); [|done]. specialize (Ho eq_refl). lia.
Qed.

(** X25. An asynchronous read on a [FileAccess] that its destructor
    would accept leaves exactly one reader counted, and destroying the
    context it returns leaves a [FileAccess] that the destructor
    accepts again: the handle, if the read opened it, is closed, once. *)
Theorem asyncfread_destroy (dst : cppstring) (len' pad' : nat) (pos' : Z)
    (rounds : option nat) (fa : t W) :
  destructor_assertion fa ->
  exists c fa1 fa2,
    asyncfread dst len' pad' pos' fa = Some (c, fa1) /\
    numAsyncReads fa1 = 1%Z /\
    destroy c rounds fa1 = Some fa2 /\
    destructor_assertion fa2 /\
    events_since fa1 fa2 = (if isAsyncOpened fa1 then [EvSysClose] else []).
Proof.
  intros [Hn Ho].
  assert (G : forall (c : AsyncIOContext) (fa1 : t W),
            finished c = true -> op c = READ -> numAsyncReads fa1 = 1%Z ->
            exists fa2, destroy c rounds fa1 = Some fa2 /\
              destructor_assertion fa2 /\
              events_since fa1 fa2 = (if isAsyncOpened fa1 then [EvSysClose] else [])).
  { intros c fa1 Hf Hop H1. unfold destroy, finish. rewrite Hf. cbn.
    rewrite Hop. cbn. eexists. split; [reflexivity|].
    unfold asyncclosef. cbn. rewrite H1. cbn.
    destruct (isAsyncOpened fa1) eqn:Hopened; cbn.
    - split; [done|]. by apply events_since_app.
    - split; [by split|]. apply events_since_app. cbn.
      by rewrite app_nil_r. }
  unfold asyncfread.
  destruct (asyncopenf fa) as [r fa0] eqn:Hopenf.
  assert (H1 : numAsyncReads fa0 = 1%Z).
  { revert Hopenf. unfold asyncopenf, call_sysstat, call_sysopen. cbn.
    destruct (LocalPath.empty (nonblocking_localname fa));
      [intros [= <- <-]; cbn; lia|].
    rewrite Ho.
    destruct (sysstat (nonblocking_localname fa) (os fa)) as [[m s|rt] w]; cbn;
      [|intros [= <- <-]; cbn; lia].
    destruct (negb (bool_decide (m = mtime fa)) || negb (bool_decide (s = size fa)));
      [intros [= <- <-]; cbn; lia|].
    destruct (sysopen true (nonblocking_localname fa) w) as [[|rt] w'];
      cbn; intros [= <- <-]; cbn; lia. }
  assert (R : exists c fa1,
            match r with
            | false =>
                let context :=
                  complete (prepare READ ACCESS_NONE pos' (Z.of_nat len') (Z.of_nat pad')
                              (Some (resize dst (Z.to_nat (unsigned_of_size (len' + pad')))))
                              fa) true (retry fa0) in
                fa2 ← invoke context fa0; Some (context, fa2)
            | true =>
                Some (asyncsysread
                        (prepare READ ACCESS_NONE pos' (Z.of_nat len') (Z.of_nat pad')
                           (Some (resize dst (Z.to_nat (unsigned_of_size (len' + pad')))))
                           fa) fa0)
            end = Some (c, fa1) /\
            finished c = true /\ op c = READ /\ numAsyncReads fa1 = 1%Z).
  { destruct r; cbn; eexists _, _; (split; [reflexivity|]); cbn;
      (split; [done|]); (split; [done|]); destruct (waiter fa); exact H1. }
  destruct R as (c & fa1 & E & Hf & Hop & Hn1).
  destruct (G c fa1 Hf Hop Hn1) as (fa2 & Hd & Ha & He).
  exists c, fa1, fa2. split; [by destruct r|done].
Qed.

End WithSys.

Lemma openf_calls_witness :
  let fa : t (list stat_reply) :=
    set_name (create None 10 20 false [StatOk 10 20]) (LocalPath.mk (lit "f")) in
  (LocalPath.empty (nonblocking_localname fa) = true ->
   true = true /\ snd (openf fa) = fa) /\
  (LocalPath.empty (nonblocking_localname fa) = false ->
   (events_since fa (snd (openf fa)) = [EvSysStat] /\ true = false) \/
   events_since fa (snd (openf fa)) = [EvSysStat; EvSysOpen false]) /\
  nonblocking_localname (snd (openf fa)) = nonblocking_localname fa /\
  isAsyncOpened (snd (openf fa)) = isAsyncOpened fa /\
  numAsyncReads (snd (openf fa)) = numAsyncReads fa.
Proof.
  intros fa. apply (openf_calls fa (snd (openf fa)) true).
  vm_compute; reflexivity.
Defined.

Lemma readers_ok_invariant_witness :
  let fa : t (list stat_reply) :=
    set_name (create None 10 20 false [StatOk 10 20]) (LocalPath.mk (lit "f")) in
  readers_ok (snd (asyncopenf fa)) /\ (1 <= numAsyncReads (snd (asyncopenf fa)))%Z.
Proof.
  intros fa.
  apply (proj1 (proj2 readers_ok_invariant) fa (snd (asyncopenf fa)) true).
  - split; [vm_compute; discriminate|discriminate].
  - vm_compute; reflexivity.
Defined.

Lemma asyncfread_destroy_witness :
  let fa : t (list stat_reply) :=
    set_name (create None 10 20 false [StatOk 10 20]) (LocalPath.mk (lit "f")) in
  exists c fa1 fa2,
    asyncfread [] 4 0 0 fa = Some (c, fa1) /\
    numAsyncReads fa1 = 1%Z /\
    destroy c None fa1 = Some fa2 /\
    destructor_assertion fa2 /\
    events_since fa1 fa2 = (if isAsyncOpened fa1 then [EvSysClose] else []).
Proof.
  intros fa. apply (asyncfread_destroy [] 4 0 0 None fa).
  split; reflexivity.
Defined.

(** *** Synchronous reads *)

Section WithSysRead.
Context {W : Type} `{Sys W} `{SysRead W}.

Lemma length_resize (s : cppstring) (n : nat) : length (resize s n) = n.
Proof.
  unfold resize. rewrite length_app, length_take, length_replicate. lia.
Qed.

Lemma unsigned_of_size_small (n : nat) :
  (Z.of_nat n < 2 ^ 32)%Z -> Z.to_nat (unsigned_of_size n) = n.
Proof.
  intros Hn. unfold unsigned_of_size. rewrite Z.mod_small by lia. apply Nat2Z.id.
Qed.

(** A read into a buffer that has room for it. *)
Lemma call_sysread_fits (buf : cppstring) (len' : nat) (pos' : Z) (fa : t W)
    (r : bool) (bytes : cppstring) (w : W) :
  len' <= length buf ->
  sysread len' pos' (os fa) = (r, bytes, w) ->
  call_sysread buf len' pos' fa
  = Some (r, take len' bytes ++ drop (length (take len' bytes)) buf, set_os fa w).
Proof.
  intros Hfit Hread. unfold call_sysread, store. rewrite Hread.
  destruct (decide _) as [_|N]; [done|].
  exfalso. apply N. rewrite length_take. lia.
Qed.

(** X26. [fread] reads nothing and leaves [dst] alone when [openf]
    fails.  When [openf] succeeds (and [len + pad] does not wrap
    around), [dst] gets [len + pad] bytes and begins with the bytes
    read; after a successful read the [pad] bytes after the first
    [len] are zero; and the file is closed by [closef] whether the
    read succeeds or not. *)
Theorem fread_spec (dst : cppstring) (len' pad' : nat) (pos' : Z)
    (fa fa1 : t W) (opened : bool) :
  openf fa = (opened, fa1) ->
  (opened = false -> fread dst len' pad' pos' fa = Some (false, dst, fa1)) /\
  (opened = true -> (Z.of_nat (len' + pad') < 2 ^ 32)%Z ->
   forall (r : bool) (bytes : cppstring) (w : W),
     sysread len' pos' (os fa1) = (r, bytes, w) ->
     exists dst',
       fread dst len' pad' pos' fa = Some (r, dst', closef (set_os fa1 w)) /\
       length dst' = len' + pad' /\
       take (length (take len' bytes)) dst' = take len' bytes /\
       (r = true -> drop len' dst' = replicate pad' NUL)).
Proof.
  intros Hopen. unfold fread. rewrite Hopen. split; [by intros ->|].
  intros -> Hsmall r bytes w Hread.
  rewrite (unsigned_of_size_small _ Hsmall).
  set (buf := resize dst (len' + pad')).
  assert (Hbuf : length buf = len' + pad') by apply length_resize.
  rewrite (call_sysread_fits buf len' pos' fa1 r bytes w) by (trivial; lia).
  cbn [mbind option_bind].
  set (b := take len' bytes).
  assert (Hb : length b <= len') by (unfold b; rewrite length_take; lia).
  set (X := b ++ drop (length b) buf).
  assert (HX : length X = len' + pad').
  { unfold X. rewrite length_app, length_drop. lia. }
  destruct r.
  - unfold memset0. destruct (decide _) as [_|N]; [|lia].
    cbn [mbind option_bind].
    eexists. split; [reflexivity|].
    rewrite (drop_ge X) by lia. rewrite app_nil_r.
    split; [rewrite length_app, length_take, length_replicate; lia|].
    split.
    + rewrite take_app_le by (rewrite length_take; lia).
      rewrite take_take. replace (length b `min` len') with (length b) by lia.
      unfold X. by rewrite take_app_length.
    + intros _. rewrite drop_app_length'; [done|]. rewrite length_take. lia.
  - cbn [mbind option_bind]. exists X. split; [reflexivity|].
    split; [done|]. split; [|discriminate].
    unfold X. by rewrite take_app_length.
Qed.

(** X27. [frawread] on a handle that the caller holds open makes no
    stat, open or close of its own; and when [len + pad] does not wrap
    around, [fread] returns what [frawread] returns, not caller-opened,
    on the resized buffer, and leaves the same [FileAccess]. *)
Theorem frawread_spec (dst : cppstring) (len' pad' : nat) (pos' : Z) (fa : t W) :
  (forall r dst' fa',
     frawread dst len' pos' true fa = Some (r, dst', fa') ->
     trace fa' = trace fa /\
     exists bytes, sysread len' pos' (os fa) = (r, bytes, os fa')) /\
  ((Z.of_nat (len' + pad') < 2 ^ 32)%Z ->
   exists r dst1 dst2 fa',
     fread dst len' pad' pos' fa = Some (r, dst1, fa') /\
     frawread (resize dst (len' + pad')) len' pos' false fa = Some (r, dst2, fa')).
Proof.
  split.
  - intros r dst' fa'. unfold frawread, call_sysread.
    destruct (sysread len' pos' (os fa)) as [[r0 bytes] w].
    destruct (store dst (take len' bytes)); [|discriminate].
    cbn. intros [= <- <- <-]. split; [done|]. by exists bytes.
  - intros Hsmall. unfold fread, frawread.
    destruct (openf fa) as [[|] fa1]; [|by eexists _, _, _, _].
    rewrite (unsigned_of_size_small _ Hsmall).
    destruct (sysread len' pos' (os fa1)) as [[r bytes] w] eqn:Hread.
    rewrite (call_sysread_fits _ len' pos' fa1 r bytes w)
      by (rewrite ?length_resize; trivial; lia).
    cbn [mbind option_bind].
    destruct r; [|by eexists _, _, _, _].
    unfold memset0. destruct (decide _) as [_|N]; [by eexists _, _, _, _|].
    exfalso. apply N.
    rewrite length_app, length_drop, length_resize, length_take. lia.
Qed.

End WithSysRead.

Lemma fread_spec_witness :
  let fa : t (list stat_reply) :=
    set_name (create None 10 20 false [StatOk 10 20]) (LocalPath.mk (lit "f")) in
  let R := scripted_read (lit "hello world") in
  exists dst',
    @fread _ scripted R (lit "x") 5 3 0 fa
    = Some (true, dst', closef (set_os (snd (openf fa)) [])) /\
    length dst' = 5 + 3 /\
    take (length (take 5 (lit "hello"))) dst' = take 5 (lit "hello") /\
    (true = true -> drop 5 dst' = replicate 3 NUL).
Proof.
  intros fa R.
  assert (Ho : openf fa = (true, snd (openf fa))) by (vm_compute; reflexivity).
  destruct (@fread_spec _ scripted R (lit "x") 5 3 0 fa _ true Ho) as [_ Ht].
  apply (Ht eq_refl); vm_compute; reflexivity.
Defined.

Lemma frawread_spec_witness :
  let fa : t (list stat_reply) :=
    set_name (create None 10 20 false [StatOk 10 20]) (LocalPath.mk (lit "f")) in
  let R := scripted_read (lit "hello world") in
  exists r dst1 dst2 fa',
    @fread _ scripted R (lit "x") 5 3 0 fa = Some (r, dst1, fa') /\
    @frawread _ scripted R (resize (lit "x") (5 + 3)) 5 0 false fa
    = Some (r, dst2, fa').
Proof.
  intros fa R.
  apply (proj2 (@frawread_spec _ scripted R (lit "x") 5 3 0 fa)).
  vm_compute; reflexivity.
Defined.

End FileAccessMore.
